(** * soloq-tracker: snapshot synchronisation and milestone detection

    A shallow embedding of [api/snapshot.js] (the counter-delta variant
    under [src/api/] and the milestone-detecting variant that precedes it)
    together with the properties of the rank scorer, the fetch planner, the
    reconciler, the milestone detector and the build coordinator.

    JavaScript values are modelled as follows: a number that the code only
    ever uses as an integer is a [Z]; a value that may be [null] or
    [undefined] is an [option]; an object used as a dictionary is a [gmap];
    a Supabase table with a primary key is a [gmap] from the key to the row;
    an append-only table is a [list] of rows, oldest first; a timestamp
    (an ISO string in the code) is the number of milliseconds it denotes.
    [await sleep(DELAY_MS)] changes nothing but the wall clock and is left
    out. *)

From Stdlib Require Import ZArith.
From stdpp Require Import gmap strings list fin_maps sorting.

Local Open Scope string_scope.
Local Open Scope Z_scope.

(** ** The rank scorer *)

Module Scorer.

(** [const TIER_ORDER = { IRON:0, ..., CHALLENGER:9 }], in key order. *)
Definition TIER_ORDER_entries : list (string * Z) :=
  [("IRON", 0); ("BRONZE", 1); ("SILVER", 2); ("GOLD", 3); ("PLATINUM", 4);
   ("EMERALD", 5); ("DIAMOND", 6); ("MASTER", 7); ("GRANDMASTER", 8);
   ("CHALLENGER", 9)].

Definition TIER_ORDER : gmap string Z := list_to_map TIER_ORDER_entries.

(** [const RANK_ORDER = { IV:0, III:1, II:2, I:3 }], in key order. *)
Definition RANK_ORDER_entries : list (string * Z) :=
  [("IV", 0); ("III", 1); ("II", 2); ("I", 3)].

Definition RANK_ORDER : gmap string Z := list_to_map RANK_ORDER_entries.

(** [TIER_ORDER[tier] ?? -1]: a name that is not a key reads as
    [undefined] and falls back to [-1].  This is the lookup of the table;
    under the names of [inheritedNames] (below) a plain object answers
    with a member of [Object.prototype], and they are outside the model. *)
Definition tierIndex (tier : string) : Z := default (-1) (TIER_ORDER !! tier).

(** [RANK_ORDER[rank] ?? 0]: [rank] may be [null] (the top tiers carry no
    division); [null] and every other non-key fall back to [0]. *)
Definition rankIndex (rank : option string) : Z :=
  default 0 (rank ≫= (RANK_ORDER !!.)).

(** JavaScript truthiness of a string-or-null: [null] and [""] are falsy. *)
Definition truthy (s : option string) : bool :=
  match s with
  | None => false
  | Some t => negb (bool_decide (t = ""))
  end.

(** [function rankScore(tier, rank, lp)].  [lp] is an integer, on which
    [lp || 0] is the identity ([0 || 0] is [0]).  The sum is that of the
    integers, which is the sum of the code while it stays within the safe
    integers ([safePoints], below). *)
Definition rankScore (tier rank : option string) (lp : Z) : Z :=
  match tier with
  | None => -1
  | Some t =>
      if truthy tier
      then tierIndex t * 10000 + rankIndex rank * 1000 + lp
      else -1
  end.

(** The tier is one of the ten names of [TIER_ORDER]. *)
Definition validTier (tier : string) : Prop := is_Some (TIER_ORDER !! tier).

(** The division is [null] or one of the four names of [RANK_ORDER]. *)
Definition validRank (rank : option string) : Prop :=
  match rank with
  | None => True
  | Some r => is_Some (RANK_ORDER !! r)
  end.

(** [Number.MAX_SAFE_INTEGER], [2 ** 53 - 1]: up to it the sums of the
    code, which are sums of doubles, are the sums of the integers. *)
Definition MAX_SAFE_INTEGER : Z := 2 ^ 53 - 1.

(** Points, an integer [>= 0], with which no score leaves the safe
    integers: the weights of a tier and a division add up to at most
    [9 * 10000 + 3 * 1000]. *)
Definition safePoints (lp : Z) : Prop :=
  0 ≤ lp ∧ 9 * 10000 + 3 * 1000 + lp ≤ MAX_SAFE_INTEGER.

(** The names under which every plain object answers with a member of
    [Object.prototype] instead of [undefined].  [tbl[name]] is the lookup
    of the table only for the other names. *)
Definition inheritedNames : list string :=
  ["constructor"; "__defineGetter__"; "__defineSetter__"; "hasOwnProperty";
   "__lookupGetter__"; "__lookupSetter__"; "isPrototypeOf";
   "propertyIsEnumerable"; "toString"; "valueOf"; "__proto__";
   "toLocaleString"].

(** [Object.keys(tbl).find(k => tbl[k] === idx)] *)
Definition keyOf (entries : list (string * Z)) (idx : Z) : option string :=
  fst <$> List.find (λ kv, bool_decide (kv.2 = idx)) entries.

(** [function getTierName(score)].  The template [`${tier} ${rank}`.trim()]
    only ever trims the blank left by an empty [rank]. *)
Definition getTierName (score : Z) : string :=
  if bool_decide (score < 0) then "Unranked"
  else
    let tier := default "?" (keyOf TIER_ORDER_entries (score / 10000)) in
    let rank := default "" (keyOf RANK_ORDER_entries ((score `mod` 10000) / 1000)) in
    if bool_decide (rank = "") then tier else tier +:+ " " +:+ rank.

End Scorer.

(** ** Persisted state and upstream answers *)

Module Data.

(** A row of [players]. *)
Record PlayerRow := mkPlayerRow {
  puuid : string;
  game_name : string;
  tag_line : string;
  profile_icon_id : Z;
  summoner_level : Z;
  tier : option string;
  rank : option string;
  lp : Z;
  wins : Z;
  losses : Z;
  in_game : bool;
  updated_at : Z
}.

(** A row of [rank_history]. *)
Record HistoryRow := mkHistoryRow {
  h_puuid : string;
  h_tier : option string;
  h_rank : option string;
  h_lp : Z;
  h_wins : Z;
  h_losses : Z;
  h_score : Z;
  h_recorded_at : Z
}.

(** One participant's entry in the [data] column of [matches]. *)
Record PartStat := mkPartStat {
  s_win : bool;
  s_champ : string;
  s_k : Z;
  s_d : Z;
  s_a : Z
}.

(** A row of [matches]. *)
Record MatchRow := mkMatchRow {
  m_match_id : string;
  m_fetched_at : Z;
  m_data : gmap string PartStat
}.

(** A row of [player_matches], keyed by [(puuid, match_id)]. *)
Record PlayerMatchRow := mkPlayerMatchRow {
  pm_puuid : string;
  pm_match_id : string;
  pm_win : bool;
  pm_champ : string;
  pm_kills : Z;
  pm_deaths : Z;
  pm_assists : Z;
  pm_played_at : Z
}.

Inductive MilestoneType := promoted | demoted | surpassed.

Inductive MilestoneDetail :=
  | TierChange (from_tier to_tier : string)
  | Scores (actor_score target_score : Z).

(** A row of [milestones]. *)
Record MilestoneRow := mkMilestoneRow {
  ms_type : MilestoneType;
  ms_actor_puuid : string;
  ms_target_puuid : option string;
  ms_detail : MilestoneDetail;
  ms_occurred_at : Z
}.

#[global] Instance MilestoneType_eq_dec : EqDecision MilestoneType.
Proof. solve_decision. Defined.

(** The Supabase database. *)
Record Store := mkStore {
  players : gmap string PlayerRow;
  rank_history : list HistoryRow;
  matches : gmap string MatchRow;
  player_matches : gmap (string * string) PlayerMatchRow;
  milestones : list MilestoneRow
}.


(** What a Supabase query resolves to: [{ data, error }]. *)
Record QueryResult (A : Type) := mkQueryResult {
  data : option A;
  error : bool
}.
Arguments mkQueryResult {A} _ _.
Arguments data {A} _.
Arguments error {A} _.

(** Answers of the Riot API. *)
Record Account := mkAccount {
  acc_puuid : string;
  acc_gameName : string;
  acc_tagLine : string
}.

Record Summoner := mkSummoner {
  profileIconId : Z;
  summonerLevel : Z
}.

Record LeagueEntry := mkLeagueEntry {
  queueType : string;
  le_tier : option string;
  le_rank : option string;
  leaguePoints : option Z;
  le_wins : option Z;
  le_losses : option Z
}.

Record LiveGame := mkLiveGame { gameId : option Z }.

Record Participant := mkParticipant {
  part_puuid : string;
  part_win : bool;
  championName : string;
  kills : Z;
  deaths : Z;
  assists : Z
}.

Record MatchDto := mkMatchDto {
  participants : list Participant;
  gameStartTimestamp : Z
}.

(** The outcome of an awaited call: a value, or a thrown [Error] with its
    message. *)
Inductive Res (A : Type) :=
  | Ok (a : A)
  | Throw (message : string).
Arguments Ok {A} _.
Arguments Throw {A} _.

(** The upstream as it answers during one cycle.  A required call either
    resolves or rejects; the optional live-game call resolves to [null]
    ([None]) on every failure. *)
Record Upstream := mkUpstream {
  account : string → string → Res Account;
  summoner : string → Res Summoner;
  entries : string → Res (list LeagueEntry);
  activeGame : string → option LiveGame;
  matchIds : string → Res (list string);
  matchDetail : string → Res MatchDto
}.

(** An entry of [PLAYERS]. *)
Record RosterEntry := mkRosterEntry { name : string; tag : string }.

(** The upstream requests, as issued. *)
Inductive Call :=
  | AccountCall (name tag : string)
  | SummonerCall (puuid : string)
  | EntriesCall (puuid : string)
  | ActiveGameCall (puuid : string)
  | MatchIdsCall (puuid : string)
  | MatchDetailCall (matchId : string).

#[global] Instance Call_eq_dec : EqDecision Call.
Proof. solve_decision. Defined.

(** Lines written to the console. *)
Inductive LogLine :=
  | LogStart
  | LogRankChanged (gameName : string) (prevScore newScore : Z)
  | LogStored (matchId : string)
  | WarnMatch (matchId : string) (message : string)
  | WarnPlayer (name tag : string) (message : string)
  | ErrorFatal (message : string).

(** An element of the [results] array of the milestone variant: what was
    resolved for a roster entry, or the placeholder pushed when its
    resolution threw. *)
Inductive ResultEntry :=
  | Resolved (puuid : string) (matchIds : list string)
      (rankData : list LeagueEntry) (gameName tagLine : string)
      (profileIconId summonerLevel : Z) (inGame : bool)
  | Placeholder (gameName tagLine : string).

(** [r.puuid], [undefined] on a placeholder. *)
Definition resultPuuid (r : ResultEntry) : option string :=
  match r with
  | Resolved u _ _ _ _ _ _ _ => Some u
  | Placeholder _ _ => None
  end.

(** The response view of one player. *)
Record RankView := mkRankView {
  rv_queueType : string;
  rv_tier : option string;
  rv_rank : option string;
  rv_leaguePoints : Z;
  rv_wins : Z;
  rv_losses : Z
}.

Record MatchView := mkMatchView {
  mv_win : bool;
  mv_champ : string;
  mv_k : Z;
  mv_d : Z;
  mv_a : Z
}.

Record PlayerView := mkPlayerView {
  v_puuid : string;
  v_gameName : string;
  v_tagLine : string;
  v_profileIconId : Z;
  v_summonerLevel : Z;
  v_rankData : list RankView;
  v_inGame : bool;
  v_recentMatches : list MatchView
}.

End Data.

(** ** The world a request runs in, and a state-and-exception monad *)

Module Run.
Import Data.

(** [store] is the database and [online] whether it answers (an
    unreachable database resolves every query to [{ data: null, error }]
    and takes no write; the code never inspects the error of a write).
    [building] is the module-level lock.  [trackedPuuids] (counter-delta
    variant) and [results] (milestone variant) are the locals of
    [buildSnapshot] that outlive an iteration of its loop.  [calls] and
    [console] record the upstream requests and the console lines, oldest
    first. *)
Record World := mkWorld {
  store : Store;
  online : bool;
  building : bool;
  trackedPuuids : gset string;
  results : list ResultEntry;
  calls : list Call;
  console : list LogLine
}.

Definition setStore (f : Store → Store) (w : World) : World :=
  mkWorld (f (store w)) (online w) (building w) (trackedPuuids w) (results w)
    (calls w) (console w).

Definition setBuilding (b : bool) (w : World) : World :=
  mkWorld (store w) (online w) b (trackedPuuids w) (results w) (calls w)
    (console w).

Definition setTracked (f : gset string → gset string) (w : World) : World :=
  mkWorld (store w) (online w) (building w) (f (trackedPuuids w)) (results w)
    (calls w) (console w).

Definition setResults (f : list ResultEntry → list ResultEntry) (w : World)
  : World :=
  mkWorld (store w) (online w) (building w) (trackedPuuids w) (f (results w))
    (calls w) (console w).

Definition addCall (c : Call) (w : World) : World :=
  mkWorld (store w) (online w) (building w) (trackedPuuids w) (results w)
    (calls w ++ [c]) (console w).

Definition addLog (l : LogLine) (w : World) : World :=
  mkWorld (store w) (online w) (building w) (trackedPuuids w) (results w)
    (calls w) (console w ++ [l]).

(** A computation: it ends with a value or a thrown error, and in both
    cases with the world as it left it. *)
Definition M (A : Type) : Type := World → Res A * World.

#[global] Instance M_ret : MRet M := λ A a w, (Ok a, w).

#[global] Instance M_bind : MBind M := λ A B f m w,
  match m w with
  | (Ok a, w') => f a w'
  | (Throw e, w') => (Throw e, w')
  end.

Definition get : M World := λ w, (Ok w, w).

Definition update (f : World → World) : M unit := λ w, (Ok tt, f w).

(** [try { body } catch (e) { handler(e) }] *)
Definition tryCatch {A} (body : M A) (handler : string → M A) : M A := λ w,
  match body w with
  | (Ok a, w') => (Ok a, w')
  | (Throw e, w') => handler e w'
  end.

(** [try { body } finally { fin }]: [fin] runs on both exits; the outcome
    is that of [body] unless [fin] itself throws. *)
Definition tryFinally {A} (body : M A) (fin : M unit) : M A := λ w,
  match body w with
  | (r, w') =>
      match fin w' with
      | (Ok _, w'') => (r, w'')
      | (Throw e, w'') => (Throw e, w'')
      end
  end.

(** [for (const x of xs) { body(x) }] *)
Fixpoint forEach {A} (xs : list A) (body : A → M unit) : M unit :=
  match xs with
  | [] => mret tt
  | x :: xs' => body x ;; forEach xs' body
  end.

(** [await riotGet(...)]: a required call; a rejection is thrown. *)
Definition riotGet {A} (c : Call) (answer : Res A) : M A := λ w,
  (answer, addCall c w).

(** [await riotGetOpt(...)]: never throws. *)
Definition riotGetOpt {A} (c : Call) (answer : option A) : M (option A) :=
  λ w, (Ok answer, addCall c w).

(** A write ([upsert], [insert]); its result is discarded by the code. *)
Definition dbWrite (f : Store → Store) : M unit :=
  update (λ w, if online w then setStore f w else w).

(** A read: [const { data, error } = await supabase.from(...)...]. *)
Definition dbRead {A} (q : Store → A) : M (QueryResult A) := λ w,
  (Ok (if online w then mkQueryResult (Some (q (store w))) false
       else mkQueryResult None true), w).

(** [console.log], [console.warn], [console.error] *)
Definition log (l : LogLine) : M unit := update (addLog l).

(** Table operations. *)
Definition upsertPlayer (row : PlayerRow) (s : Store) : Store :=
  mkStore (<[puuid row := row]> (players s)) (rank_history s) (matches s)
    (player_matches s) (milestones s).

Definition insertHistory (row : HistoryRow) (s : Store) : Store :=
  mkStore (players s) (rank_history s ++ [row]) (matches s)
    (player_matches s) (milestones s).

Definition upsertMatch (row : MatchRow) (s : Store) : Store :=
  mkStore (players s) (rank_history s) (<[m_match_id row := row]> (matches s))
    (player_matches s) (milestones s).

Definition upsertPlayerMatch (row : PlayerMatchRow) (s : Store) : Store :=
  mkStore (players s) (rank_history s) (matches s)
    (<[(pm_puuid row, pm_match_id row) := row]> (player_matches s))
    (milestones s).

Definition insertMilestone (row : MilestoneRow) (s : Store) : Store :=
  mkStore (players s) (rank_history s) (matches s) (player_matches s)
    (milestones s ++ [row]).

(** [select("*")] on [players]: the rows, in the order the database
    returns them. *)
Definition playerRows (s : Store) : list PlayerRow :=
  (map_to_list (players s)).*2.

(** [.from("matches").select("match_id").in("match_id", matchIds)] *)
Definition knownMatchIds (ids : list string) (s : Store) : list string :=
  m_match_id <$> filter (λ m, m_match_id m ∈ ids) (map_to_list (matches s)).*2.

(** The order of [.order("played_at", { ascending: false })]. *)
Definition playedNoEarlier (a b : PlayerMatchRow) : Prop :=
  pm_played_at b ≤ pm_played_at a.

#[global] Instance playedNoEarlier_dec a b : Decision (playedNoEarlier a b).
Proof. unfold playedNoEarlier. apply _. Defined.

(** [.from("player_matches").select(...).in("puuid", puuids)
     .order("played_at", { ascending: false })] *)
Definition recentPlayerMatches (puuids : list string) (s : Store)
  : list PlayerMatchRow :=
  merge_sort playedNoEarlier
    (filter (λ m, pm_puuid m ∈ puuids) (map_to_list (player_matches s)).*2).

(** [.order("updated_at", { ascending: false }).limit(1).single()]: the
    largest [updated_at], if there is a row. *)
Definition latestUpdatedAt (s : Store) : option Z :=
  foldr (λ r acc, Some (match acc with
                        | Some t => Z.max (updated_at r) t
                        | None => updated_at r
                        end)) None (playerRows s).

(** [puuid] is the primary key of [players], [match_id] that of
    [matches]. *)
Definition keyedByPuuid (s : Store) : Prop :=
  ∀ k r, players s !! k = Some r → puuid r = k.

Definition keyedByMatchId (s : Store) : Prop :=
  ∀ k r, matches s !! k = Some r → m_match_id r = k.


(** The rows of [milestones], as a projection of the world. *)
Definition ms (w : World) : list MilestoneRow := milestones (store w).

(** Whether a request asks for a match-id list. *)
Definition isMatchIdsCall (c : Call) : Prop :=
  match c with MatchIdsCall _ => True | _ => False end.

#[global] Instance isMatchIdsCall_dec c : Decision (isMatchIdsCall c).
Proof. destruct c; simpl; apply _. Defined.

(** Predicates on computations.  [respects R m]: every run of [m], whether
    it returns or throws, takes a world to an [R]-related one.  [total m]:
    [m] never throws.  [keeps f] relates worlds that agree on [f];
    [appends f P] relates a world to one whose log [f] has grown by
    entries that satisfy [P]. *)
Definition respects (R : relation World) {A} (m : M A) : Prop :=
  ∀ w, R w (m w).2.

Definition total {A} (m : M A) : Prop := ∀ w, ∃ a, (m w).1 = Ok a.

Definition keeps {X} (f : World → X) : relation World := λ w w', f w' = f w.

Definition appends {X} (f : World → list X) (P : X → Prop) : relation World :=
  λ w w', ∃ d, f w' = (f w ++ d)%list ∧ Forall P d.

End Run.

(** ** What the two variants of [api/snapshot.js] share word for word *)

Module Shared.
Import Scorer Data Run.

Definition MAX_MATCHES : nat := 10.

(** [x || null] on a string-or-null. *)
Definition orNull (s : option string) : option string :=
  if truthy s then s else None.

(** [!!(live?.gameId)] *)
Definition isLive (live : option LiveGame) : bool :=
  match live ≫= gameId with
  | Some g => negb (g =? 0)
  | None => false
  end.

(** The loop of [readPlayersFromDB] that keeps, per player, the first
    [MAX_MATCHES] rows of the query. *)
Definition groupRecent (rows : list PlayerMatchRow)
  : gmap string (list PlayerMatchRow) :=
  foldl (λ (byPuuid : gmap string (list PlayerMatchRow)) m,
           let sofar := default [] (byPuuid !! pm_puuid m) in
           if bool_decide (List.length sofar < MAX_MATCHES)%nat
           then <[pm_puuid m := (sofar ++ [m])%list]> byPuuid
           else byPuuid)
        ∅ rows.

Definition matchView (m : PlayerMatchRow) : MatchView :=
  mkMatchView (pm_win m) (pm_champ m) (pm_kills m) (pm_deaths m)
    (pm_assists m).

Definition playerView (byPuuid : gmap string (list PlayerMatchRow))
    (p : PlayerRow) : PlayerView :=
  mkPlayerView (puuid p) (game_name p) (tag_line p) (profile_icon_id p)
    (summoner_level p)
    (if truthy (tier p)
     then [mkRankView "RANKED_SOLO_5x5" (tier p) (rank p) (lp p) (wins p)
             (losses p)]
     else [])
    (in_game p)
    (matchView <$> reverse (default [] (byPuuid !! puuid p))).

(** [async function readPlayersFromDB(supabase)] *)
Definition readPlayersFromDB : M (list PlayerView) :=
  q ← dbRead playerRows;
  match data q with
  | Some rows =>
      if error q then mret []
      else
        qm ← dbRead (recentPlayerMatches (puuid <$> rows));
        let byPuuid := groupRecent (default [] (data qm)) in
        mret (playerView byPuuid <$> rows)
  | None => mret []
  end.

(** [(rankData || []).find(r => r.queueType === "RANKED_SOLO_5x5")] *)
Definition soloEntry (rankData : list LeagueEntry) : option LeagueEntry :=
  List.find (λ r, bool_decide (queueType r = "RANKED_SOLO_5x5")) rankData.

(** [const playerRow = { ... }] *)
Definition makePlayerRow (acc : Account) (sum : Summoner)
    (solo : option LeagueEntry) (live : option LiveGame) (now : Z)
  : PlayerRow :=
  mkPlayerRow (acc_puuid acc) (acc_gameName acc) (acc_tagLine acc)
    (profileIconId sum) (summonerLevel sum)
    (orNull (solo ≫= le_tier))
    (orNull (solo ≫= le_rank))
    (default 0 (solo ≫= leaguePoints))
    (default 0 (solo ≫= le_wins))
    (default 0 (solo ≫= le_losses))
    (isLive live) now.

Definition historyRow (row : PlayerRow) (score now : Z) : HistoryRow :=
  mkHistoryRow (puuid row) (tier row) (rank row) (lp row) (wins row)
    (losses row) score now.

(** The [reduce] that builds the [data] column of a match. *)
Definition participantMap (parts : list Participant) : gmap string PartStat :=
  foldl (λ obj part,
           <[part_puuid part :=
               mkPartStat (part_win part) (championName part) (kills part)
                 (deaths part) (assists part)]> obj)
        ∅ parts.

(** The row of [player_matches] for a participant.  [played_at] is
    [new Date(m.info.gameStartTimestamp).toISOString()], the start time
    itself when it is a valid date; the conversion throws for any other
    time, a case the properties that depend on it exclude. *)
Definition playerMatchRow (matchId : string) (m : MatchDto)
    (part : Participant) : PlayerMatchRow :=
  mkPlayerMatchRow (part_puuid part) matchId (part_win part)
    (championName part) (kills part) (deaths part) (assists part)
    (gameStartTimestamp m).

End Shared.

(** ** [src/api/snapshot.js]: the counter-delta variant *)

Module Snapshot.
Import Scorer Data Run Shared.

(** The columns [buildSnapshot] loads of every row before the loop. *)
Record PrevPlayer := mkPrevPlayer {
  pv_tier : option string;
  pv_rank : option string;
  pv_lp : Z;
  pv_wins : Z;
  pv_losses : Z
}.

Definition prevOf (p : PlayerRow) : PrevPlayer :=
  mkPrevPlayer (tier p) (rank p) (lp p) (wins p) (losses p).

(** [prev ? rankScore(prev.tier, prev.rank, prev.lp) : -2] *)
Definition prevScoreOf (prev : option PrevPlayer) : Z :=
  match prev with
  | Some pv => rankScore (pv_tier pv) (pv_rank pv) (pv_lp pv)
  | None => -2
  end.

(** [gamesPlayed], with [prev?.wins ?? playerRow.wins] and the same for
    losses. *)
Definition gamesPlayed (prev : option PrevPlayer) (row : PlayerRow) : Z :=
  let prevWins := default (wins row) (pv_wins <$> prev) in
  let prevLosses := default (losses row) (pv_losses <$> prev) in
  (wins row + losses row) - (prevWins + prevLosses).

(** The body of the inner [try]: fetch one match, cache it, and store the
    result of every participant that is in [trackedPuuids]. *)
Definition storeMatch (up : Upstream) (now : Z) (matchId : string) : M unit :=
  m ← riotGet (MatchDetailCall matchId) (matchDetail up matchId);
  dbWrite (upsertMatch
             (mkMatchRow matchId now (participantMap (participants m)))) ;;
  forEach (participants m) (λ part,
    w ← get;
    if bool_decide (part_puuid part ∈ trackedPuuids w)
    then dbWrite (upsertPlayerMatch (playerMatchRow matchId m part))
    else mret tt) ;;
  log (LogStored matchId).

(** Steps 1 to 4 of the loop body: the account, profile, rank and
    live-game calls; the puuid joins [trackedPuuids] as soon as the account
    has resolved. *)
Definition resolvePlayer (up : Upstream) (p : RosterEntry)
  : M (Account * Summoner * list LeagueEntry * option LiveGame) :=
  acc ← riotGet (AccountCall (name p) (tag p)) (account up (name p) (tag p));
  update (setTracked (λ t, {[acc_puuid acc]} ∪ t)) ;;
  sum ← riotGet (SummonerCall (acc_puuid acc)) (summoner up (acc_puuid acc));
  rankData ← riotGet (EntriesCall (acc_puuid acc)) (entries up (acc_puuid acc));
  live ← riotGetOpt (ActiveGameCall (acc_puuid acc))
           (activeGame up (acc_puuid acc));
  mret (acc, sum, rankData, live).

(** The upsert of the player row and the history record written "only
    when rank/LP actually changed". *)
Definition reconcile (prev : option PrevPlayer) (now : Z)
    (playerRow : PlayerRow) : M unit :=
  dbWrite (upsertPlayer playerRow) ;;
  let newScore := rankScore (tier playerRow) (rank playerRow) (lp playerRow) in
  let prevScore := prevScoreOf prev in
  let rankChanged := negb (newScore =? prevScore) in
  if rankChanged
  then dbWrite (insertHistory (historyRow playerRow newScore now)) ;;
       log (LogRankChanged (game_name playerRow) prevScore newScore)
  else mret tt.

(** The loop over the listed matches: the whole list is looked up in
    [matches] first, and only the ids that are not stored are fetched. *)
Definition storeNewMatches (up : Upstream) (now : Z) (ids : list string)
  : M unit :=
  known ← dbRead (knownMatchIds ids);
  let knownSet := default [] (data known) in
  forEach ids (λ matchId,
    if bool_decide (matchId ∈ knownSet) then mret tt
    else tryCatch (storeMatch up now matchId)
           (λ e, log (WarnMatch matchId e))).

(** Step 5: the match list, fetched only if wins + losses increased. *)
Definition fetchNewMatches (up : Upstream) (prev : option PrevPlayer)
    (now : Z) (playerRow : PlayerRow) : M unit :=
  let hasNewGames := 0 <? gamesPlayed prev playerRow in
  if hasNewGames
  then
    ids ← riotGet (MatchIdsCall (puuid playerRow))
            (matchIds up (puuid playerRow));
    storeNewMatches up now ids
  else mret tt.

(** The body of the outer [try]: one roster entry. *)
Definition syncPlayer (up : Upstream) (prevByPuuid : gmap string PrevPlayer)
    (now : Z) (p : RosterEntry) : M unit :=
  r ← resolvePlayer up p;
  let '(acc, sum, rankData, live) := r in
  let prev := prevByPuuid !! acc_puuid acc in
  let playerRow := makePlayerRow acc sum (soloEntry rankData) live now in
  reconcile prev now playerRow ;;
  fetchNewMatches up prev now playerRow.

(** One iteration of the loop over [PLAYERS]. *)
Definition syncEntry (up : Upstream) (prevByPuuid : gmap string PrevPlayer)
    (now : Z) (p : RosterEntry) : M unit :=
  tryCatch (syncPlayer up prevByPuuid now p)
    (λ e, log (WarnPlayer (name p) (tag p) e)).

(** [prevByPuuid], filled from the rows loaded before the loop; [puuid] is
    the primary key, so the object has the rows under the keys of the
    table. *)
Definition loadPrev (q : QueryResult (gmap string PlayerRow))
  : gmap string PrevPlayer :=
  prevOf <$> default ∅ (data q).

(** The loop of [buildSnapshot], after [prevByPuuid] and the empty
    [trackedPuuids] are set up. *)
Definition syncAll (up : Upstream) (now : Z) (roster : list RosterEntry)
  : M unit :=
  q ← dbRead players;
  update (setTracked (λ _, ∅)) ;;
  forEach roster (syncEntry up (loadPrev q) now).

(** [async function buildSnapshot(apiKey, supabase)] *)
Definition buildSnapshot (up : Upstream) (now : Z) (roster : list RosterEntry)
  : M (list PlayerView) :=
  syncAll up now roster ;;
  readPlayersFromDB.

(** *** What one roster entry contributes to a cycle *)

(** The answers to the three required calls of [resolvePlayer], or the
    error of the first that rejects. *)
Definition resolved (up : Upstream) (p : RosterEntry)
  : Res (Account * Summoner * list LeagueEntry) :=
  match account up (name p) (tag p) with
  | Throw e => Throw e
  | Ok acc =>
      match summoner up (acc_puuid acc) with
      | Throw e => Throw e
      | Ok sum =>
          match entries up (acc_puuid acc) with
          | Throw e => Throw e
          | Ok rd => Ok (acc, sum, rd)
          end
      end
  end.

(** The [playerRow] built from these answers. *)
Definition rowFor (up : Upstream) (now : Z) (acc : Account) (sum : Summoner)
    (rd : list LeagueEntry) : PlayerRow :=
  makePlayerRow acc sum (soloEntry rd) (activeGame up (acc_puuid acc)) now.


(** The match-id list requests the entry [p] issues. *)
Definition matchIdsCallsOf (up : Upstream)
    (prevByPuuid : gmap string PrevPlayer) (now : Z) (p : RosterEntry)
  : list Call :=
  match resolved up p with
  | Ok (acc, sum, rd) =>
      let row := rowFor up now acc sum rd in
      if bool_decide (0 < gamesPlayed (prevByPuuid !! acc_puuid acc) row)
      then [MatchIdsCall (acc_puuid acc)]
      else []
  | Throw _ => []
  end.

(** No entry of [others] resolves to the puuid [u]. *)
Definition soleEntryFor (up : Upstream) (u : string)
    (others : list RosterEntry) : Prop :=
  ∀ q acc sum rd,
    q ∈ others → resolved up q = Ok (acc, sum, rd) → acc_puuid acc ≠ u.

(** The request, as far as [handler] reads it: [req.method] and
    [req.query.force === "1"]. *)
Record Request := mkRequest { method : string; force : bool }.

(** [process.env] *)
Record Env := mkEnv {
  RIOT_API_KEY : option string;
  SUPABASE_URL : option string;
  SUPABASE_SERVICE_KEY : option string
}.

(** A JSON body: [{ error }] or [{ players, updatedAt, cached, stale }]
    (an absent [stale] is [false]). *)
Inductive Body :=
  | ErrorBody (message : string)
  | SnapshotBody (players : list PlayerView) (updatedAt : Z)
      (cached stale : bool).

Inductive Response :=
  | Preflight
  | Json (status : Z) (body : Body).

(** [8 * 60 * 1000] *)
Definition FRESH_MS : Z := 8 * 60 * 1000.

(** The freshness gate: the response served when the newest row is younger
    than eight minutes, [None] when the handler goes on. *)
Definition serveFresh (now : Z) : M (option Response) :=
  latest ← dbRead latestUpdatedAt;
  match mjoin (data latest) with
  | Some t =>
      if now - t <? FRESH_MS
      then players ← readPlayersFromDB;
           mret (Some (Json 200 (SnapshotBody players t true false)))
      else mret None
  | None => mret None
  end.

(** The branch of [handler] that takes the lock:
    [building = true; try { ... } catch (e) { ... } finally { building = false }]. *)
Definition runLocked (build : M (list PlayerView)) (now : Z) : M Response :=
  update (setBuilding true) ;;
  tryFinally
    (tryCatch
       (log LogStart ;;
        players ← build;
        mret (Json 200 (SnapshotBody players now false false)))
       (λ e,
          log (ErrorFatal e) ;;
          players ← readPlayersFromDB;
          if bool_decide (List.length players ≠ 0%nat)
          then mret (Json 200 (SnapshotBody players now true true))
          else mret (Json 500 (ErrorBody e))))
    (update (setBuilding false)).

(** [module.exports = async function handler(req, res)], over the cycle
    [build] it runs.  [now] is the clock.  A request that finds the lock
    taken polls until the flag clears or 25 s pass and then reads the
    database; the poll changes nothing and is left out. *)
Definition handlerWith (build : M (list PlayerView)) (env : Env) (now : Z)
    (req : Request) : M Response :=
  if bool_decide (method req = "OPTIONS") then mret Preflight
  else if negb (truthy (RIOT_API_KEY env))
  then mret (Json 500 (ErrorBody "RIOT_API_KEY not set"))
  else if negb (truthy (SUPABASE_URL env))
          || negb (truthy (SUPABASE_SERVICE_KEY env))
  then mret (Json 500 (ErrorBody "SUPABASE_URL / SUPABASE_SERVICE_KEY not set"))
  else
    fresh ← (if force req then mret None else serveFresh now);
    match fresh with
    | Some r => mret r
    | None =>
        w ← get;
        if building w
        then players ← readPlayersFromDB;
             mret (Json 200 (SnapshotBody players now true false))
        else runLocked build now
    end.

Definition handler (up : Upstream) (roster : list RosterEntry) (env : Env)
    (now : Z) (req : Request) : M Response :=
  handlerWith (buildSnapshot up now roster) env now req.

End Snapshot.

(** ** The variant of [api/snapshot.js] that detects milestones *)

Module Milestones.
Import Scorer Data Run Shared.

(** [playerRow.tier + " " + playerRow.rank]: [null] prints as ["null"]. *)
Definition tierLabel (row : PlayerRow) : string :=
  default "null" (tier row) +:+ " " +:+ default "null" (rank row).

Definition tierMilestone (ty : MilestoneType) (puuid : string)
    (prevScore : Z) (row : PlayerRow) (now : Z) : MilestoneRow :=
  mkMilestoneRow ty puuid None
    (TierChange (getTierName prevScore) (tierLabel row)) now.

(** [async function detectMilestones(supabase, puuid, prevScore, newScore,
    playerRow)]; [prevScore] is [undefined] ([None]) for a player that had
    no row when the cycle began. *)
Definition detectMilestones (now : Z) (puuid : string) (prevScore : option Z)
    (newScore : Z) (playerRow : PlayerRow) : M unit :=
  match prevScore with
  | None => mret tt
  | Some prev =>
      if bool_decide (prev = newScore) then mret tt
      else
        let prevTierScore := default (-10001) prevScore / 10000 in
        let newTierScore := newScore / 10000 in
        if bool_decide (newTierScore > prevTierScore)
           && bool_decide (newScore > 0)
        then dbWrite (insertMilestone
                        (tierMilestone promoted puuid prev playerRow now))
        else if bool_decide (newTierScore < prevTierScore)
                && bool_decide (prev > 0)
        then dbWrite (insertMilestone
                        (tierMilestone demoted puuid prev playerRow now))
        else mret tt
  end.

Definition scoreOfRow (p : PlayerRow) : Z :=
  rankScore (tier p) (rank p) (lp p).

(** [newScores], the object filled from the rows of [players]. *)
Definition scoresOf (rows : list PlayerRow) : gmap string Z :=
  foldl (λ (obj : gmap string Z) p, <[puuid p := scoreOfRow p]> obj) ∅ rows.

Definition surpassedMilestone (a b : string) (newA newB now : Z)
  : MilestoneRow :=
  mkMilestoneRow surpassed a (Some b) (Scores newA newB) now.

(** The test of the inner loop: [prevA <= prevB && newA > newB && newA > 0]. *)
Definition surpasses (prevScores newScores : gmap string Z) (a b : string)
  : bool :=
  let prevA := default (-1) (prevScores !! a) in
  let prevB := default (-1) (prevScores !! b) in
  let newA := default (-1) (newScores !! a) in
  let newB := default (-1) (newScores !! b) in
  bool_decide (prevA ≤ prevB) && bool_decide (newA > newB)
  && bool_decide (newA > 0).

(** [async function detectSurpassedMilestones(supabase, prevScores)].
    [Object.keys(newScores)] lists the keys in the order they were first
    set, which is the order of the rows: [puuid] is the primary key, so no
    row repeats one. *)
Definition detectSurpassedMilestones (now : Z) (prevScores : gmap string Z)
  : M unit :=
  q ← dbRead playerRows;
  let currentPlayers := default [] (data q) in
  let newScores := scoresOf currentPlayers in
  let puuids := puuid <$> currentPlayers in
  forEach puuids (λ a,
    forEach puuids (λ b,
      if bool_decide (a = b) then mret tt
      else if surpasses prevScores newScores a b
      then dbWrite (insertMilestone
                      (surpassedMilestone a b
                         (default (-1) (newScores !! a))
                         (default (-1) (newScores !! b)) now))
      else mret tt)).

(** The body of the inner [try]; the tracked players are those already in
    [results]. *)
Definition storeMatch (up : Upstream) (now : Z) (matchId : string) : M unit :=
  m ← riotGet (MatchDetailCall matchId) (matchDetail up matchId);
  dbWrite (upsertMatch
             (mkMatchRow matchId now (participantMap (participants m)))) ;;
  w ← get;
  let tracked := resultPuuid <$> results w in
  forEach (participants m) (λ part,
    if bool_decide (Some (part_puuid part) ∈ tracked)
    then dbWrite (upsertPlayerMatch (playerMatchRow matchId m part))
    else mret tt).

(** The five upstream calls that open the loop body; this variant lists
    the matches of every player in every cycle. *)
Definition resolvePlayer (up : Upstream) (p : RosterEntry)
  : M (Account * Summoner * list LeagueEntry * option LiveGame * list string) :=
  acc ← riotGet (AccountCall (name p) (tag p)) (account up (name p) (tag p));
  sum ← riotGet (SummonerCall (acc_puuid acc)) (summoner up (acc_puuid acc));
  rankData ← riotGet (EntriesCall (acc_puuid acc)) (entries up (acc_puuid acc));
  live ← riotGetOpt (ActiveGameCall (acc_puuid acc))
           (activeGame up (acc_puuid acc));
  ids ← riotGet (MatchIdsCall (acc_puuid acc)) (matchIds up (acc_puuid acc));
  mret (acc, sum, rankData, live, ids).

(** The upsert of the player row, the history record (written in every
    cycle by this variant) and the promotion and demotion check. *)
Definition reconcile (prevScores : gmap string Z) (now : Z)
    (playerRow : PlayerRow) : M unit :=
  dbWrite (upsertPlayer playerRow) ;;
  let score := scoreOfRow playerRow in
  dbWrite (insertHistory (historyRow playerRow score now)) ;;
  detectMilestones now (puuid playerRow) (prevScores !! puuid playerRow) score
    playerRow.

(** The loop over the listed matches: the whole list is looked up in
    [matches] first, and only the ids that are not stored are fetched. *)
Definition storeNewMatches (up : Upstream) (now : Z) (ids : list string)
  : M unit :=
  known ← dbRead (knownMatchIds ids);
  let knownSet := default [] (data known) in
  forEach ids (λ matchId,
    if bool_decide (matchId ∈ knownSet) then mret tt
    else tryCatch (storeMatch up now matchId)
           (λ e, log (WarnMatch matchId e))).

(** The body of the outer [try]: one roster entry. *)
Definition syncPlayer (up : Upstream) (prevScores : gmap string Z) (now : Z)
    (p : RosterEntry) : M unit :=
  r ← resolvePlayer up p;
  let '(acc, sum, rankData, live, ids) := r in
  let playerRow := makePlayerRow acc sum (soloEntry rankData) live now in
  reconcile prevScores now playerRow ;;
  update (setResults (λ rs,
    (rs ++ [Resolved (acc_puuid acc) ids rankData (acc_gameName acc)
              (acc_tagLine acc) (profileIconId sum) (summonerLevel sum)
              (isLive live)])%list)) ;;
  storeNewMatches up now ids.

(** One iteration of the loop over [PLAYERS]; the [catch] pushes the
    placeholder. *)
Definition syncEntry (up : Upstream) (prevScores : gmap string Z) (now : Z)
    (p : RosterEntry) : M unit :=
  tryCatch (syncPlayer up prevScores now p)
    (λ e,
       log (WarnPlayer (name p) (tag p) e) ;;
       update (setResults (λ rs, (rs ++ [Placeholder (name p) (tag p)])%list))).

(** [prevScores], from the rows loaded before the loop. *)
Definition loadPrevScores (q : QueryResult (list PlayerRow)) : gmap string Z :=
  scoresOf (default [] (data q)).

(** [async function buildSnapshot(apiKey, supabase)] *)
Definition buildSnapshot (up : Upstream) (now : Z) (roster : list RosterEntry)
  : M (list PlayerView) :=
  q ← dbRead playerRows;
  let prevScores := loadPrevScores q in
  update (setResults (λ _, [])) ;;
  forEach roster (syncEntry up prevScores now) ;;
  detectSurpassedMilestones now prevScores ;;
  readPlayersFromDB.

(** The answers to the four required calls of [resolvePlayer], or the
    error of the first that rejects. *)
Definition resolved (up : Upstream) (p : RosterEntry)
  : Res (Account * Summoner * list LeagueEntry * list string) :=
  match Snapshot.resolved up p with
  | Throw e => Throw e
  | Ok (acc, sum, rd) =>
      match matchIds up (acc_puuid acc) with
      | Throw e => Throw e
      | Ok ids => Ok (acc, sum, rd, ids)
      end
  end.

(** *** The events of the two passes

    [tierEvents] and [surpassedEvents] list the events of the per-entity
    and of the cross-entity pass over the test [ranked] that tells a ranked
    score from the unranked sentinel: the code tests [score > 0]
    ([positive]); a ranked player never scores below [0] ([nonNegative]). *)

Definition positive (score : Z) : bool := bool_decide (score > 0).

Definition nonNegative (score : Z) : bool := bool_decide (score >= 0).

Definition tierEvents (ranked : Z → bool) (now : Z) (puuid : string)
    (prevScore : option Z) (newScore : Z) (row : PlayerRow)
  : list MilestoneRow :=
  match prevScore with
  | None => []
  | Some prev =>
      let pre := prev / 10000 in
      let post := newScore / 10000 in
      if bool_decide (pre < post) && ranked newScore
      then [tierMilestone promoted puuid prev row now]
      else if bool_decide (post < pre) && ranked prev
      then [tierMilestone demoted puuid prev row now]
      else []
  end.

Definition overtakes (ranked : Z → bool) (prevScores newScores : gmap string Z)
    (a b : string) : bool :=
  let prevA := default (-1) (prevScores !! a) in
  let prevB := default (-1) (prevScores !! b) in
  let newA := default (-1) (newScores !! a) in
  let newB := default (-1) (newScores !! b) in
  bool_decide (prevA ≤ prevB) && bool_decide (newB < newA) && ranked newA.

Definition surpassedEvents (ranked : Z → bool) (now : Z)
    (prevScores newScores : gmap string Z) (puuids : list string)
  : list MilestoneRow :=
  concat ((λ a,
    concat ((λ b,
      if bool_decide (a = b) then []
      else if overtakes ranked prevScores newScores a b
      then [surpassedMilestone a b (default (-1) (newScores !! a))
              (default (-1) (newScores !! b)) now]
      else []) <$> puuids)) <$> puuids).

End Milestones.

(** ** A small roster, for concrete runs *)

Module Demo.
Import Scorer Data Run Shared.

Definition now : Z := 5000.

Definition puuidA : string := "puuid-A".
Definition puuidB : string := "puuid-B".

Definition entryA : RosterEntry := mkRosterEntry "a" "EUW".
Definition entryB : RosterEntry := mkRosterEntry "b" "EUW".
Definition entryGhost : RosterEntry := mkRosterEntry "ghost" "EUW".

Definition accountA : Account := mkAccount puuidA "a" "EUW".
Definition accountB : Account := mkAccount puuidB "b" "EUW".
Definition profile : Summoner := mkSummoner 1 30.

Definition solo (tier rank : string) (lp wins losses : Z) : LeagueEntry :=
  mkLeagueEntry "RANKED_SOLO_5x5" (Some tier) (Some rank) (Some lp)
    (Some wins) (Some losses).

(** A match both tracked players took part in. *)
Definition sharedMatch : MatchDto :=
  mkMatchDto
    [mkParticipant puuidA true "Ahri" 1 2 3;
     mkParticipant puuidB true "Zed" 4 5 6;
     mkParticipant "puuid-X" false "Lux" 0 0 0]
    1000.

(** An upstream that knows the accounts [a#EUW] and [b#EUW] and the match
    [M1], and answers [league] and [ids] for rank entries and match
    lists. *)
Definition upstreamWith (league : string → list LeagueEntry)
    (ids : string → Res (list string)) : Upstream :=
  mkUpstream
    (λ n _, if bool_decide (n = "a") then Ok accountA
            else if bool_decide (n = "b") then Ok accountB
            else Throw "HTTP 404")
    (λ _, Ok profile)
    (λ u, Ok (league u))
    (λ _, None)
    ids
    (λ m, if bool_decide (m = "M1") then Ok sharedMatch else Throw "HTTP 404").

(** Both players are Gold II, 40 LP, 11 wins, 10 losses, and list [M1]. *)
Definition upstream : Upstream :=
  upstreamWith (λ _, [solo "GOLD" "II" 40 11 10]) (λ _, Ok ["M1"]).


(** Player A has just been placed in Iron IV with 0 LP; player B has no
    ranked entry. *)
Definition upstreamIron : Upstream :=
  upstreamWith
    (λ u, if bool_decide (u = puuidA) then [solo "IRON" "IV" 0 3 2] else [])
    (λ _, Ok []).

(** Gold II, 20 LP, 10 wins, 10 losses. *)
Definition goldRow (u : string) : PlayerRow :=
  mkPlayerRow u "x" "EUW" 1 30 (Some "GOLD") (Some "II") 20 10 10 false 0.

Definition unrankedRow (u : string) : PlayerRow :=
  mkPlayerRow u "x" "EUW" 1 30 None None 0 0 0 false 0.

(** Iron IV, 0 LP. *)
Definition ironRow (u : string) : PlayerRow :=
  mkPlayerRow u "a" "EUW" 1 30 (Some "IRON") (Some "IV") 0 3 2 false now.

Definition storeOf (rows : list PlayerRow) : Store :=
  mkStore (list_to_map ((λ r, (puuid r, r)) <$> rows)) [] ∅ ∅ [].

Definition worldOf (s : Store) (online : bool) : World :=
  mkWorld s online false ∅ [] [] [].

Definition rankedWorld : World :=
  worldOf (storeOf [goldRow puuidA; goldRow puuidB]) true.

Definition unrankedWorld : World :=
  worldOf (storeOf [unrankedRow puuidA; unrankedRow puuidB]) true.


(** One persisted row, and a database that does not answer. *)
Definition offlineWorld : World := worldOf (storeOf [goldRow puuidA]) false.

(** A cycle that fails outright. *)
Definition failingBuild : M (list PlayerView) := λ w, (Throw "boom", w).

End Demo.

(** ** Notions used by the further properties *)

Module Notions.
Import Scorer Data Run Shared Snapshot.

(** [process.env] has the three variables [handler] needs. *)
Definition configured (env : Env) : Prop :=
  truthy (RIOT_API_KEY env) = true
  ∧ truthy (SUPABASE_URL env) = true
  ∧ truthy (SUPABASE_SERVICE_KEY env) = true.

(** What the freshness query of [handler] finds: the newest [updated_at],
    if the store answers and has a row. *)
Definition newestRow (w : World) : option Z :=
  if online w then latestUpdatedAt (store w) else None.

(** The newest row is younger than eight minutes. *)
Definition isFresh (now : Z) (w : World) : Prop :=
  ∃ t, newestRow w = Some t ∧ now - t < FRESH_MS.

(** The views [readPlayersFromDB] composes in the world [w]. *)
Definition storedViews (w : World) : list PlayerView :=
  if online w
  then let rows := playerRows (store w) in
       playerView (groupRecent (recentPlayerMatches (puuid <$> rows) (store w)))
         <$> rows
  else [].

(** [(puuid, match_id)] is the primary key of [player_matches]. *)
Definition keyedByPair (s : Store) : Prop :=
  ∀ k r, player_matches s !! k = Some r → (pm_puuid r, pm_match_id r) = k.

(** [s'] has every key of [s] in the keyed tables and extends its
    append-only tables at the end. *)
Definition grows (s s' : Store) : Prop :=
  dom (players s) ⊆ dom (players s')
  ∧ dom (matches s) ⊆ dom (matches s')
  ∧ dom (player_matches s) ⊆ dom (player_matches s')
  ∧ rank_history s `prefix_of` rank_history s'
  ∧ milestones s `prefix_of` milestones s'.

(** The same, as a relation between the world before and after a run. *)
Definition storeGrows : relation World := λ w w', grows (store w) (store w').

(** A run leaves the reachability of the store alone, and an unreachable
    store as it is. *)
Definition keepsOffline : relation World :=
  λ w w', online w' = online w ∧ (online w = false → store w' = store w).

(** The entry [p], if it resolves, shows no more games than the row the
    cycle loaded for it. *)
Definition quietEntry (up : Upstream) (prevByPuuid : gmap string PrevPlayer)
    (now : Z) (p : RosterEntry) : Prop :=
  ∀ acc sum rd,
    resolved up p = Ok (acc, sum, rd) →
    gamesPlayed (prevByPuuid !! acc_puuid acc) (rowFor up now acc sum rd) ≤ 0.

(** The request for the detail of the match [id]. *)
Definition isDetailOf (id : string) (c : Call) : Prop := c = MatchDetailCall id.

#[global] Instance isDetailOf_dec id c : Decision (isDetailOf id c).
Proof. unfold isDetailOf. apply _. Defined.

(** The match [id] is in [matches]. *)
Definition stored (id : string) (w : World) : Prop :=
  is_Some (matches (store w) !! id).

(** The store answers and has its matches under their ids. *)
Definition ready (w : World) : Prop :=
  online w = true ∧ keyedByMatchId (store w).

(** A run from a ready world ends in a ready world, keeps the match [id]
    stored if it was, and requests its detail at most once: not at all if
    it was stored, and if it does, the match is stored afterwards. *)
Definition fetchesOnce (id : string) : relation World := λ w w',
  ready w →
  ready w' ∧ (stored id w → stored id w')
  ∧ ∃ d, calls w' = (calls w ++ d)%list
         ∧ (List.length (filter (isDetailOf id) d) ≤ 1)%nat
         ∧ (stored id w → filter (isDetailOf id) d = [])
         ∧ (filter (isDetailOf id) d ≠ [] → stored id w').

(** The same for a run that does not request the detail of [id]. *)
Definition silent (id : string) : relation World := λ w w',
  ready w →
  ready w' ∧ (stored id w → stored id w')
  ∧ ∃ d, calls w' = (calls w ++ d)%list ∧ filter (isDetailOf id) d = [].

(** A time value that [new Date(ms).toISOString()] accepts: at most
    [8.64e15] milliseconds from the epoch; it throws a [RangeError] for
    any other. *)
Definition validTime (ms : Z) : Prop :=
  -8640000000000000 ≤ ms ≤ 8640000000000000.

(** The player [u] has a row for the match [id]. *)
Definition hasRow (u id : string) (w : World) : Prop :=
  is_Some (player_matches (store w) !! (u, id)).

(** A run from a ready world ends in a ready world and keeps [u] tracked,
    the match [id] stored and the row of [u] for it, where they were. *)
Definition keepsRow (u id : string) : relation World := λ w w',
  ready w →
  ready w'
  ∧ (u ∈ trackedPuuids w → u ∈ trackedPuuids w')
  ∧ (stored id w → stored id w')
  ∧ (hasRow u id w → hasRow u id w').

(** The requests of steps 1 to 4 for the entry [p]: each is issued if the
    one before it resolved. *)
Definition resolveCalls (up : Upstream) (p : RosterEntry) : list Call :=
  AccountCall (name p) (tag p) ::
  match account up (name p) (tag p) with
  | Throw _ => []
  | Ok acc =>
      SummonerCall (acc_puuid acc) ::
      match summoner up (acc_puuid acc) with
      | Throw _ => []
      | Ok _ =>
          EntriesCall (acc_puuid acc) ::
          match entries up (acc_puuid acc) with
          | Throw _ => []
          | Ok _ => [ActiveGameCall (acc_puuid acc)]
          end
      end
  end.


End Notions.

(** ** A state-and-exception monad over any state

    The other serverless functions keep state of their own (a cache in a
    module-level variable, a log they return); their computations run over
    that state, with the combinators [M] has. *)

Module Gen.
Import Data.

Definition St (S A : Type) : Type := S → Res A * S.

#[export] Instance St_ret {S} : MRet (St S) | 100 := λ A a s, (Ok a, s).

#[export] Instance St_bind {S} : MBind (St S) | 100 := λ A B f m s,
  match m s with
  | (Ok a, s') => f a s'
  | (Throw e, s') => (Throw e, s')
  end.

Definition getS {S} : St S S := λ s, (Ok s, s).

Definition updateS {S} (f : S → S) : St S unit := λ s, (Ok tt, f s).

Definition throwS {S A} (message : string) : St S A := λ s, (Throw message, s).

(** [try { body } catch (e) { handler(e) }] *)
Definition tryCatchS {S A} (body : St S A) (handler : string → St S A)
  : St S A := λ s,
  match body s with
  | (Ok a, s') => (Ok a, s')
  | (Throw e, s') => handler e s'
  end.

(** [try { body } finally { fin }] *)
Definition tryFinallyS {S A} (body : St S A) (fin : St S unit) : St S A := λ s,
  match body s with
  | (r, s') =>
      match fin s' with
      | (Ok _, s'') => (r, s'')
      | (Throw e, s'') => (Throw e, s'')
      end
  end.

(** [for (const x of xs) { body(x) }] *)
Fixpoint forEachS {S A} (xs : list A) (body : A → St S unit) : St S unit :=
  match xs with
  | [] => mret tt
  | x :: xs' => body x ;; forEachS xs' body
  end.

(** Every run of [m], whether it returns or throws, relates the state
    before to the state after. *)
Definition respectsS {S A} (R : relation S) (m : St S A) : Prop :=
  ∀ s, R s (m s).2.

Definition totalS {S A} (m : St S A) : Prop := ∀ s, ∃ a, (m s).1 = Ok a.

End Gen.

(** ** [api/matches.js]: match details, cached in the memory of the server *)

Module MatchesApi.
Import Scorer Data Shared Gen.

(** [matchCache], the requests sent to the upstream and the console.  A
    value of [matchCache] holds the results of the participants by puuid,
    or is [null] ([None]) after a download that failed. *)
Record State := mkState {
  matchCache : gmap string (option (gmap string PartStat));
  requests : list Call;
  warnings : list LogLine
}.

Definition setCache
    (f : gmap string (option (gmap string PartStat))
         → gmap string (option (gmap string PartStat)))
    (s : State) : State :=
  mkState (f (matchCache s)) (requests s) (warnings s).

Definition addRequest (c : Call) (s : State) : State :=
  mkState (matchCache s) (requests s ++ [c]) (warnings s).

Definition addWarning (l : LogLine) (s : State) : State :=
  mkState (matchCache s) (requests s) (warnings s ++ [l]).

(** Truthiness of [matchCache[id]]: [undefined] and [null] are falsy, an
    object, even an empty one, is truthy.  [matchCache[id]] is the lookup
    of the map for every id that is not in [inheritedNames]. *)
Definition truthyValue (v : option (option (gmap string PartStat))) : bool :=
  match v with
  | Some (Some _) => true
  | _ => false
  end.

(** [await get(ROUTING, `/lol/match/v5/matches/${id}`, apiKey)] *)
Definition get (up : Upstream) (id : string) : St State MatchDto := λ s,
  (matchDetail up id, addRequest (MatchDetailCall id) s).

(** [matchCache[id][part.puuid] = { win, champ, k, d, a }]; the assignment
    throws a [TypeError] when [matchCache[id]] is no object. *)
Definition setResult (id : string) (part : Participant) : St State unit :=
  s ← getS;
  match matchCache s !! id with
  | Some (Some obj) =>
      updateS (setCache
        <[id := Some (<[part_puuid part :=
                          mkPartStat (part_win part) (championName part)
                            (kills part) (deaths part) (assists part)]> obj)]>)
  | _ => throwS "TypeError"
  end.

(** The body of the loop over [missing]. *)
Definition download (up : Upstream) (id : string) : St State unit :=
  tryCatchS
    (m ← get up id;
     updateS (setCache <[id := Some ∅]>) ;;
     forEachS (participants m) (setResult id))
    (λ err,
       updateS (addWarning (WarnMatch id err)) ;;
       updateS (setCache <[id := None]>)).

(** [{ matches, cached, fetched }], [{ error }] or the answer to a
    preflight. *)
Inductive Response :=
  | Preflight
  | Failure (status : Z) (message : string)
  | Matches (matches : gmap string (option (gmap string PartStat)))
      (cached : bool) (fetched : nat).

(** [matchCache[id] || null] *)
Definition cachedOrNull (s : State) (id : string)
  : option (gmap string PartStat) :=
  mjoin (matchCache s !! id).

(** [handler] from [const missing] on; [requested] are the ids the query
    string lists. *)
Definition serve (up : Upstream) (requested : list string)
  : St State Response :=
  s ← getS;
  let missing :=
    filter (λ id, truthyValue (matchCache s !! id) = false) requested in
  forEachS missing (download up) ;;
  s' ← getS;
  let result :=
    foldl (λ (result : gmap string (option (gmap string PartStat))) id,
             <[id := cachedOrNull s' id]> result) ∅ requested in
  mret (Matches result (bool_decide (List.length missing = 0%nat))
          (List.length missing)).

(** What the handler answers for [id] when it has to download it. *)
Definition downloaded (up : Upstream) (id : string)
  : option (gmap string PartStat) :=
  match matchDetail up id with
  | Ok m => Some (participantMap (participants m))
  | Throw _ => None
  end.

End MatchesApi.

(** ** [api/snapshot.js], the variant that caches the snapshot in memory *)

Module Cached.
Import Scorer Data Shared Gen.

(** An element of [results]: what was fetched for a roster entry, or the
    placeholder [{ gameName: p.name, tagLine: p.tag, error: true }]. *)
Inductive Entry :=
  | Fetched (gameName tagLine puuid : string) (profileIconId summonerLevel : Z)
      (rankData : list LeagueEntry) (inGame : bool)
  | Failed (gameName tagLine : string).

(** [cache = { players, updatedAt }] *)
Record Snapshot := mkSnapshot { players : list Entry; updatedAt : Z }.

(** The module-level [cache] and [building], the local [results] of
    [buildSnapshot], the requests sent to the upstream and the console. *)
Record State := mkState {
  cache : option Snapshot;
  building : bool;
  results : list Entry;
  requests : list Call;
  warnings : list LogLine
}.

Definition setCache (c : option Snapshot) (s : State) : State :=
  mkState c (building s) (results s) (requests s) (warnings s).

Definition setBuilding (b : bool) (s : State) : State :=
  mkState (cache s) b (results s) (requests s) (warnings s).

Definition setResults (f : list Entry → list Entry) (s : State) : State :=
  mkState (cache s) (building s) (f (results s)) (requests s) (warnings s).

Definition addRequest (c : Call) (s : State) : State :=
  mkState (cache s) (building s) (results s) (requests s ++ [c]) (warnings s).

Definition addWarning (l : LogLine) (s : State) : State :=
  mkState (cache s) (building s) (results s) (requests s) (warnings s ++ [l]).

(** [60 * 60 * 1000] *)
Definition CACHE_TTL : Z := 60 * 60 * 1000.

(** [await get(...)]: a required call. *)
Definition get {A} (c : Call) (answer : Res A) : St State A := λ s,
  (answer, addRequest c s).

(** [await getOpt(...)]: never throws. *)
Definition getOpt {A} (c : Call) (answer : option A) : St State (option A) :=
  λ s, (Ok answer, addRequest c s).

(** The body of the [try] of the loop. *)
Definition fetchPlayer (up : Upstream) (p : RosterEntry) : St State unit :=
  acc ← get (AccountCall (name p) (tag p)) (account up (name p) (tag p));
  sum ← get (SummonerCall (acc_puuid acc)) (summoner up (acc_puuid acc));
  rankData ← get (EntriesCall (acc_puuid acc)) (entries up (acc_puuid acc));
  live ← getOpt (ActiveGameCall (acc_puuid acc))
           (activeGame up (acc_puuid acc));
  updateS (setResults (λ rs,
    (rs ++ [Fetched (acc_gameName acc) (acc_tagLine acc) (acc_puuid acc)
              (profileIconId sum) (summonerLevel sum) rankData
              (isLive live)])%list)).

(** [async function buildSnapshot(apiKey)] *)
Definition buildSnapshot (up : Upstream) (roster : list RosterEntry)
  : St State (list Entry) :=
  updateS (setResults (λ _, [])) ;;
  forEachS roster (λ p,
    tryCatchS (fetchPlayer up p)
      (λ err,
         updateS (addWarning (WarnPlayer (name p) (tag p) err)) ;;
         updateS (setResults
                    (λ rs, (rs ++ [Failed (name p) (tag p)])%list)))) ;;
  s ← getS;
  mret (results s).

(** The request, as far as [handler] reads it. *)
Record Request := mkRequest { method : string; force : bool }.

(** [{ error }], or [{ ...cache, cached, stale }] (an absent [stale] is
    [false]). *)
Inductive Response :=
  | Preflight
  | Failure (status : Z) (message : string)
  | Served (snapshot : Snapshot) (cached stale : bool).

(** [module.exports = async function handler(req, res)]; [now] is the
    clock.  A request that finds the lock taken polls until the flag
    clears or 55 s pass; the poll changes nothing and is left out. *)
Definition handler (up : Upstream) (roster : list RosterEntry)
    (apiKey : option string) (now : Z) (req : Request) : St State Response :=
  if bool_decide (method req = "OPTIONS") then mret Preflight
  else if negb (truthy apiKey)
  then mret (Failure 500 "RIOT_API_KEY no configurada")
  else
    s ← getS;
    match cache s with
    | Some c =>
        if negb (force req) && (now - updatedAt c <? CACHE_TTL)
        then mret (Some (Served c true false))
        else mret None
    | None => mret None
    end ≫= λ fresh,
    match fresh with
    | Some r => mret r
    | None =>
        if building s
        then
          s ← getS;
          match cache s with
          | Some c => mret (Served c true false)
          | None => mret (Failure 503 "Construyendo snapshot, reintenta")
          end
        else
          updateS (setBuilding true) ;;
          tryFinallyS
            (tryCatchS
               (players ← buildSnapshot up roster;
                updateS (setCache (Some (mkSnapshot players now))) ;;
                mret (Served (mkSnapshot players now) false false))
               (λ e,
                  updateS (addWarning (ErrorFatal e)) ;;
                  s ← getS;
                  match cache s with
                  | Some c => mret (Served c true true)
                  | None => mret (Failure 500 e)
                  end))
            (updateS (setBuilding false))
    end.

(** The element of [results] for the roster entry [p]. *)
Definition entryOf (up : Upstream) (p : RosterEntry) : Entry :=
  match Snapshot.resolved up p with
  | Ok (acc, sum, rankData) =>
      Fetched (acc_gameName acc) (acc_tagLine acc) (acc_puuid acc)
        (profileIconId sum) (summonerLevel sum) rankData
        (isLive (activeGame up (acc_puuid acc)))
  | Throw _ => Failed (name p) (tag p)
  end.

End Cached.

(** ** [api/backfill.js]: the one-time backfill of match results *)

Module Backfill.
Import Scorer Data Run Shared Gen.

(** The lines pushed to [log]. *)
Inductive Line :=
  | Target (name tag : string)
  | Puuid (puuid : string)
  | Found (count : nat)
  | Skip (matchId : string)
  | Fixed (matchId : string)
  | Stored (matchId champ : string) (win : bool)
  | StoredWithoutPlayer (matchId : string)
  | ErrorOn (matchId message : string)
  | Done
  | Fatal (message : string).

(** The database and whether it answers, the requests sent to the
    upstream, and the local [log]. *)
Record State := mkState {
  store : Store;
  online : bool;
  requests : list Call;
  log : list Line
}.

Definition setStore (f : Store → Store) (s : State) : State :=
  mkState (f (store s)) (online s) (requests s) (log s).

Definition addRequest (c : Call) (s : State) : State :=
  mkState (store s) (online s) (requests s ++ [c]) (log s).

Definition setLog (f : list Line → list Line) (s : State) : State :=
  mkState (store s) (online s) (requests s) (f (log s)).

(** [await riotGet(...)] *)
Definition riotGet {A} (c : Call) (answer : Res A) : St State A := λ s,
  (answer, addRequest c s).

(** A write; its result is discarded by the code. *)
Definition dbWrite (f : Store → Store) : St State unit :=
  updateS (λ s, if online s then setStore f s else s).

(** A read: [const { data } = await supabase.from(...)...]. *)
Definition dbRead {A} (q : Store → A) : St State (QueryResult A) := λ s,
  (Ok (if online s then mkQueryResult (Some (q (store s))) false
       else mkQueryResult None true), s).

(** [log.push(line)] *)
Definition push (line : Line) : St State unit :=
  updateS (setLog (λ l, (l ++ [line])%list)).

(** [.single()]: the row if the query selects exactly one, [null]
    otherwise. *)
Definition single {A} (rows : list A) : option A :=
  match rows with
  | [r] => Some r
  | _ => None
  end.

(** [.from("matches").select(...).eq("match_id", matchId).single()] *)
Definition matchById (matchId : string) (s : Store) : option MatchRow :=
  single (filter (λ r, m_match_id r = matchId) (map_to_list (matches s)).*2).

(** [.from("player_matches").select("match_id").eq("puuid", puuid)
     .eq("match_id", matchId).single()] *)
Definition playerMatchOf (puuid matchId : string) (s : Store)
  : option PlayerMatchRow :=
  single (filter (λ r, pm_puuid r = puuid ∧ pm_match_id r = matchId)
            (map_to_list (player_matches s)).*2).

(** The row written for the player from its entry in the [data] of a
    match. *)
Definition rowOf (puuid matchId : string) (part : PartStat) (played_at : Z)
  : PlayerMatchRow :=
  mkPlayerMatchRow puuid matchId (s_win part) (s_champ part) (s_k part)
    (s_d part) (s_a part) played_at.

(** The branch for a match that is stored: make sure the row of the
    player exists. *)
Definition repairRow (now : Z) (acc : Account) (matchId : string)
  : St State unit :=
  pm ← dbRead (playerMatchOf (acc_puuid acc) matchId);
  match mjoin (data pm) with
  | Some _ => mret tt
  | None =>
      mData ← dbRead (matchById matchId);
      match mjoin (data mData) ≫= λ r, m_data r !! acc_puuid acc with
      | Some part =>
          dbWrite (Run.upsertPlayerMatch
                     (rowOf (acc_puuid acc) matchId part now)) ;;
          push (Fixed matchId)
      | None => mret tt
      end
  end.

(** The inner [try]: download the match, store it and the row of the
    player. *)
Definition fetchMatch (up : Upstream) (now : Z) (acc : Account)
    (matchId : string) : St State unit :=
  tryCatchS
    (m ← riotGet (MatchDetailCall matchId) (matchDetail up matchId);
     let participantMap := participantMap (participants m) in
     dbWrite (Run.upsertMatch (mkMatchRow matchId now participantMap)) ;;
     match participantMap !! acc_puuid acc with
     | Some part =>
         dbWrite (Run.upsertPlayerMatch
                    (rowOf (acc_puuid acc) matchId part (gameStartTimestamp m))) ;;
         push (Stored matchId (s_champ part) (s_win part))
     | None => push (StoredWithoutPlayer matchId)
     end)
    (λ err, push (ErrorOn matchId err)).

(** The body of the loop over [matchIds]. *)
Definition backfillMatch (up : Upstream) (now : Z) (acc : Account)
    (matchId : string) : St State unit :=
  existing ← dbRead (matchById matchId);
  match mjoin (data existing) with
  | Some _ => push (Skip matchId) ;; repairRow now acc matchId
  | None => fetchMatch up now acc matchId
  end.

(** The body of the loop over [TARGETS]. *)
Definition backfillTarget (up : Upstream) (now : Z) (p : RosterEntry)
    : St State unit :=
  tryCatchS
    (push (Target (name p) (tag p)) ;;
     acc ← riotGet (AccountCall (name p) (tag p)) (account up (name p) (tag p));
     push (Puuid (acc_puuid acc)) ;;
     matchIds ← riotGet (MatchIdsCall (acc_puuid acc))
                  (matchIds up (acc_puuid acc));
     push (Found (List.length matchIds)) ;;
     forEachS matchIds (backfillMatch up now acc) ;;
     push Done)
    (λ err, push (Fatal err)).

(** [{ error }], [{ done: true, log }] or the answer to a preflight. *)
Inductive Response :=
  | Preflight
  | Failure (status : Z) (message : string)
  | Finished (log : list Line).

(** [module.exports = async function handler(req, res)], over the list
    [targets]; [method] is [req.method] and [now] the clock. *)
Definition handler (up : Upstream) (targets : list RosterEntry)
    (env : Snapshot.Env) (now : Z) (method : string) : St State Response :=
  if bool_decide (method = "OPTIONS") then mret Preflight
  else if negb (truthy (Snapshot.RIOT_API_KEY env))
          || negb (truthy (Snapshot.SUPABASE_URL env))
          || negb (truthy (Snapshot.SUPABASE_SERVICE_KEY env))
  then mret (Failure 500 "Missing env vars")
  else
    updateS (setLog (λ _, [])) ;;
    forEachS targets (backfillTarget up now) ;;
    s ← getS;
    mret (Finished (log s)).

(** The store answers and has the rows of [matches] and [player_matches]
    under their primary keys. *)
Definition sound (s : State) : Prop :=
  online s = true
  ∧ keyedByMatchId (store s)
  ∧ Notions.keyedByPair (store s).

(** The player [u] has a row for the match [id]. *)
Definition hasRow (u id : string) (s : State) : Prop :=
  is_Some (player_matches (store s) !! (u, id)).

(** The match [id] is stored, and its [data] lists the player [u]. *)
Definition listsPlayer (u id : string) (s : State) : Prop :=
  ∃ row part, matches (store s) !! id = Some row ∧ m_data row !! u = Some part.

(** A run from a sound state ends in a sound state, keeps the row of [u]
    for [id] if there is one, and otherwise keeps [u] listed in the stored
    match [id] until the row is there. *)
Definition keepsRepair (u id : string) : relation State := λ s s',
  sound s →
  sound s'
  ∧ (hasRow u id s → hasRow u id s')
  ∧ (listsPlayer u id s ∨ hasRow u id s → listsPlayer u id s' ∨ hasRow u id s').

(** A run leaves [players], [rank_history] and [milestones] as they are
    and keeps every key of [matches] and [player_matches]. *)
Definition keepsOthers : relation State := λ s s',
  players (store s') = players (store s)
  ∧ rank_history (store s') = rank_history (store s)
  ∧ milestones (store s') = milestones (store s)
  ∧ dom (matches (store s)) ⊆ dom (matches (store s'))
  ∧ dom (player_matches (store s)) ⊆ dom (player_matches (store s')).

End Backfill.

(** ** More runs *)

Module Cases.
Import Scorer Data Run Shared Snapshot Demo.

(** All three variables of [process.env] are set. *)
Definition env : Env := mkEnv (Some "key") (Some "url") (Some "service-key").

(** Both players are still Gold II with 10 wins and 10 losses, as in
    [rankedWorld], but have 40 LP now. *)
Definition upstreamQuiet : Upstream :=
  upstreamWith (λ _, [solo "GOLD" "II" 40 10 10]) (λ _, Ok ["M1"]).



(** Player A is Gold II and player B Iron IV. *)
Definition mixedWorld : World :=
  worldOf (storeOf [goldRow puuidA; ironRow puuidB]) true.

(** The scores before: A, at 0, was behind B, at 10000. *)
Definition earlierScores : gmap string Z :=
  <[puuidA := 0]> (<[puuidB := 10000]> ∅).




(** An instance of [api/matches.js] that has just started. *)
Definition emptyCache : MatchesApi.State := MatchesApi.mkState ∅ [] [].

(** An instance of the cached variant that has just started. *)
Definition coldStart : Cached.State := Cached.mkState None false [] [] [].

(** The store as the cycle over both players leaves it: the match [M1] is
    stored, with the row of player A only. *)
Definition afterCycle : Store :=
  store (buildSnapshot upstream now [entryA; entryB] rankedWorld).2.

Definition backfillStart : Backfill.State :=
  Backfill.mkState afterCycle true [] [].

End Cases.

(** * Properties *)

Import Scorer Data Run Shared.

(** ** The rank scorer *)

Section ScorerFacts.

Lemma entries_range (es : list (string * Z)) (lo hi : Z) (t : string) (v : Z) :
  Forall (λ kv, lo ≤ kv.2 ≤ hi) es →
  (list_to_map es : gmap string Z) !! t = Some v → lo ≤ v ≤ hi.
Proof.
  intros Hall H. apply elem_of_list_to_map_2 in H.
  rewrite Forall_forall in Hall. exact (Hall _ H).
Qed.

Lemma TIER_ORDER_range (t : string) (v : Z) :
  TIER_ORDER !! t = Some v → 0 ≤ v ≤ 9.
Proof.
  apply entries_range. unfold TIER_ORDER_entries.
  repeat constructor; simpl; lia.
Qed.

Lemma TIER_ORDER_key_nonempty (t : string) (v : Z) :
  TIER_ORDER !! t = Some v → t ≠ "".
Proof. intros H ->. vm_compute in H. discriminate. Qed.

Lemma rankIndex_range (rank : option string) : 0 ≤ rankIndex rank ≤ 3.
Proof.
  unfold rankIndex. destruct rank as [r |]; simpl; [| lia].
  destruct (RANK_ORDER !! r) as [v |] eqn:H; simpl; [| lia].
  revert H. apply entries_range. unfold RANK_ORDER_entries.
  repeat constructor; simpl; lia.
Qed.

(** The score of a ranked player, spelled out. *)
Lemma rankScore_ranked (t : string) (rank : option string) (lp : Z) :
  validTier t →
  rankScore (Some t) rank lp = tierIndex t * 10000 + rankIndex rank * 1000 + lp
  ∧ 0 ≤ tierIndex t ≤ 9.
Proof.
  intros [v H]. unfold rankScore, tierIndex, truthy.
  rewrite bool_decide_eq_false_2 by (by eapply TIER_ORDER_key_nonempty).
  rewrite H. simpl. split; [done | by eapply TIER_ORDER_range].
Qed.



(** C1, amended.  For a tier among the ten names, a division that is
    [null] or among the four names, and points that are an integer [>= 0]
    and keep the score within the safe integers (where the sum of the code
    is the sum of the integers), the score orders ranks by tier, then
    division, then points, as long as the points of the lower rank stay
    below the weight of the next unit: below [7000] a higher tier wins
    whatever the divisions, below [1000] a higher division of the same
    tier wins, and in the same tier and division more points win.  The
    score [-1] of an unranked player is below every ranked score. *)
Theorem rankScore_lexicographic (t1 t2 : string) (d1 d2 : option string)
    (lp1 lp2 : Z) :
  validTier t1 → validTier t2 → validRank d1 → validRank d2 →
  safePoints lp1 → safePoints lp2 →
  (tierIndex t1 < tierIndex t2 → lp1 < 7000 →
   rankScore (Some t1) d1 lp1 < rankScore (Some t2) d2 lp2)
  ∧ (tierIndex t1 = tierIndex t2 → rankIndex d1 < rankIndex d2 → lp1 < 1000 →
     rankScore (Some t1) d1 lp1 < rankScore (Some t2) d2 lp2)
  ∧ (tierIndex t1 = tierIndex t2 → rankIndex d1 = rankIndex d2 → lp1 < lp2 →
     rankScore (Some t1) d1 lp1 < rankScore (Some t2) d2 lp2)
  ∧ (∀ d lp, rankScore None d lp = -1
             ∧ rankScore None d lp < rankScore (Some t1) d1 lp1)
  ∧ 0 ≤ rankScore (Some t1) d1 lp1 ≤ MAX_SAFE_INTEGER
  ∧ 0 ≤ rankScore (Some t2) d2 lp2 ≤ MAX_SAFE_INTEGER.
Proof.
  intros H1 H2 _ _ [Hlp1 Hs1] [Hlp2 Hs2].
  destruct (rankScore_ranked t1 d1 lp1 H1) as [-> ?].
  destruct (rankScore_ranked t2 d2 lp2 H2) as [-> ?].
  pose proof (rankIndex_range d1). pose proof (rankIndex_range d2).
  repeat split; intros; simpl; lia.
Qed.

(** Gold I with 99 points is below Platinum IV with none. *)
Lemma rankScore_lexicographic_witness :
  rankScore (Some "GOLD") (Some "I") 99
  < rankScore (Some "PLATINUM") (Some "IV") 0.
Proof.
  refine (proj1 (rankScore_lexicographic "GOLD" "PLATINUM" (Some "I")
                   (Some "IV") 99 0 _ _ _ _ _ _) _ _).
  - by exists 3.
  - by exists 4.
  - by exists 3.
  - by exists 0.
  - unfold safePoints, MAX_SAFE_INTEGER. lia.
  - unfold safePoints, MAX_SAFE_INTEGER. lia.
  - vm_compute. reflexivity.
  - lia.
Defined.

(** C1, as stated, fails once the points reach the weight of a unit: 1000
    points in Gold IV score as much as Gold III with none, and 7000 points
    in Gold I as much as Platinum IV with none. *)
Lemma rankScore_points_overflow :
  (validTier "GOLD" ∧ rankIndex (Some "IV") < rankIndex (Some "III")
   ∧ 0 ≤ 1000
   ∧ ¬ rankScore (Some "GOLD") (Some "IV") 1000
       < rankScore (Some "GOLD") (Some "III") 0)
  ∧ (validTier "GOLD" ∧ validTier "PLATINUM"
     ∧ tierIndex "GOLD" < tierIndex "PLATINUM" ∧ 0 ≤ 7000
     ∧ ¬ rankScore (Some "GOLD") (Some "I") 7000
         < rankScore (Some "PLATINUM") (Some "IV") 0).
Proof.
  repeat split; try (by eexists); try (vm_compute; congruence).
Qed.

End ScorerFacts.


(** ** Reasoning about computations *)

#[global] Instance keeps_refl {X} (f : World → X) : Reflexive (keeps f).
Proof. by intros w. Qed.
#[global] Instance keeps_trans {X} (f : World → X) : Transitive (keeps f).
Proof. unfold keeps. intros w1 w2 w3 H1 H2. congruence. Qed.
#[global] Instance appends_refl {X} (f : World → list X) P : Reflexive (appends f P).
Proof. intros w. exists []. by rewrite app_nil_r. Qed.
#[global] Instance appends_trans {X} (f : World → list X) P : Transitive (appends f P).
Proof.
  intros w1 w2 w3 (d1 & H1 & F1) (d2 & H2 & F2). exists (d1 ++ d2)%list.
  rewrite H2, H1, app_assoc. split; [done | by apply Forall_app].
Qed.

Section Respects.
Context (R : relation World) `{!Reflexive R} `{!Transitive R}.

Lemma respects_ret {A} (a : A) : respects R (mret a).
Proof. intros w. simpl. reflexivity. Qed.

Lemma respects_get : respects R get.
Proof. intros w. simpl. reflexivity. Qed.

Lemma respects_bind {A B} (m : M A) (f : A → M B) :
  respects R m → (∀ a, respects R (f a)) → respects R (m ≫= f).
Proof.
  intros Hm Hf w. unfold mbind, M_bind. specialize (Hm w).
  destruct (m w) as [[a | e] w']; simpl in *; [| done].
  etrans; [exact Hm | apply Hf].
Qed.

Lemma respects_tryCatch {A} (m : M A) (h : string → M A) :
  respects R m → (∀ e, respects R (h e)) → respects R (tryCatch m h).
Proof.
  intros Hm Hh w. unfold tryCatch. specialize (Hm w).
  destruct (m w) as [[a | e] w']; simpl in *; [done |].
  etrans; [exact Hm | apply Hh].
Qed.

Lemma respects_tryFinally {A} (m : M A) (fin : M unit) :
  respects R m → respects R fin → respects R (tryFinally m fin).
Proof.
  intros Hm Hf w. unfold tryFinally. specialize (Hm w).
  destruct (m w) as [r w']. specialize (Hf w').
  destruct (fin w') as [[[] | e] w'']; simpl in *; by etrans.
Qed.

Lemma respects_forEach {A} (xs : list A) (body : A → M unit) :
  (∀ x, respects R (body x)) → respects R (forEach xs body).
Proof.
  intros Hb. induction xs as [| x xs IH]; simpl.
  - apply respects_ret.
  - apply respects_bind; [apply Hb | intros _; apply IH].
Qed.

Lemma respects_forEach_elem {A} (xs : list A) (body : A → M unit) :
  (∀ x, x ∈ xs → respects R (body x)) → respects R (forEach xs body).
Proof.
  induction xs as [| x xs IH]; intros Hb; simpl.
  - apply respects_ret.
  - apply respects_bind; [apply Hb; by left | intros _].
    apply IH. intros y Hy. apply Hb. by right.
Qed.

Lemma respects_update (f : World → World) :
  (∀ w, R w (f w)) → respects R (update f).
Proof. intros Hf w. apply Hf. Qed.

Lemma respects_riotGet {A} (c : Call) (r : Res A) :
  (∀ w, R w (addCall c w)) → respects R (riotGet c r).
Proof. intros Hf w. apply Hf. Qed.

Lemma respects_riotGetOpt {A} (c : Call) (r : option A) :
  (∀ w, R w (addCall c w)) → respects R (riotGetOpt c r).
Proof. intros Hf w. apply Hf. Qed.

Lemma respects_dbRead {A} (q : Store → A) : respects R (dbRead q).
Proof. intros w. simpl. reflexivity. Qed.

Lemma respects_dbWrite (f : Store → Store) :
  (∀ w, R w (setStore f w)) → respects R (dbWrite f).
Proof.
  intros Hf w. unfold dbWrite, update. simpl. destruct (online w); [apply Hf | reflexivity].
Qed.

Lemma respects_log (l : LogLine) :
  (∀ w, R w (addLog l w)) → respects R (log l).
Proof. intros Hf w. apply Hf. Qed.
End Respects.

(** Takes a goal [respects R m] apart along the structure of [m]; what is
    left are the primitive steps that touch the world. *)
Ltac respects_step :=
  lazymatch goal with
  | |- respects _ (mret _) => apply respects_ret; try apply _
  | |- respects _ get => apply respects_get; try apply _
  | |- respects _ (dbRead _) => apply respects_dbRead; try apply _
  | |- respects _ (_ ≫= _) => apply respects_bind; [apply _ | | intros ?]
  | |- respects _ (tryCatch _ _) => apply respects_tryCatch; [apply _ | | intros ?]
  | |- respects _ (tryFinally _ _) => apply respects_tryFinally; [apply _ | |]
  | |- respects _ (forEach _ _) => apply respects_forEach; [apply _ | apply _ | intros ?]
  | |- respects _ (update _) => apply respects_update; intros ?
  | |- respects _ (riotGet _ _) => apply respects_riotGet; intros ?
  | |- respects _ (riotGetOpt _ _) => apply respects_riotGetOpt; intros ?
  | |- respects _ (dbWrite _) => apply respects_dbWrite; [apply _ | intros ?]
  | |- respects _ (log _) => apply respects_log; intros ?
  | |- respects _ (if ?b then _ else _) => destruct b
  | |- respects _ (match ?x with _ => _ end) => destruct x
  end.

Ltac respects_all := cbv zeta; repeat (respects_step; cbv zeta).


Lemma total_ret {A} (a : A) : total (mret a).
Proof. intros w. by exists a. Qed.

Lemma total_bind {A B} (m : M A) (f : A → M B) :
  total m → (∀ a, total (f a)) → total (m ≫= f).
Proof.
  intros Hm Hf w. unfold mbind, M_bind. destruct (Hm w) as [a Ha].
  destruct (m w) as [[a' | e] w']; simpl in *; [| done]. apply Hf.
Qed.

Lemma total_tryCatch {A} (m : M A) (h : string → M A) :
  (∀ e, total (h e)) → total (tryCatch m h).
Proof.
  intros Hh w. unfold tryCatch.
  destruct (m w) as [[a | e] w']; simpl; [by exists a | apply Hh].
Qed.

Lemma total_forEach {A} (xs : list A) (body : A → M unit) :
  (∀ x, total (body x)) → total (forEach xs body).
Proof.
  intros Hb. induction xs as [| x xs IH]; simpl.
  - apply total_ret.
  - apply total_bind; [apply Hb | intros _; apply IH].
Qed.

Lemma total_update (f : World → World) : total (update f).
Proof. intros w. by exists tt. Qed.

Lemma total_dbRead {A} (q : Store → A) : total (dbRead q).
Proof. intros w. by eexists. Qed.

(** Running a bind, by the outcome of its first part. *)
Lemma bind_run {A B} (m : M A) (f : A → M B) w :
  (m ≫= f) w = match (m w).1 with
               | Ok a => f a (m w).2
               | Throw e => (Throw e, (m w).2)
               end.
Proof. unfold mbind, M_bind. by destruct (m w) as [[a | e] w']. Qed.

Lemma tryCatch_run {A} (m : M A) (h : string → M A) w :
  tryCatch m h w = match (m w).1 with
                   | Ok a => (Ok a, (m w).2)
                   | Throw e => h e (m w).2
                   end.
Proof. unfold tryCatch. by destruct (m w) as [[a | e] w']. Qed.

Lemma forEach_cons_run {A} (x : A) (xs : list A) (body : A → M unit) w :
  total (body x) →
  forEach (x :: xs) body w = forEach xs body (body x w).2.
Proof.
  intros Hx. simpl. rewrite bind_run. by destruct (Hx w) as [[] ->].
Qed.

(** What a loop appends to a log [f] of the world, seen through a view [g]
    of the appended part (a filter, or the identity), when every iteration
    appends a part that is known through it. *)
Lemma forEach_trace {A X Y} (f : World → list X) (g : list X → list Y)
    (F : A → list Y) (body : A → M unit) (xs : list A) :
  (∀ d1 d2, g (d1 ++ d2)%list = (g d1 ++ g d2)%list) → g [] = [] →
  (∀ x, total (body x)) →
  (∀ x, respects (keeps online) (body x)) →
  (∀ x w, online w = true →
     ∃ d, f (body x w).2 = (f w ++ d)%list ∧ g d = F x) →
  ∀ w, online w = true →
    ∃ d, f (forEach xs body w).2 = (f w ++ d)%list
         ∧ g d = concat (F <$> xs).
Proof.
  intros Hg Hnil Htot Honl Hbody. induction xs as [| x xs IH]; intros w Hw.
  - exists []. simpl. by rewrite app_nil_r.
  - rewrite forEach_cons_run by apply Htot.
    destruct (Hbody x w Hw) as (d1 & E1 & F1).
    destruct (IH (body x w).2) as (d2 & E2 & F2).
    { rewrite (Honl x w). exact Hw. }
    exists (d1 ++ d2)%list. rewrite E2, E1, app_assoc. split; [done |].
    rewrite Hg, F1, F2. done.
Qed.

Import Snapshot.

Section SnapshotSteps.
Context (up : Upstream) (prevByPuuid : gmap string PrevPlayer) (now : Z).

Lemma resolvePlayer_run p w :
  (resolvePlayer up p w).1 =
  match resolved up p with
  | Ok (acc, sum, rd) => Ok (acc, sum, rd, activeGame up (acc_puuid acc))
  | Throw e => Throw e
  end.
Proof.
  unfold resolvePlayer, resolved, mbind, M_bind, riotGet, riotGetOpt. simpl.
  destruct (account up (name p) (tag p)) as [acc | e]; simpl; [| done].
  destruct (summoner up (acc_puuid acc)) as [sum | e]; simpl; [| done].
  destruct (entries up (acc_puuid acc)) as [rd | e]; simpl; done.
Qed.

Lemma resolvePlayer_keeps_store p : respects (keeps store) (resolvePlayer up p).
Proof. unfold resolvePlayer. respects_all; done. Qed.

Lemma resolvePlayer_keeps_online p : respects (keeps online) (resolvePlayer up p).
Proof. unfold resolvePlayer. respects_all; done. Qed.

Lemma resolvePlayer_keeps_console p : respects (keeps console) (resolvePlayer up p).
Proof. unfold resolvePlayer. respects_all; done. Qed.

Lemma reconcile_total prev row : total (reconcile prev now row).
Proof.
  unfold reconcile. apply total_bind; [apply total_update | intros _].
  cbv zeta. case_match.
  - apply total_bind; [apply total_update | intros _; apply total_update].
  - apply total_ret.
Qed.

Lemma reconcile_keeps_online prev row : respects (keeps online) (reconcile prev now row).
Proof. unfold reconcile. respects_all; done. Qed.



Lemma fetchNewMatches_keeps_online prev row :
  respects (keeps online) (fetchNewMatches up prev now row).
Proof. unfold fetchNewMatches, storeNewMatches, storeMatch. respects_all; done. Qed.

Lemma syncPlayer_keeps_online p : respects (keeps online) (syncPlayer up prevByPuuid now p).
Proof.
  unfold syncPlayer. apply respects_bind; [apply _ | apply resolvePlayer_keeps_online |].
  intros [[[acc sum] rd] live]. apply respects_bind; [apply _ | apply reconcile_keeps_online |].
  intros _. apply fetchNewMatches_keeps_online.
Qed.

Lemma syncEntry_keeps_online p : respects (keeps online) (syncEntry up prevByPuuid now p).
Proof.
  unfold syncEntry. apply respects_tryCatch; [apply _ | apply syncPlayer_keeps_online |].
  intros e. respects_all. done.
Qed.

Lemma syncEntry_total p : total (syncEntry up prevByPuuid now p).
Proof. unfold syncEntry. apply total_tryCatch. intros e. apply total_update. Qed.

(** The world in which [syncPlayer] stops, by how far it got. *)
Lemma syncPlayer_world p w :
  (syncPlayer up prevByPuuid now p w).2 =
  let w1 := (resolvePlayer up p w).2 in
  match resolved up p with
  | Ok (acc, sum, rd) =>
      let prev := prevByPuuid !! acc_puuid acc in
      let row := rowFor up now acc sum rd in
      (fetchNewMatches up prev now row (reconcile prev now row w1).2).2
  | Throw _ => w1
  end.
Proof.
  unfold syncPlayer. rewrite bind_run, resolvePlayer_run.
  destruct (resolved up p) as [[[acc sum] rd] | e]; [| done].
  cbn beta iota zeta. fold (rowFor up now acc sum rd). rewrite bind_run.
  destruct (reconcile_total (prevByPuuid !! acc_puuid acc)
              (rowFor up now acc sum rd) (resolvePlayer up p w).2) as [[] ->].
  reflexivity.
Qed.

(** The [catch] of the loop body only writes to the console. *)
Lemma syncEntry_world {X} (f : World → X) p w :
  (∀ l w, f (addLog l w) = f w) →
  f (syncEntry up prevByPuuid now p w).2 = f (syncPlayer up prevByPuuid now p w).2.
Proof.
  intros Hf. unfold syncEntry. rewrite tryCatch_run.
  destruct (syncPlayer up prevByPuuid now p w).1; [done | apply Hf].
Qed.


Lemma reconcile_players prev row w :
  online w = true →
  players (store (reconcile prev now row w).2) = <[puuid row := row]> (players (store w)).
Proof.
  intros Hw. unfold reconcile. rewrite bind_run. unfold dbWrite at 1. simpl.
  rewrite Hw. simpl. case_match; simpl; [| done]. by rewrite Hw.
Qed.

Lemma fetchNewMatches_keeps_players prev row :
  respects (keeps (λ w, players (store w))) (fetchNewMatches up prev now row).
Proof. unfold fetchNewMatches, storeNewMatches, storeMatch. respects_all; done. Qed.

(** Once the three calls have resolved, the row of the player is replaced,
    whatever the match-list request answers. *)
Lemma syncEntry_row p acc sum rd w :
  online w = true →
  resolved up p = Ok (acc, sum, rd) →
  players (store (syncEntry up prevByPuuid now p w).2) =
  <[acc_puuid acc := rowFor up now acc sum rd]> (players (store w)).
Proof.
  intros Hw Hp. rewrite (syncEntry_world (λ w, players (store w))) by done.
  rewrite syncPlayer_world, Hp. cbv zeta.
  rewrite fetchNewMatches_keeps_players, reconcile_players.
  - by rewrite resolvePlayer_keeps_store.
  - by rewrite resolvePlayer_keeps_online.
Qed.

Lemma resolvePlayer_calls p :
  respects (appends calls (λ c, ¬ isMatchIdsCall c)) (resolvePlayer up p).
Proof.
  unfold resolvePlayer. respects_all.
  all: first [ exists []; split; [by rewrite app_nil_r | done]
             | eexists [_]; split; [reflexivity | apply Forall_singleton; by intros []] ].
Qed.

Lemma storeNewMatches_calls ids :
  respects (appends calls (λ c, ¬ isMatchIdsCall c)) (storeNewMatches up now ids).
Proof.
  unfold storeNewMatches, storeMatch. respects_all.
  all: first [ exists []; split; [by rewrite app_nil_r | done]
             | eexists [_]; split; [reflexivity | apply Forall_singleton; by intros []] ].
Qed.

Lemma knownMatchIds_stored ids id s :
  keyedByMatchId s → is_Some (matches s !! id) → id ∈ ids →
  id ∈ knownMatchIds ids s.
Proof.
  intros Hk [r Hr] Hid. unfold knownMatchIds. apply list_elem_of_fmap.
  exists r. split; [by rewrite (Hk _ _ Hr) |].
  apply list_elem_of_filter. split; [by rewrite (Hk _ _ Hr) |].
  apply list_elem_of_fmap. exists (id, r). split; [done |].
  by apply elem_of_map_to_list.
Qed.

(** The list of candidate ids is looked up in [matches] before the loop,
    and the loop requests no match that is stored at that time. *)
Lemma stored_match_not_refetched ids id w :
  online w = true → keyedByMatchId (store w) →
  is_Some (matches (store w) !! id) →
  ∃ d, calls (storeNewMatches up now ids w).2 = (calls w ++ d)%list
       ∧ MatchDetailCall id ∉ d.
Proof.
  intros Hw Hk Hid. unfold storeNewMatches. rewrite bind_run. simpl.
  rewrite Hw. simpl.
  set (body := λ matchId : string, _).
  assert (respects (appends calls (λ c, c ≠ MatchDetailCall id))
            (forEach ids body)) as Hloop.
  { apply respects_forEach_elem; [apply _ | apply _ |]. intros m Hm.
    unfold body, storeMatch. case_bool_decide as Hknown.
    - respects_all.
    - assert (m ≠ id) as Hne.
      { intros ->. apply Hknown. by apply knownMatchIds_stored. }
      respects_all.
      all: first [ exists []; split; [by rewrite app_nil_r | done]
                 | eexists [_]; split;
                   [reflexivity | apply Forall_singleton; congruence] ]. }
  destruct (Hloop w) as (d & E & F). exists d. split; [exact E |].
  intros Hin. rewrite Forall_forall in F. by apply (F _ Hin).
Qed.

Lemma reconcile_keeps_calls prev row : respects (keeps calls) (reconcile prev now row).
Proof. unfold reconcile. respects_all; done. Qed.

Lemma filter_none {X} (P : X → Prop) `{!∀ x, Decision (P x)} (l : list X) :
  Forall (λ x, ¬ P x) l → filter P l = [].
Proof.
  induction 1 as [| x l Hx _ IH]; [done |].
  by rewrite filter_cons_False.
Qed.

Lemma fetchNewMatches_calls prev row w :
  ∃ d, calls (fetchNewMatches up prev now row w).2 = (calls w ++ d)%list
       ∧ filter isMatchIdsCall d =
         if bool_decide (0 < gamesPlayed prev row)
         then [MatchIdsCall (puuid row)] else [].
Proof.
  unfold fetchNewMatches. cbv zeta. case_bool_decide as Hg.
  - apply Z.ltb_lt in Hg. rewrite Hg. rewrite bind_run. simpl.
    destruct (matchIds up (puuid row)) as [ids | e].
    + destruct (storeNewMatches_calls ids (addCall (MatchIdsCall (puuid row)) w))
        as (d & E & F).
      exists (MatchIdsCall (puuid row) :: d). rewrite E. simpl.
      rewrite <- app_assoc. split; [done |].
      rewrite filter_cons_True by done. by rewrite filter_none.
    + by exists [MatchIdsCall (puuid row)].
  - apply Z.ltb_nlt in Hg. rewrite Hg. exists []. simpl. by rewrite app_nil_r.
Qed.

Lemma syncEntry_calls p w :
  ∃ d, calls (syncEntry up prevByPuuid now p w).2 = (calls w ++ d)%list
       ∧ filter isMatchIdsCall d = matchIdsCallsOf up prevByPuuid now p.
Proof.
  rewrite syncEntry_world by done. rewrite syncPlayer_world.
  unfold matchIdsCallsOf. cbv zeta.
  destruct (resolvePlayer_calls p w) as (d1 & E1 & F1).
  destruct (resolved up p) as [[[acc sum] rd] | e].
  - set (prev := prevByPuuid !! acc_puuid acc).
    set (row := rowFor up now acc sum rd).
    destruct (fetchNewMatches_calls prev row
                (reconcile prev now row (resolvePlayer up p w).2).2)
      as (d2 & E2 & F2).
    exists (d1 ++ d2)%list. rewrite E2, reconcile_keeps_calls, E1, app_assoc.
    split; [done |]. rewrite filter_app, (filter_none _ d1 F1), F2. done.
  - exists d1. split; [done | by apply filter_none].
Qed.
End SnapshotSteps.

(** ** A whole cycle of the counter-delta variant *)

Section SnapshotCycle.
Context (up : Upstream) (now : Z).

Lemma readPlayersFromDB_keeps_store : respects (keeps store) readPlayersFromDB.
Proof. unfold readPlayersFromDB. respects_all; done. Qed.

Lemma readPlayersFromDB_keeps_calls : respects (keeps calls) readPlayersFromDB.
Proof. unfold readPlayersFromDB. respects_all; done. Qed.


Lemma syncAll_run roster w :
  online w = true →
  syncAll up now roster w =
  forEach roster (syncEntry up (prevOf <$> players (store w)) now)
    (setTracked (λ _, ∅) w).
Proof. intros Hw. unfold syncAll. rewrite bind_run. simpl. by rewrite Hw. Qed.

Lemma syncAll_total roster : total (syncAll up now roster).
Proof.
  unfold syncAll. apply total_bind; [apply total_dbRead | intros q].
  apply total_bind; [apply total_update | intros _].
  apply total_forEach. intros p. apply syncEntry_total.
Qed.

Lemma buildSnapshot_world {X} (f : World → X) roster w :
  respects (keeps f) readPlayersFromDB →
  f (buildSnapshot up now roster w).2 = f (syncAll up now roster w).2.
Proof.
  intros Hf. unfold buildSnapshot. rewrite bind_run.
  destruct (syncAll_total roster w) as [[] ->]. apply Hf.
Qed.



Lemma buildSnapshot_calls roster w :
  online w = true →
  ∃ d, calls (buildSnapshot up now roster w).2 = (calls w ++ d)%list
       ∧ filter isMatchIdsCall d =
         concat (matchIdsCallsOf up (prevOf <$> players (store w)) now <$> roster).
Proof.
  intros Hw. rewrite (buildSnapshot_world calls) by apply readPlayersFromDB_keeps_calls.
  rewrite syncAll_run by done.
  destruct (forEach_trace calls (filter isMatchIdsCall)
              (matchIdsCallsOf up (prevOf <$> players (store w)) now)
              (syncEntry up (prevOf <$> players (store w)) now) roster)
    with (w := setTracked (λ _, ∅) w) as (d & E & F); [| done | | | | done |].
  - intros d1 d2. apply filter_app.
  - intros p. apply syncEntry_total.
  - intros p. apply syncEntry_keeps_online.
  - intros p w' _. apply syncEntry_calls.
  - by exists d.
Qed.
End SnapshotCycle.

Section SnapshotClaims.
Context (up : Upstream) (now : Z).

Lemma soleEntryFor_cons u q others :
  soleEntryFor up u (q :: others) →
  (∀ acc sum rd, resolved up q = Ok (acc, sum, rd) → acc_puuid acc ≠ u)
  ∧ soleEntryFor up u others.
Proof.
  intros H. split.
  - intros acc sum rd. apply H. by left.
  - intros q' acc sum rd Hq. apply H. by right.
Qed.

Lemma soleEntryFor_app u l1 l2 :
  soleEntryFor up u (l1 ++ l2) → soleEntryFor up u l1 ∧ soleEntryFor up u l2.
Proof.
  intros H. split; intros q acc sum rd Hq; apply H; apply elem_of_app; auto.
Qed.


Lemma matchIds_of_others prev u others :
  soleEntryFor up u others →
  filter (λ c, c = MatchIdsCall u) (concat (matchIdsCallsOf up prev now <$> others)) = [].
Proof.
  induction others as [| q others IH]; intros Hsole; [done |].
  apply soleEntryFor_cons in Hsole as [Hq Hrest].
  rewrite fmap_cons, concat_cons, filter_app, IH, app_nil_r by done.
  unfold matchIdsCallsOf. destruct (resolved up q) as [[[acc sum] rd] | e]; [| done].
  cbv zeta. case_bool_decide; [| done].
  rewrite filter_cons_False; [done |]. intros [= E]. by eapply Hq.
Qed.




(** C4.  In a cycle over a store that answers, take a player that exactly
    one roster entry resolves to.  Of the requests the cycle issues, those
    for the match-id list of that player are exactly one if the new wins
    plus losses exceed those of the persisted row, and none if they do not;
    and none if there is no persisted row. *)
Theorem fetch_plan_minimal before after p acc sum rd w :
  online w = true →
  resolved up p = Ok (acc, sum, rd) →
  soleEntryFor up (acc_puuid acc) (before ++ after) →
  let row := rowFor up now acc sum rd in
  ∃ issued,
    calls (buildSnapshot up now (before ++ p :: after) w).2 = (calls w ++ issued)%list
    ∧ filter (λ c, c = MatchIdsCall (acc_puuid acc)) issued =
      match players (store w) !! acc_puuid acc with
      | Some prev =>
          if bool_decide (wins prev + losses prev < wins row + losses row)
          then [MatchIdsCall (acc_puuid acc)] else []
      | None => []
      end.
Proof.
  intros Hw Hp Hsole row. apply soleEntryFor_app in Hsole as [Hb Ha].
  destruct (buildSnapshot_calls up now (before ++ p :: after) w Hw) as (d & E & F).
  exists d. split; [exact E |].
  assert (filter (λ c, c = MatchIdsCall (acc_puuid acc)) d
          = filter (λ c, c = MatchIdsCall (acc_puuid acc)) (filter isMatchIdsCall d)) as ->.
  { rewrite list_filter_filter. apply list_filter_iff. intros c. split; [| tauto].
    intros ->. done. }
  rewrite F, fmap_app, concat_app, filter_app, fmap_cons, concat_cons, filter_app.
  rewrite !matchIds_of_others, app_nil_r by done. simpl.
  unfold matchIdsCallsOf. rewrite Hp. cbv zeta. fold row.
  rewrite lookup_fmap. unfold gamesPlayed.
  destruct (players (store w) !! acc_puuid acc) as [prev |]; simpl.
  - case_bool_decide; case_bool_decide; try lia; [| done].
    by rewrite filter_cons_True.
  - rewrite bool_decide_eq_false_2 by lia. done.
Qed.
End SnapshotClaims.

(** ** The build coordinator *)

Section Coordinator.
Context (build : M (list PlayerView)) (now : Z).

Lemma readPlayersFromDB_keeps_building : respects (keeps building) readPlayersFromDB.
Proof. unfold readPlayersFromDB. respects_all; done. Qed.

Lemma serveFresh_keeps_building : respects (keeps building) (serveFresh now).
Proof.
  unfold serveFresh. respects_all; try done.
  all: apply readPlayersFromDB_keeps_building.
Qed.

Lemma runLocked_releases w : building (runLocked build now w).2 = false.
Proof.
  unfold runLocked. rewrite bind_run. simpl. unfold tryFinally.
  by destruct (tryCatch _ _ _) as [r w'].
Qed.

(** What [readPlayersFromDB] returns. *)
Lemma readPlayersFromDB_run w :
  (readPlayersFromDB w).1 =
  Ok (if online w
      then let rows := playerRows (store w) in
           playerView (groupRecent (recentPlayerMatches (puuid <$> rows) (store w)))
             <$> rows
      else []).
Proof.
  unfold readPlayersFromDB. rewrite bind_run. simpl.
  destruct (online w) eqn:Hw; simpl; [| done].
  by rewrite Hw.
Qed.




(** C9.  Whatever the cycle does, return or throw, the locked branch ends
    with the lock released; and a trigger that finds the lock free leaves
    it free on every path through [handler]. *)
Theorem lock_released w :
  building (runLocked build now w).2 = false
  ∧ (building w = false →
     ∀ env req, building (handlerWith build env now req w).2 = false).
Proof.
  split; [apply runLocked_releases |].
  intros Hw env req. unfold handlerWith.
  destruct (bool_decide (method req = "OPTIONS")); [done |].
  destruct (negb (truthy (RIOT_API_KEY env))); [done |].
  destruct (negb (truthy (SUPABASE_URL env))
            || negb (truthy (SUPABASE_SERVICE_KEY env))); [done |].
  set (gate := if force req then mret None else serveFresh now).
  assert (building (gate w).2 = false) as Hgate.
  { unfold gate. destruct (force req); [done |].
    by rewrite serveFresh_keeps_building. }
  rewrite bind_run.
  destruct (gate w) as [[fresh | e'] w1]; simpl in *; [| done].
  destruct fresh as [r |]; [done |].
  rewrite bind_run. simpl. rewrite Hgate. apply runLocked_releases.
Qed.
End Coordinator.

(** ** The milestone variant *)

Section MilestoneSteps.
Import Milestones.
Context (up : Upstream) (prevScores : gmap string Z) (now : Z).






End MilestoneSteps.

Section MilestoneEvents.
Import Milestones.
Context (now : Z).

Lemma dbWrite_milestone row w :
  online w = true →
  dbWrite (insertMilestone row) w = (Ok tt, setStore (insertMilestone row) w).
Proof. intros Hw. unfold dbWrite, update. by rewrite Hw. Qed.


Lemma forEach_emits {A X} (f : World → list X) (F : A → list X)
    (body : A → M unit) (xs : list A) :
  (∀ x, total (body x)) →
  (∀ x, respects (keeps online) (body x)) →
  (∀ x w, online w = true → f (body x w).2 = (f w ++ F x)%list) →
  ∀ w, online w = true →
    f (forEach xs body w).2 = (f w ++ concat (F <$> xs))%list.
Proof.
  intros Htot Honl Hbody w Hw.
  destruct (forEach_trace f id F body xs) with (w := w) as (d & E & Fd);
    try done.
  - intros x w' Hw'. eexists. split; [by apply Hbody | done].
  - rewrite E. by rewrite <- Fd.
Qed.

Lemma surpasses_overtakes prevScores newScores a b :
  surpasses prevScores newScores a b = overtakes positive prevScores newScores a b.
Proof.
  unfold surpasses, overtakes, positive. do 2 f_equal.
  apply bool_decide_ext. lia.
Qed.

(** The cross-entity pass emits the events of [surpassedEvents] under the
    test [score > 0], over the rows of [players] as it finds them. *)
Lemma detectSurpassed_events prevScores w :
  online w = true →
  let rows := playerRows (store w) in
  ms (detectSurpassedMilestones now prevScores w).2 =
  (ms w ++ surpassedEvents positive now prevScores (scoresOf rows)
             (puuid <$> rows))%list.
Proof.
  intros Hw rows. unfold detectSurpassedMilestones. rewrite bind_run. simpl.
  rewrite Hw. simpl. fold rows. unfold surpassedEvents.
  apply (forEach_emits ms); [| | | done].
  - intros a. apply total_forEach. intros b.
    repeat case_match; first [apply total_ret | apply total_update].
  - intros a. respects_all; done.
  - intros a w1 Hw1. apply (forEach_emits ms); [| | | done].
    + intros b. repeat case_match; first [apply total_ret | apply total_update].
    + intros b. respects_all; done.
    + intros b w2 Hw2. rewrite <- surpasses_overtakes.
      case_bool_decide; [simpl; by rewrite app_nil_r |].
      destruct (surpasses prevScores (scoresOf rows) a b).
      * by rewrite dbWrite_milestone.
      * simpl. by rewrite app_nil_r.
Qed.

Lemma filter_concat_fmap {A X} (P : X → Prop) `{!∀ x, Decision (P x)}
    (G : A → list X) (l : list A) :
  filter P (concat (G <$> l)) = concat ((λ y, filter P (G y)) <$> l).
Proof.
  induction l as [| y l IH]; [done |].
  by rewrite !fmap_cons, !concat_cons, filter_app, IH.
Qed.

Lemma concat_fmap_sole {A X} (G : A → list X) (l : list A) (x : A) :
  NoDup l → x ∈ l → (∀ y, y ≠ x → G y = []) → concat (G <$> l) = G x.
Proof.
  intros Hnd Hx Hothers.
  assert (∀ k, x ∉ k → concat (G <$> k) = []) as Hnone.
  { induction k as [| y k IH]; intros Hk; [done |].
    apply not_elem_of_cons in Hk as [Hy Hk].
    rewrite fmap_cons, concat_cons, IH, Hothers by done. done. }
  induction Hnd as [| y l Hy Hnd IH]; [by apply elem_of_nil in Hx |].
  rewrite fmap_cons, concat_cons.
  apply elem_of_cons in Hx as [-> | Hx].
  - rewrite Hnone by done. by rewrite app_nil_r.
  - rewrite IH by done. rewrite Hothers; [done |]. by intros ->.
Qed.

(** Among the events of the cross-entity pass, those of one ordered
    pair. *)
Lemma surpassedEvents_pair ranked prevScores newScores puuids a b :
  NoDup puuids → a ∈ puuids → b ∈ puuids → a ≠ b →
  filter (λ m, ms_actor_puuid m = a ∧ ms_target_puuid m = Some b)
    (surpassedEvents ranked now prevScores newScores puuids) =
  if overtakes ranked prevScores newScores a b
  then [surpassedMilestone a b (default (-1) (newScores !! a))
          (default (-1) (newScores !! b)) now]
  else [].
Proof.
  intros Hnd Ha Hb Hab. unfold surpassedEvents.
  rewrite filter_concat_fmap.
  rewrite (concat_fmap_sole _ puuids a Hnd Ha).
  - rewrite filter_concat_fmap.
    rewrite (concat_fmap_sole _ puuids b Hnd Hb).
    + rewrite bool_decide_eq_false_2 by done.
      destruct (overtakes ranked prevScores newScores a b); [| done].
      by rewrite filter_cons_True.
    + intros b' Hb'. case_bool_decide; [done |].
      destruct (overtakes ranked prevScores newScores a b'); [| done].
      rewrite filter_cons_False; [done |]. simpl. intros [_ [= E]]. done.
  - intros a' Ha'. rewrite filter_concat_fmap.
    assert (∀ k : list string,
              concat ((λ y, filter (λ m, ms_actor_puuid m = a ∧ ms_target_puuid m = Some b)
                 (if bool_decide (a' = y) then []
                  else if overtakes ranked prevScores newScores a' y
                  then [surpassedMilestone a' y (default (-1) (newScores !! a'))
                          (default (-1) (newScores !! y)) now]
                  else [])) <$> k) = []) as Hnone.
    { induction k as [| y k IH]; [done |].
      rewrite fmap_cons, concat_cons, IH, app_nil_r.
      case_bool_decide; [done |].
      destruct (overtakes ranked prevScores newScores a' y); [| done].
      rewrite filter_cons_False; [done |]. simpl. intros [E _]. done. }
    apply Hnone.
Qed.

Lemma scoresOf_foldl_lookup (rows : list PlayerRow) (acc : gmap string Z) u :
  NoDup (puuid <$> rows) →
  foldl (λ (obj : gmap string Z) p, <[puuid p := scoreOfRow p]> obj) acc rows !! u =
  match List.find (λ p, bool_decide (puuid p = u)) rows with
  | Some p => Some (scoreOfRow p)
  | None => acc !! u
  end.
Proof.
  revert acc. induction rows as [| p rows IH]; intros acc Hnd; [done |].
  rewrite fmap_cons in Hnd. apply NoDup_cons in Hnd as [Hp Hnd].
  simpl. rewrite IH by done. case_bool_decide as Hu.
  - subst u. destruct (List.find _ rows) as [p' |] eqn:Hfind.
    + apply find_some in Hfind as [Hin Heq]. apply bool_decide_eq_true in Heq.
      exfalso. apply Hp. rewrite <- Heq. apply list_elem_of_fmap.
      exists p'. split; [done |]. by apply list_elem_of_In.
    + by rewrite lookup_insert_eq.
  - destruct (List.find _ rows); [done |]. by rewrite lookup_insert_ne.
Qed.

Lemma playerRows_keys s :
  keyedByPuuid s → puuid <$> playerRows s = (map_to_list (players s)).*1.
Proof.
  intros Hk. unfold playerRows. rewrite <- list_fmap_compose.
  apply list_fmap_ext. intros i [k r] Hi. simpl. apply Hk.
  apply elem_of_map_to_list. by eapply list_elem_of_lookup_2.
Qed.

Lemma scoresOf_lookup s u :
  keyedByPuuid s →
  scoresOf (playerRows s) !! u = scoreOfRow <$> players s !! u.
Proof.
  intros Hk. unfold scoresOf. rewrite scoresOf_foldl_lookup.
  2: { rewrite playerRows_keys by done. apply NoDup_fst_map_to_list. }
  destruct (List.find _ (playerRows s)) as [p |] eqn:Hfind.
  - apply find_some in Hfind as [Hin Heq]. apply bool_decide_eq_true in Heq.
    apply list_elem_of_In in Hin. unfold playerRows in Hin.
    apply list_elem_of_fmap in Hin as ([k r] & -> & Hin).
    apply elem_of_map_to_list in Hin. simpl in *.
    rewrite (Hk _ _ Hin) in Heq. subst k. by rewrite Hin.
  - destruct (players s !! u) as [r |] eqn:Hr; [| done].
    exfalso. apply elem_of_map_to_list in Hr.
    assert (r ∈ playerRows s) as Hin.
    { unfold playerRows. apply list_elem_of_fmap. by exists (u, r). }
    apply list_elem_of_In in Hin.
    eapply (find_none _ _ Hfind) in Hin. apply bool_decide_eq_false in Hin.
    apply Hin. apply Hk. by apply elem_of_map_to_list.
Qed.

(** For two distinct persisted players [a] and [b], the cross-entity pass
    appends [surpassed(a, b)] once if [a] was not above [b] before, is
    above [b] now, and now scores more than [0]; and not at all
    otherwise.  A player without a score before the cycle counts as
    [-1]. *)
Lemma detectSurpassed_pair prevScores w a b ra rb :
  online w = true → keyedByPuuid (store w) →
  players (store w) !! a = Some ra → players (store w) !! b = Some rb →
  a ≠ b →
  ∃ appended,
    ms (detectSurpassedMilestones now prevScores w).2 = (ms w ++ appended)%list
    ∧ filter (λ m, ms_actor_puuid m = a ∧ ms_target_puuid m = Some b) appended =
      if bool_decide (default (-1) (prevScores !! a) ≤ default (-1) (prevScores !! b))
         && bool_decide (scoreOfRow rb < scoreOfRow ra)
         && bool_decide (scoreOfRow ra > 0)
      then [surpassedMilestone a b (scoreOfRow ra) (scoreOfRow rb) now]
      else [].
Proof.
  intros Hw Hk Ha Hb Hab. eexists. split; [by apply detectSurpassed_events |].
  rewrite surpassedEvents_pair; [| | | | done].
  - unfold overtakes, positive. rewrite !scoresOf_lookup, Ha, Hb by done. done.
  - rewrite playerRows_keys by done. apply NoDup_fst_map_to_list.
  - rewrite playerRows_keys by done. apply list_elem_of_fmap.
    exists (a, ra). split; [done |]. by apply elem_of_map_to_list.
  - rewrite playerRows_keys by done. apply list_elem_of_fmap.
    exists (b, rb). split; [done |]. by apply elem_of_map_to_list.
Qed.
End MilestoneEvents.

Section Failure.
Context (up : Upstream) (now : Z).

Lemma resolvePlayer_keeps_results p : respects (keeps results) (Snapshot.resolvePlayer up p).
Proof. unfold Snapshot.resolvePlayer. respects_all; done. Qed.

Lemma syncEntry_failure prev p e w :
  resolved up p = Throw e →
  let w' := (Snapshot.syncEntry up prev now p w).2 in
  store w' = store w
  ∧ console w' = (console w ++ [WarnPlayer (name p) (tag p) e])%list
  ∧ results w' = results w.
Proof.
  intros Hp. unfold Snapshot.syncEntry. rewrite tryCatch_run. unfold Snapshot.syncPlayer.
  rewrite bind_run, resolvePlayer_run, Hp. simpl.
  rewrite resolvePlayer_keeps_store, resolvePlayer_keeps_console,
    resolvePlayer_keeps_results. done.
Qed.

End Failure.

(** ** Concrete runs *)

Section Runs.
Import Demo.

(** C2.  Players A and B both played the match [M1], both have played a
    new game since their rows were written, and [M1] is not stored.  The
    cycle of [src/api/snapshot.js] fetches [M1] once and stores it, and
    both puuids end up in [trackedPuuids]; but the only row of
    [player_matches] is that of A, the entry processed first. *)
Theorem shared_match_row_missing :
  let w' := (Snapshot.buildSnapshot upstream now [entryA; entryB] rankedWorld).2 in
  puuidA ∈ part_puuid <$> participants sharedMatch
  ∧ puuidB ∈ part_puuid <$> participants sharedMatch
  ∧ trackedPuuids w' = {[puuidA; puuidB]}
  ∧ filter (λ c, c = MatchDetailCall "M1") (calls w') = [MatchDetailCall "M1"]
  ∧ is_Some (matches (store w') !! "M1")
  ∧ is_Some (player_matches (store w') !! (puuidA, "M1"))
  ∧ player_matches (store w') !! (puuidB, "M1") = None
  ∧ size (player_matches (store w')) = 1%nat.
Proof.
  split; [apply list_elem_of_In; simpl; tauto |].
  split; [apply list_elem_of_In; simpl; tauto |].
  split; [by vm_compute |].
  split; [by vm_compute |].
  split; [vm_compute; eauto |].
  split; [vm_compute; eauto |].
  split; by vm_compute.
Qed.

(** C5.  A player persisted as unranked (score [-1]) who is placed in
    Iron IV with 0 LP (score [0]) rises from bucket [-1] to bucket [0] and
    is ranked, and the way back falls from a ranked score: the events as
    the specification words them are one promotion and one demotion.
    [detectMilestones] writes nothing in either case. *)
Theorem tier_change_at_score_zero_missed :
  let unranked := rankScore None None 0 in
  let ironIV := Milestones.scoreOfRow (ironRow puuidA) in
  validTier "IRON"
  ∧ unranked = -1 ∧ ironIV = 0
  ∧ unranked / 10000 < ironIV / 10000
  ∧ Milestones.tierEvents Milestones.nonNegative now puuidA (Some unranked)
      ironIV (ironRow puuidA)
    = [Milestones.tierMilestone promoted puuidA unranked (ironRow puuidA) now]
  ∧ Milestones.tierEvents Milestones.nonNegative now puuidA (Some ironIV)
      unranked (unrankedRow puuidA)
    = [Milestones.tierMilestone demoted puuidA ironIV (unrankedRow puuidA) now]
  ∧ (∀ w, Milestones.detectMilestones now puuidA (Some unranked) ironIV
            (ironRow puuidA) w = (Ok tt, w))
  ∧ (∀ w, Milestones.detectMilestones now puuidA (Some ironIV) unranked
            (unrankedRow puuidA) w = (Ok tt, w)).
Proof.
  split; [by exists 0 |].
  do 5 (split; [reflexivity |]).
  split; intros w; reflexivity.
Qed.

(** C6.  Players A and B are persisted as unranked; in the cycle A is
    placed in Iron IV with 0 LP and B stays unranked.  Before, A's score
    [-1] is not above B's [-1]; after, A's score [0] is above B's [-1] and
    is a ranked score: the events as the specification words them hold one
    [surpassed(A, B)].  The cycle of the milestone variant writes no
    milestone at all. *)
Theorem overtake_at_score_zero_missed :
  let w := unrankedWorld in
  let w' := (Milestones.buildSnapshot upstreamIron now [entryA; entryB] w).2 in
  let pre := Milestones.scoreOfRow <$> players (store w) in
  let post := Milestones.scoreOfRow <$> players (store w') in
  pre !! puuidA = Some (-1) ∧ pre !! puuidB = Some (-1)
  ∧ post !! puuidA = Some 0 ∧ post !! puuidB = Some (-1)
  ∧ (tier <$> players (store w') !! puuidA) = Some (Some "IRON")
  ∧ filter (λ m, ms_actor_puuid m = puuidA ∧ ms_target_puuid m = Some puuidB)
      (Milestones.surpassedEvents Milestones.nonNegative now pre post
         [puuidA; puuidB])
    = [Milestones.surpassedMilestone puuidA puuidB 0 (-1) now]
  ∧ milestones (store w') = [].
Proof. repeat split; by vm_compute. Qed.

(** The examples of the specification: Gold II to Gold I is no event,
    Gold I to Platinum IV is one promotion. *)
Example gold_ii_to_gold_i_then_platinum :
  let row t r points :=
    mkPlayerRow puuidA "a" "EUW" 1 30 (Some t) (Some r) points 11 10 false now in
  let goldII := rankScore (Some "GOLD") (Some "II") 80 in
  let goldI := rankScore (Some "GOLD") (Some "I") 10 in
  let platIV := rankScore (Some "PLATINUM") (Some "IV") 0 in
  milestones
    (store (Milestones.detectMilestones now puuidA (Some goldII) goldI
              (row "GOLD" "I" 10) rankedWorld).2) = []
  ∧ milestones
      (store (Milestones.detectMilestones now puuidA (Some goldI) platIV
                (row "PLATINUM" "IV" 0) rankedWorld).2)
    = [mkMilestoneRow promoted puuidA None
         (TierChange "GOLD I" "PLATINUM IV") now].
Proof. split; by vm_compute. Qed.

(** The example of the specification: A goes from 100 to 200 while B
    stays at 150. *)
Example a_overtakes_b :
  let row u points :=
    mkPlayerRow u "x" "EUW" 1 30 (Some "IRON") (Some "IV") points 0 0 false 0 in
  let w := worldOf (storeOf [row puuidA 200; row puuidB 150]) true in
  let pre : gmap string Z := {[puuidA := 100; puuidB := 150]} in
  milestones (store (Milestones.detectSurpassedMilestones now pre w).2)
  = [Milestones.surpassedMilestone puuidA puuidB 200 150 now].
Proof. by vm_compute. Qed.



End Runs.

(** ** The theorems at work on the small roster *)

Section Witnesses.
Import Demo.

Lemma entryB_elsewhere : soleEntryFor upstream puuidA ([] ++ [entryB]).
Proof.
  intros q acc sum rd Hq Hr. apply list_elem_of_singleton in Hq. subst q.
  vm_compute in Hr. injection Hr as <- _ _. discriminate.
Defined.



Lemma fetch_plan_minimal_witness :
  ∃ issued,
    calls (buildSnapshot upstream now ([] ++ entryA :: [entryB]) rankedWorld).2
    = (calls rankedWorld ++ issued)%list
    ∧ filter (λ c, c = MatchIdsCall puuidA) issued = [MatchIdsCall puuidA].
Proof.
  destruct (fetch_plan_minimal upstream now [] [entryB] entryA accountA profile
              [solo "GOLD" "II" 40 11 10] rankedWorld)
    as (issued & E & F).
  - reflexivity.
  - reflexivity.
  - exact entryB_elsewhere.
  - exists issued. split; [exact E | exact F].
Defined.



Lemma lock_released_witness :
  building
    (handlerWith failingBuild
       (mkEnv (Some "key") (Some "url") (Some "service-key")) now
       (mkRequest "GET" true) rankedWorld).2 = false.
Proof.
  destruct (lock_released failingBuild now rankedWorld) as [_ H].
  apply H. reflexivity.
Defined.
End Witnesses.

(** * Further properties *)

(** ** Scores and their labels *)

Section Labels.

Lemma keyOf_entry (es : list (string * Z)) (k : string) (v : Z) :
  NoDup es.*2 → (k, v) ∈ es → keyOf es v = Some k.
Proof.
  unfold keyOf. induction es as [| [k' v'] es IH]; intros Hnd Hin.
  - by apply elem_of_nil in Hin.
  - rewrite fmap_cons in Hnd. apply NoDup_cons in Hnd as [Hv' Hnd].
    simpl. case_bool_decide as Hv; simpl in *.
    + apply elem_of_cons in Hin as [[= -> ->] | Hin]; [done |].
      exfalso. apply Hv'. subst v'. apply list_elem_of_fmap. by exists (k, v).
    + apply elem_of_cons in Hin as [[= -> ->] | Hin]; [done |]. by apply IH.
Qed.

Lemma keyOf_TIER_ORDER (t : string) (v : Z) :
  TIER_ORDER !! t = Some v → keyOf TIER_ORDER_entries v = Some t.
Proof.
  intros H. apply keyOf_entry.
  - apply (bool_decide_unpack _). by vm_compute.
  - by apply elem_of_list_to_map_2.
Qed.

Lemma keyOf_RANK_ORDER (d : string) (v : Z) :
  RANK_ORDER !! d = Some v → keyOf RANK_ORDER_entries v = Some d.
Proof.
  intros H. apply keyOf_entry.
  - apply (bool_decide_unpack _). by vm_compute.
  - by apply elem_of_list_to_map_2.
Qed.

Lemma RANK_ORDER_key_nonempty (d : string) (v : Z) :
  RANK_ORDER !! d = Some v → d ≠ "".
Proof. intros H ->. vm_compute in H. discriminate. Qed.

(** X1.  [getTierName] reads a score back: for a tier and a division of
    the two tables and points in [0, 1000), the label of the score is the
    tier name, a blank and the division name. *)
Theorem getTierName_rankScore (t d : string) (lp : Z) :
  validTier t → is_Some (RANK_ORDER !! d) → 0 ≤ lp < 1000 →
  getTierName (rankScore (Some t) (Some d) lp) = t +:+ " " +:+ d.
Proof.
  intros [T HT] [D HD] Hlp.
  destruct (rankScore_ranked t (Some d) lp (ex_intro _ T HT)) as [-> _].
  assert (tierIndex t = T) as -> by (unfold tierIndex; by rewrite HT).
  assert (rankIndex (Some d) = D) as -> by (unfold rankIndex; simpl; by rewrite HD).
  pose proof (TIER_ORDER_range _ _ HT) as HTr.
  assert (0 ≤ D ≤ 3) as HDr.
  { revert HD. apply entries_range. unfold RANK_ORDER_entries.
    repeat constructor; simpl; lia. }
  unfold getTierName. rewrite bool_decide_eq_false_2 by lia.
  assert ((T * 10000 + D * 1000 + lp) / 10000 = T) as ->.
  { symmetry. apply (Z.div_unique _ _ _ (D * 1000 + lp)); lia. }
  assert ((T * 10000 + D * 1000 + lp) `mod` 10000 = D * 1000 + lp) as ->.
  { symmetry. apply (Z.mod_unique _ _ T); lia. }
  assert ((D * 1000 + lp) / 1000 = D) as ->.
  { symmetry. apply (Z.div_unique _ _ _ lp); lia. }
  rewrite (keyOf_TIER_ORDER _ _ HT), (keyOf_RANK_ORDER _ _ HD). simpl.
  rewrite bool_decide_eq_false_2; [done |]. by eapply RANK_ORDER_key_nonempty.
Qed.

Lemma getTierName_rankScore_witness :
  getTierName (rankScore (Some "EMERALD") (Some "III") 57) = "EMERALD III".
Proof.
  apply (getTierName_rankScore "EMERALD" "III" 57).
  - by exists 5.
  - by exists 1.
  - lia.
Defined.

(** X2.  A tier name that is not in the table, and not one of the names
    a plain object inherits, counts as [-1] in the weighted sum: with a
    division that is [null] or in its table and points below [7000] the
    score is at most that of an unranked player, and its label is
    "Unranked". *)
Theorem unknown_tier_is_unranked (t : string) (r : option string) (lp : Z) :
  TIER_ORDER !! t = None → t ∉ inheritedNames → validRank r →
  0 ≤ lp < 7000 →
  rankScore (Some t) r lp ≤ rankScore None r lp
  ∧ getTierName (rankScore (Some t) r lp) = "Unranked".
Proof.
  intros Ht _ _ Hlp. pose proof (rankIndex_range r) as Hr.
  assert (rankScore (Some t) r lp ≤ -1) as Hs.
  { unfold rankScore, truthy, tierIndex. case_bool_decide; simpl; [lia |].
    rewrite Ht. simpl. lia. }
  split; [done |]. unfold getTierName. by rewrite bool_decide_eq_true_2 by lia.
Qed.

Lemma unknown_tier_is_unranked_witness :
  getTierName (rankScore (Some "WOOD") (Some "I") 50) = "Unranked".
Proof.
  refine (proj2 (unknown_tier_is_unranked "WOOD" (Some "I") 50 _ _ _ _)).
  - reflexivity.
  - apply (bool_decide_unpack _). by vm_compute.
  - by exists 3.
  - lia.
Defined.

End Labels.

(** ** The handler *)

Section HandlerPaths.
Import Notions.
Context (build : M (list PlayerView)) (env : Env) (now : Z) (req : Request).

Lemma readPlayersFromDB_reads w : readPlayersFromDB w = (Ok (storedViews w), w).
Proof.
  pose proof (readPlayersFromDB_run w) as Hv.
  assert (respects (keeps (λ w, w)) readPlayersFromDB) as Hw.
  { unfold readPlayersFromDB. respects_all; done. }
  specialize (Hw w). unfold keeps in Hw.
  destruct (readPlayersFromDB w) as [r w']. simpl in *. by subst.
Qed.

Lemma serveFresh_run w :
  serveFresh now w =
  (Ok (match newestRow w with
       | Some t =>
           if now - t <? FRESH_MS
           then Some (Json 200 (SnapshotBody (storedViews w) t true false))
           else None
       | None => None
       end), w).
Proof.
  unfold serveFresh, newestRow. rewrite bind_run. simpl.
  destruct (online w); simpl; [| done].
  destruct (latestUpdatedAt (store w)) as [t |]; simpl; [| done].
  destruct (now - t <? FRESH_MS); [| done].
  rewrite bind_run, readPlayersFromDB_reads. done.
Qed.

Lemma handlerWith_configured w :
  method req ≠ "OPTIONS" → configured env →
  handlerWith build env now req w =
  ((fresh ← (if force req then mret None else serveFresh now);
    match fresh with
    | Some r => mret r
    | None =>
        w ← get;
        if building w
        then players ← readPlayersFromDB;
             mret (Json 200 (SnapshotBody players now true false))
        else runLocked build now
    end) : M Response) w.
Proof.
  intros Hm (Hk & Hu & Hs). unfold handlerWith.
  rewrite bool_decide_eq_false_2 by done. by rewrite Hk, Hu, Hs.
Qed.

Lemma gate_passes w :
  force req = true ∨ ¬ isFresh now w →
  (if force req then mret None else serveFresh now) w = (Ok None, w).
Proof.
  intros [-> | Hstale]; [done |]. destruct (force req); [done |].
  rewrite serveFresh_run. unfold isFresh in Hstale.
  destruct (newestRow w) as [t |]; [| done].
  destruct (now - t <? FRESH_MS) eqn:Hage; [| done].
  exfalso. apply Hstale. exists t. split; [done | by apply Z.ltb_lt].
Qed.



End HandlerPaths.

Section HandlerRefresh.
Import Notions.
Context (up : Upstream) (roster : list RosterEntry) (env : Env) (now : Z)
  (req : Request).

Lemma buildSnapshot_run w :
  buildSnapshot up now roster w =
  (Ok (storedViews (syncAll up now roster w).2), (syncAll up now roster w).2).
Proof.
  unfold buildSnapshot. rewrite bind_run.
  destruct (syncAll_total up now roster w) as [[] ->].
  apply readPlayersFromDB_reads.
Qed.

Lemma runLocked_ok (build : M (list PlayerView)) w views w2 :
  build (addLog LogStart (setBuilding true w)) = (Ok views, w2) →
  runLocked build now w =
  (Ok (Json 200 (SnapshotBody views now false false)), setBuilding false w2).
Proof.
  intros Hb. unfold runLocked. rewrite bind_run. simpl. unfold tryFinally.
  rewrite tryCatch_run, bind_run. simpl. rewrite bind_run, Hb. done.
Qed.

(** A request that passes the method and freshness checks with the lock free runs the cycle. *)
Lemma handler_refresh_run w :
  method req ≠ "OPTIONS" → configured env →
  force req = true ∨ ¬ isFresh now w →
  building w = false →
  let w2 := (syncAll up now roster (addLog LogStart (setBuilding true w))).2 in
  handler up roster env now req w =
  (Ok (Json 200 (SnapshotBody (storedViews w2) now false false)),
   setBuilding false w2).
Proof.
  intros Hm Hc Hgate Hb. cbv zeta. unfold handler.
  rewrite handlerWith_configured by done.
  rewrite bind_run, gate_passes by done. simpl.
  rewrite bind_run. simpl. rewrite Hb.
  rewrite (runLocked_ok _ _ _ _ (buildSnapshot_run _)). done.
Qed.


End HandlerRefresh.

(** ** What a cycle keeps *)

Section Keeps.
Import Notions.

#[global] Instance storeGrows_refl : Reflexive storeGrows.
Proof. intros w. unfold storeGrows, grows. done. Qed.

#[global] Instance storeGrows_trans : Transitive storeGrows.
Proof.
  intros w1 w2 w3 (P1 & M1 & Q1 & H1 & L1) (P2 & M2 & Q2 & H2 & L2).
  unfold storeGrows, grows. repeat split; try set_solver; by etrans.
Qed.

Ltac solve_grows :=
  unfold storeGrows, grows; simpl; repeat split;
  first [ done | by apply prefix_app_r | rewrite dom_insert_L; set_solver ].

Lemma readPlayersFromDB_grows : respects storeGrows readPlayersFromDB.
Proof. unfold readPlayersFromDB. respects_all; solve_grows. Qed.

Lemma buildSnapshot_grows up now roster :
  respects storeGrows (buildSnapshot up now roster).
Proof.
  unfold buildSnapshot, syncAll, syncEntry, syncPlayer, resolvePlayer,
    reconcile, fetchNewMatches, storeNewMatches, storeMatch.
  apply respects_bind; [apply _ | | intros _; apply readPlayersFromDB_grows].
  respects_all; solve_grows.
Qed.

Lemma m_buildSnapshot_grows up now roster :
  respects storeGrows (Milestones.buildSnapshot up now roster).
Proof.
  unfold Milestones.buildSnapshot, Milestones.syncEntry, Milestones.syncPlayer,
    Milestones.resolvePlayer, Milestones.reconcile, Milestones.detectMilestones,
    Milestones.detectSurpassedMilestones, Milestones.storeNewMatches,
    Milestones.storeMatch.
  respects_all; try solve_grows. all: apply readPlayersFromDB_grows.
Qed.

Lemma handlerWith_respects (R : relation World) `{!Reflexive R} `{!Transitive R}
    build env now req :
  respects R build → respects R readPlayersFromDB →
  (∀ l w, R w (addLog l w)) → (∀ b w, R w (setBuilding b w)) →
  respects R (handlerWith build env now req).
Proof.
  intros Hbuild Hread Hlog Hlock. unfold handlerWith, serveFresh, runLocked.
  respects_all; try done.
  all: first [apply Hbuild | apply Hread | apply Hlog | apply Hlock].
Qed.

(** X6.  Nothing is ever deleted: whatever the request and the upstream, a
    call of [handler], and a cycle of the milestone variant, leave every
    key of [players], [matches] and [player_matches] in place and only
    append to [rank_history] and [milestones]. *)
Theorem nothing_is_deleted up roster env now req w :
  grows (store w) (store (handler up roster env now req w).2)
  ∧ grows (store w) (store (Milestones.buildSnapshot up now roster w).2).
Proof.
  split.
  - apply (handlerWith_respects storeGrows).
    + apply buildSnapshot_grows.
    + apply readPlayersFromDB_grows.
    + intros l w'. solve_grows.
    + intros b w'. solve_grows.
  - apply m_buildSnapshot_grows.
Qed.

End Keeps.

(** ** The cost and the effect of a cycle *)

Section CycleEffect.
Import Notions.
Context (up : Upstream) (now : Z).

Lemma resolvePlayer_calls_exact p w :
  calls (resolvePlayer up p w).2 = (calls w ++ resolveCalls up p)%list.
Proof.
  unfold resolvePlayer, resolveCalls, mbind, M_bind, riotGet, riotGetOpt. simpl.
  destruct (account up (name p) (tag p)) as [acc | e]; simpl; [| done].
  destruct (summoner up (acc_puuid acc)) as [sum | e]; simpl;
    [| by rewrite <- app_assoc].
  destruct (entries up (acc_puuid acc)) as [rd | e]; simpl;
    by rewrite <- !app_assoc.
Qed.

Lemma resolveCalls_length p : (List.length (resolveCalls up p) ≤ 4)%nat.
Proof.
  unfold resolveCalls.
  destruct (account up (name p) (tag p)) as [acc | e]; simpl; [| lia].
  destruct (summoner up (acc_puuid acc)); simpl; [| lia].
  destruct (entries up (acc_puuid acc)); simpl; lia.
Qed.

Lemma syncEntry_quiet prev p w :
  quietEntry up prev now p →
  calls (syncEntry up prev now p w).2 = (calls w ++ resolveCalls up p)%list.
Proof.
  intros Hq. rewrite (syncEntry_world up prev now calls) by done.
  rewrite syncPlayer_world. cbv zeta.
  destruct (resolved up p) as [[[acc sum] rd] | e] eqn:Hp;
    [| apply resolvePlayer_calls_exact].
  unfold fetchNewMatches. cbv zeta.
  assert ((0 <? gamesPlayed (prev !! acc_puuid acc) (rowFor up now acc sum rd))
          = false) as -> by (apply Z.ltb_ge; by eapply Hq).
  simpl. rewrite reconcile_keeps_calls. apply resolvePlayer_calls_exact.
Qed.

Lemma forEach_quiet prev roster w :
  (∀ p, p ∈ roster → quietEntry up prev now p) →
  calls (forEach roster (syncEntry up prev now) w).2 =
  (calls w ++ concat (resolveCalls up <$> roster))%list.
Proof.
  revert w. induction roster as [| p roster IH]; intros w Hq.
  - simpl. by rewrite app_nil_r.
  - rewrite forEach_cons_run by apply syncEntry_total.
    rewrite IH by (intros q Hin; apply Hq; by right).
    rewrite syncEntry_quiet by (apply Hq; by left).
    rewrite fmap_cons, concat_cons. by rewrite app_assoc.
Qed.

Lemma concat_resolveCalls_length roster :
  (List.length (concat (resolveCalls up <$> roster)) ≤ 4 * List.length roster)%nat.
Proof.
  induction roster as [| p roster IH]; [simpl; lia |].
  rewrite fmap_cons, concat_cons, length_app, length_cons.
  pose proof (resolveCalls_length p). lia.
Qed.

(** X8.  A cycle in which no player shows more games than its persisted
    row costs at most four requests per roster entry: the requests issued
    are those of steps 1 to 4, entry by entry, and no match list or match
    detail is requested. *)
Theorem quiet_cycle_calls roster w :
  online w = true →
  (∀ p, p ∈ roster → quietEntry up (prevOf <$> players (store w)) now p) →
  calls (buildSnapshot up now roster w).2 =
    (calls w ++ concat (resolveCalls up <$> roster))%list
  ∧ (List.length (concat (resolveCalls up <$> roster)) ≤ 4 * List.length roster)%nat.
Proof.
  intros Hw Hq. split; [| apply concat_resolveCalls_length].
  rewrite (buildSnapshot_world up now calls) by apply readPlayersFromDB_keeps_calls.
  rewrite syncAll_run by done. by rewrite forEach_quiet.
Qed.

Lemma syncEntry_frame prev p u w :
  (∀ acc sum rd, resolved up p = Ok (acc, sum, rd) → acc_puuid acc ≠ u) →
  online w = true →
  players (store (syncEntry up prev now p w).2) !! u = players (store w) !! u.
Proof.
  intros Hu Hw. destruct (resolved up p) as [[[acc sum] rd] | e] eqn:Hp.
  - rewrite (syncEntry_row up prev now p acc sum rd) by done.
    apply lookup_insert_ne. by eapply Hu.
  - destruct (syncEntry_failure up now prev p e w Hp) as (-> & _). done.
Qed.

Lemma forEach_frame prev roster u w :
  soleEntryFor up u roster → online w = true →
  players (store (forEach roster (syncEntry up prev now) w).2) !! u
  = players (store w) !! u.
Proof.
  revert w. induction roster as [| p roster IH]; intros w Hsole Hw; [done |].
  apply soleEntryFor_cons in Hsole as [Hp Hrest].
  rewrite forEach_cons_run by apply syncEntry_total.
  rewrite IH; [by apply syncEntry_frame | done |].
  by rewrite syncEntry_keeps_online.
Qed.

(** X9.  After a cycle over a store that answers, the row of a player that
    exactly one roster entry resolves to is the row built from the answers
    of this cycle; and the row of a puuid that no roster entry resolves to
    is the one it was. *)
Theorem cycle_rows before after p acc sum rd u w :
  online w = true →
  resolved up p = Ok (acc, sum, rd) →
  soleEntryFor up (acc_puuid acc) (before ++ after) →
  soleEntryFor up u (before ++ p :: after) →
  let s' := store (buildSnapshot up now (before ++ p :: after) w).2 in
  players s' !! acc_puuid acc = Some (rowFor up now acc sum rd)
  ∧ players s' !! u = players (store w) !! u.
Proof.
  intros Hw Hp Hsole Hu s'. subst s'.
  rewrite !(buildSnapshot_world up now (λ w, players (store w)))
    by (intros w'; unfold keeps; by rewrite readPlayersFromDB_keeps_store).
  rewrite syncAll_run by done. split; [| by rewrite forEach_frame].
  apply soleEntryFor_app in Hsole as [Hb Ha].
  set (prev := prevOf <$> players (store w)).
  assert (∀ l1 l2 w0, online w0 = true →
            (forEach (l1 ++ l2) (syncEntry up prev now) w0).2
            = (forEach l2 (syncEntry up prev now)
                 (forEach l1 (syncEntry up prev now) w0).2).2) as Happ.
  { induction l1 as [| q l1 IH]; intros l2 w0 Hw0; [done |].
    rewrite <- app_comm_cons, !forEach_cons_run by apply syncEntry_total.
    apply IH. by rewrite syncEntry_keeps_online. }
  rewrite Happ by done.
  assert (online (forEach before (syncEntry up prev now)
                    (setTracked (λ _, ∅) w)).2 = true) as Hw1.
  { assert (respects (keeps online) (forEach before (syncEntry up prev now))) as Hk
      by (apply respects_forEach; [apply _ | apply _ | intros q; apply syncEntry_keeps_online]).
    by rewrite Hk. }
  rewrite forEach_cons_run by apply syncEntry_total.
  rewrite forEach_frame; [| done | by rewrite syncEntry_keeps_online].
  rewrite (syncEntry_row up prev now p acc sum rd) by done.
  apply lookup_insert_eq.
Qed.

#[global] Instance keepsOffline_refl : Reflexive keepsOffline.
Proof. by intros w. Qed.

#[global] Instance keepsOffline_trans : Transitive keepsOffline.
Proof.
  intros w1 w2 w3 [O1 S1] [O2 S2]. split; [congruence |].
  intros H1. rewrite S2, S1; [done | done | congruence].
Qed.

Lemma dbWrite_offline f : respects keepsOffline (dbWrite f).
Proof.
  intros w. unfold dbWrite, update, keepsOffline. simpl.
  destruct (online w) eqn:Hw; simpl; [| done]. split; [done | congruence].
Qed.

Ltac offline_all :=
  cbv zeta;
  repeat (first [apply dbWrite_offline | respects_step]; cbv zeta).

Lemma handler_offline roster env req :
  respects keepsOffline (handler up roster env now req).
Proof.
  unfold handler. apply (handlerWith_respects keepsOffline).
  - unfold buildSnapshot, syncAll, syncEntry, syncPlayer, resolvePlayer,
      reconcile, fetchNewMatches, storeNewMatches, storeMatch, readPlayersFromDB.
    offline_all; done.
  - unfold readPlayersFromDB. offline_all; done.
  - intros l w. by split.
  - intros b w. by split.
Qed.

(** X11.  With a store that does not answer, a refresh that takes the lock
    is still answered 200, with an empty list of players, and writes
    nothing. *)
Theorem refresh_without_store roster env req w :
  method req ≠ "OPTIONS" → configured env → force req = true →
  building w = false → online w = false →
  (handler up roster env now req w).1
    = Ok (Json 200 (SnapshotBody [] now false false))
  ∧ store (handler up roster env now req w).2 = store w.
Proof.
  intros Hm Hc Hf Hb Hw.
  destruct (handler_offline roster env req w) as [Ho Hs].
  split; [| by apply Hs].
  pose proof (handler_refresh_run up roster env now req w Hm Hc
                (or_introl Hf) Hb) as Hrun.
  cbv zeta in Hrun. rewrite Hrun in Ho |- *. simpl in Ho |- *.
  unfold storedViews. by rewrite Ho, Hw.
Qed.

End CycleEffect.

(** ** A match is downloaded once *)

Section FetchOnce.
Import Notions.
Context (up : Upstream) (now : Z) (id : string) (detail : MatchDto).
Hypothesis detail_ok : matchDetail up id = Ok detail.
Hypothesis lists_nodup : ∀ u ids, matchIds up u = Ok ids → NoDup ids.

#[local] Instance silent_refl : Reflexive (silent id).
Proof.
  intros w Hr. split; [done |]. split; [done |]. exists [].
  by rewrite app_nil_r.
Qed.

#[local] Instance silent_trans : Transitive (silent id).
Proof.
  intros w1 w2 w3 H1 H2 Hr.
  destruct (H1 Hr) as (Hr2 & S1 & d1 & E1 & F1).
  destruct (H2 Hr2) as (Hr3 & S2 & d2 & E2 & F2).
  split; [done |]. split; [auto |]. exists (d1 ++ d2)%list.
  by rewrite E2, E1, app_assoc, filter_app, F1, F2.
Qed.

#[local] Instance fetchesOnce_refl : Reflexive (fetchesOnce id).
Proof.
  intros w Hr. split; [done |]. split; [done |]. exists [].
  rewrite app_nil_r. simpl. repeat split; first [lia | done].
Qed.

#[local] Instance fetchesOnce_trans : Transitive (fetchesOnce id).
Proof.
  intros w1 w2 w3 H1 H2 Hr.
  destruct (H1 Hr) as (Hr2 & S1 & d1 & E1 & L1 & N1 & T1).
  destruct (H2 Hr2) as (Hr3 & S2 & d2 & E2 & L2 & N2 & T2).
  split; [done |]. split; [auto |]. exists (d1 ++ d2)%list.
  rewrite E2, E1, app_assoc, filter_app, length_app. split; [done |].
  destruct (filter (isDetailOf id) d1) as [| c f1] eqn:Hf1.
  - simpl. split; [done |]. split; [intros Hs; apply N2; by apply S1 | done].
  - assert (stored id w2) as Hs2 by (by apply T1).
    rewrite (N2 Hs2), app_nil_r. split; [simpl in *; lia |]. split.
    + intros Hs1. by specialize (N1 Hs1).
    + intros _. by apply S2.
Qed.

Lemma silent_fetchesOnce w w' : silent id w w' → fetchesOnce id w w'.
Proof.
  intros H Hr. destruct (H Hr) as (Hr' & S & d & E & F).
  split; [done |]. split; [done |]. exists d. rewrite F. simpl.
  repeat split; first [done | simpl; lia].
Qed.

Ltac solve_silent :=
  let Hr := fresh "Hr" in
  intros Hr; destruct Hr as [Ho Hk];
  split;
  [ split; [exact Ho |];
    unfold keyedByMatchId in *; simpl; intros k r;
    rewrite ?lookup_insert; try case_decide; naive_solver
  | split;
    [ unfold stored; simpl; rewrite ?lookup_insert; try case_decide; naive_solver
    | first [ exists []; split; [by rewrite app_nil_r | done]
            | eexists [_]; split;
              [reflexivity
              | apply filter_none, Forall_singleton; unfold isDetailOf; congruence] ] ] ].

Lemma resolvePlayer_silent p : respects (silent id) (resolvePlayer up p).
Proof. unfold resolvePlayer. respects_all; solve_silent. Qed.

Lemma reconcile_silent prev row : respects (silent id) (reconcile prev now row).
Proof. unfold reconcile. respects_all; solve_silent. Qed.

Lemma readPlayersFromDB_silent : respects (silent id) readPlayersFromDB.
Proof. unfold readPlayersFromDB. respects_all; solve_silent. Qed.

(** What [storeMatch] does once the detail has arrived. *)
Lemma storeMatch_tail_silent m0 (m : MatchDto) :
  respects (silent id)
    (dbWrite (upsertMatch (mkMatchRow m0 now (participantMap (participants m)))) ;;
     forEach (participants m) (λ part,
       w ← get;
       if bool_decide (part_puuid part ∈ trackedPuuids w)
       then dbWrite (upsertPlayerMatch (playerMatchRow m0 m part))
       else mret tt) ;;
     log (LogStored m0)).
Proof. respects_all; solve_silent. Qed.

Lemma storeMatch_other m0 : m0 ≠ id → respects (silent id) (storeMatch up now m0).
Proof.
  intros Hne. unfold storeMatch.
  apply respects_bind; [apply _ | | intros m; apply storeMatch_tail_silent].
  respects_all. solve_silent.
Qed.

Lemma storeMatch_self w :
  ready w →
  let w' := (storeMatch up now id w).2 in
  ready w' ∧ stored id w'
  ∧ ∃ d, calls w' = (calls w ++ d)%list
         ∧ filter (isDetailOf id) d = [MatchDetailCall id].
Proof.
  intros Hr w'. subst w'. unfold storeMatch. rewrite bind_run. simpl.
  rewrite detail_ok. simpl.
  set (w1 := addCall (MatchDetailCall id) w).
  assert (ready w1) as Hr1 by (destruct Hr; by split).
  rewrite bind_run.
  set (write := dbWrite (upsertMatch
                  (mkMatchRow id now (participantMap (participants detail))))).
  assert ((write w1).1 = Ok tt) as -> by done.
  assert (ready (write w1).2 ∧ stored id (write w1).2
          ∧ calls (write w1).2 = (calls w ++ [MatchDetailCall id])%list)
    as (Hr2 & Hs2 & Hc2).
  { unfold write, dbWrite, update. simpl. destruct Hr as [Ho Hk]. rewrite Ho.
    simpl. split; [split; [done |] |].
    - unfold keyedByMatchId. simpl. intros k r. rewrite lookup_insert.
      case_decide; naive_solver.
    - split; [| done]. unfold stored. simpl. by rewrite lookup_insert_eq. }
  set (rest := (forEach (participants detail) _ ≫= _)).
  assert (respects (silent id) rest) as Hrest.
  { unfold rest. respects_all; solve_silent. }
  destruct (Hrest _ Hr2) as (Hr3 & S3 & d & E & F).
  split; [done |]. split; [by apply S3 |].
  exists (MatchDetailCall id :: d). rewrite E, Hc2, <- app_assoc. split; [done |].
  rewrite filter_cons_True by done. by rewrite F.
Qed.

Lemma loop_body_total (known : list string) (m0 : string) :
  total (if bool_decide (m0 ∈ known) then mret tt
         else tryCatch (storeMatch up now m0) (λ e, log (WarnMatch m0 e))).
Proof.
  case_bool_decide; [apply total_ret |].
  apply total_tryCatch. intros e. apply total_update.
Qed.

(** The loop over the listed ids, with the set of known ids fixed before
    it starts. *)
Lemma loop_once (known ids : list string) :
  NoDup ids → ∀ w, ready w →
  let w' := (forEach ids (λ matchId,
               if bool_decide (matchId ∈ known) then mret tt
               else tryCatch (storeMatch up now matchId)
                      (λ e, log (WarnMatch matchId e))) w).2 in
  ready w' ∧ (stored id w → stored id w')
  ∧ (id ∈ ids → id ∉ known → stored id w')
  ∧ ∃ d, calls w' = (calls w ++ d)%list
         ∧ filter (isDetailOf id) d =
           if bool_decide (id ∈ ids ∧ id ∉ known)
           then [MatchDetailCall id] else [].
Proof.
  induction 1 as [| m0 ids Hm0 Hnd IH]; intros w Hr.
  - simpl. split; [done |]. split; [done |].
    split; [by intros ?%elem_of_nil |]. exists [].
    rewrite app_nil_r. by split.
  - cbv zeta. rewrite forEach_cons_run by exact (loop_body_total known m0).
    set (w1 := ((if bool_decide (m0 ∈ known) then mret tt
                 else tryCatch (storeMatch up now m0)
                        (λ e, log (WarnMatch m0 e))) w).2).
    assert (ready w1 ∧ (stored id w → stored id w1)
            ∧ (m0 = id → id ∉ known → stored id w1)
            ∧ ∃ d, calls w1 = (calls w ++ d)%list
                   ∧ filter (isDetailOf id) d =
                     if bool_decide (m0 = id ∧ id ∉ known)
                     then [MatchDetailCall id] else [])
      as (Hr1 & S1 & T1 & d1 & E1 & F1).
    { unfold w1. destruct (decide (m0 ∈ known)) as [Hknown | Hknown].
      - rewrite (bool_decide_eq_true_2 (m0 ∈ known)) by done.
        simpl. split; [done |]. split; [done |].
        split; [by intros -> ? |]. exists []. rewrite app_nil_r.
        rewrite bool_decide_eq_false_2; [done |]. by intros [-> ?].
      - rewrite (bool_decide_eq_false_2 (m0 ∈ known)) by done.
        destruct (decide (m0 = id)) as [-> | Hne].
        + rewrite tryCatch_run.
          destruct (storeMatch_self w Hr) as (Hr1 & Hs1 & d & E & F).
          rewrite bool_decide_eq_true_2 by done.
          destruct (storeMatch up now id w) as [[[] | e] w2]; simpl in *.
          * split; [done |]. split; [done |]. split; [done |]. by exists d.
          * split; [done |]. split; [done |]. split; [done |]. by exists d.
        + assert (respects (silent id)
                    (tryCatch (storeMatch up now m0) (λ e, log (WarnMatch m0 e))))
            as Hs.
          { apply respects_tryCatch; [apply _ | by apply storeMatch_other |].
            intros e. respects_all. solve_silent. }
          destruct (Hs w Hr) as (Hr1 & S1 & d & E & F).
          split; [done |]. split; [done |]. split; [done |]. exists d.
          rewrite bool_decide_eq_false_2; [done |]. by intros [? _]. }
    destruct (IH w1 Hr1) as (Hr2 & S2 & T2 & d2 & E2 & F2).
    split; [done |]. split; [auto |]. split.
    { intros [-> | Hin]%elem_of_cons Hk; [apply S2; by apply T1 | by apply T2]. }
    exists (d1 ++ d2)%list. rewrite E2, E1, app_assoc. split; [done |].
    rewrite filter_app, F1, F2.
    destruct (decide (id ∉ known)) as [Hk | Hk].
    + destruct (decide (m0 = id)) as [-> | Hne].
      * rewrite (bool_decide_eq_true_2 (id = id ∧ _)) by done.
        rewrite (bool_decide_eq_false_2 (id ∈ ids ∧ _)) by (by intros [? _]).
        rewrite (bool_decide_eq_true_2 (id ∈ id :: ids ∧ _)); [done |].
        split; [by left | done].
      * rewrite (bool_decide_eq_false_2 (m0 = id ∧ _)) by (by intros [? _]).
        simpl.
        rewrite (bool_decide_ext (id ∈ m0 :: ids ∧ id ∉ known)
                   (id ∈ ids ∧ id ∉ known)); [done |].
        rewrite elem_of_cons. naive_solver.
    + rewrite !bool_decide_eq_false_2; [done | | |]; by intros [_ ?].
Qed.

Lemma storeNewMatches_once ids :
  NoDup ids → respects (fetchesOnce id) (storeNewMatches up now ids).
Proof.
  intros Hnd w Hr. unfold storeNewMatches. rewrite bind_run. simpl.
  destruct Hr as [Ho Hk]. rewrite Ho. simpl.
  destruct (loop_once (knownMatchIds ids (store w)) ids Hnd w)
    as (Hr' & S & T & d & E & F); [by split |].
  split; [done |]. split; [done |]. exists d. split; [done |].
  rewrite F. case_bool_decide as Hcase; simpl.
  - destruct Hcase as [Hin Hknown]. repeat split; first [lia | auto | idtac].
    all: intros Hs; exfalso; apply Hknown; by apply knownMatchIds_stored.
  - repeat split; first [lia | done].
Qed.

Lemma fetchNewMatches_once prev row :
  respects (fetchesOnce id) (fetchNewMatches up prev now row).
Proof.
  unfold fetchNewMatches. cbv zeta. case_match; [| apply respects_ret; apply _].
  intros w Hr. rewrite bind_run. simpl.
  set (w1 := addCall (MatchIdsCall (puuid row)) w).
  assert (fetchesOnce id w w1) as Hstep.
  { apply silent_fetchesOnce. unfold w1. solve_silent. }
  destruct (matchIds up (puuid row)) as [ids | e] eqn:Hids; [| by apply Hstep].
  revert Hr. change (fetchesOnce id w (storeNewMatches up now ids w1).2).
  etrans; [exact Hstep |]. apply storeNewMatches_once. by eapply lists_nodup.
Qed.

Lemma buildSnapshot_once roster :
  respects (fetchesOnce id) (buildSnapshot up now roster).
Proof.
  assert (∀ A (m : M A), respects (silent id) m → respects (fetchesOnce id) m)
    as Hweak by (intros A m Hm w; apply silent_fetchesOnce, Hm).
  unfold buildSnapshot, syncAll, syncEntry, syncPlayer.
  apply respects_bind; [apply _ | | intros _; apply Hweak, readPlayersFromDB_silent].
  apply respects_bind; [apply _ | apply Hweak; respects_all; solve_silent | intros q].
  apply respects_bind; [apply _ | apply Hweak; respects_all; solve_silent | intros _].
  apply respects_forEach; [apply _ | apply _ | intros p].
  apply respects_tryCatch; [apply _ | | intros e; apply Hweak; respects_all; solve_silent].
  apply respects_bind; [apply _ | apply Hweak, resolvePlayer_silent |].
  intros [[[acc sum] rd] live]. cbv zeta.
  apply respects_bind; [apply _ | apply Hweak, reconcile_silent | intros _].
  apply fetchNewMatches_once.
Qed.

End FetchOnce.

Section FetchOnceTheorem.
Import Notions.

(** X10.  A match whose detail the upstream delivers is downloaded at most
    once in a cycle, however many roster entries list it: over a store
    that answers and has its matches under their ids, and with match lists
    that do not repeat an id, the cycle requests the detail of a match at
    most once, not at all if the match was stored before, and if it
    requests it the match is stored when the cycle ends. *)
Theorem match_fetched_at_most_once up now roster id detail w :
  matchDetail up id = Ok detail →
  (∀ u ids, matchIds up u = Ok ids → NoDup ids) →
  online w = true → keyedByMatchId (store w) →
  let w' := (buildSnapshot up now roster w).2 in
  ∃ issued,
    calls w' = (calls w ++ issued)%list
    ∧ (List.length (filter (λ c, c = MatchDetailCall id) issued) ≤ 1)%nat
    ∧ (is_Some (matches (store w) !! id) → MatchDetailCall id ∉ issued)
    ∧ (MatchDetailCall id ∈ issued → is_Some (matches (store w') !! id)).
Proof.
  intros Hd Hnd Ho Hk w'. subst w'.
  destruct (buildSnapshot_once up now id detail Hd Hnd roster w)
    as (_ & _ & d & E & L & N & T); [by split |].
  exists d. split; [done |]. split; [exact L |]. split.
  - intros Hs Hin. specialize (N Hs).
    assert (MatchDetailCall id ∈ filter (isDetailOf id) d) as Hf
      by (by apply list_elem_of_filter).
    rewrite N in Hf. by apply elem_of_nil in Hf.
  - intros Hin. apply T. intros Hf.
    assert (MatchDetailCall id ∈ filter (isDetailOf id) d) as Hf'
      by (by apply list_elem_of_filter).
    rewrite Hf in Hf'. by apply elem_of_nil in Hf'.
Qed.

End FetchOnceTheorem.

(** ** The row of the player whose turn it is *)

Section OwnRow.
Import Notions.
Context (up : Upstream) (now : Z) (u id : string).

#[local] Instance keepsRow_refl : Reflexive (keepsRow u id).
Proof. by intros w Hr. Qed.

#[local] Instance keepsRow_trans : Transitive (keepsRow u id).
Proof.
  intros w1 w2 w3 H1 H2 Hr.
  destruct (H1 Hr) as (Hr2 & A1 & B1 & C1).
  destruct (H2 Hr2) as (Hr3 & A2 & B2 & C2). auto 10.
Qed.

Ltac solve_keepsRow :=
  let Hr := fresh "Hr" in
  intros Hr; destruct Hr as [Ho Hk];
  split;
  [ split; [exact Ho |];
    unfold keyedByMatchId in *; simpl; intros k r;
    rewrite ?lookup_insert; try case_decide; naive_solver
  | unfold stored, hasRow; simpl; repeat split;
    rewrite ?lookup_insert; try case_decide;
    first [done | set_solver | naive_solver] ].

Lemma forEach_app_run {A} (l1 l2 : list A) (body : A → M unit) w :
  (∀ x, total (body x)) →
  (forEach (l1 ++ l2) body w).2 = (forEach l2 body (forEach l1 body w).2).2.
Proof.
  intros Ht. revert w. induction l1 as [| x l1 IH]; intros w; [done |].
  rewrite <- app_comm_cons, !forEach_cons_run by apply Ht. apply IH.
Qed.

Lemma participant_body_total m0 (m : MatchDto) (part : Participant) :
  total (w ← get;
         if bool_decide (part_puuid part ∈ trackedPuuids w)
         then dbWrite (upsertPlayerMatch (playerMatchRow m0 m part))
         else mret tt).
Proof.
  apply total_bind; [intros w; by eexists | intros w].
  case_bool_decide; [apply total_update | apply total_ret].
Qed.

Lemma participant_body_keepsRow m0 (m : MatchDto) (part : Participant) :
  respects (keepsRow u id)
    (w ← get;
     if bool_decide (part_puuid part ∈ trackedPuuids w)
     then dbWrite (upsertPlayerMatch (playerMatchRow m0 m part))
     else mret tt).
Proof. respects_all; solve_keepsRow. Qed.

(** The loop over the participants writes the row of every participant
    that is tracked. *)
Lemma participants_row (m : MatchDto) (parts : list Participant) part w :
  part ∈ parts → part_puuid part = u →
  ready w → u ∈ trackedPuuids w →
  let w' := (forEach parts (λ part,
               w ← get;
               if bool_decide (part_puuid part ∈ trackedPuuids w)
               then dbWrite (upsertPlayerMatch (playerMatchRow id m part))
               else mret tt) w).2 in
  ready w' ∧ (stored id w → stored id w') ∧ u ∈ trackedPuuids w'
  ∧ hasRow u id w'.
Proof.
  intros Hin Hu Hr Ht.
  apply list_elem_of_split in Hin as (l1 & l2 & ->).
  cbv zeta. rewrite forEach_app_run by (intros x; apply participant_body_total).
  set (body := λ part : Participant, _).
  assert (∀ l, respects (keepsRow u id) (forEach l body)) as Hloop.
  { intros l. apply respects_forEach; [apply _ | apply _ |].
    intros x. apply participant_body_keepsRow. }
  destruct (Hloop l1 w Hr) as (Hr1 & T1 & S1 & _).
  set (w1 := (forEach l1 body w).2) in *.
  rewrite forEach_cons_run by apply participant_body_total.
  assert (ready (body part w1).2 ∧ (stored id w1 → stored id (body part w1).2)
          ∧ u ∈ trackedPuuids (body part w1).2 ∧ hasRow u id (body part w1).2)
    as (Hr2 & S2 & T2 & R2).
  { unfold body. rewrite bind_run. simpl. rewrite Hu.
    rewrite bool_decide_eq_true_2 by auto.
    unfold dbWrite, update. simpl. destruct Hr1 as [Ho Hk]. rewrite Ho. simpl.
    split; [by split |]. split; [done |]. split; [auto |].
    unfold hasRow. simpl. rewrite Hu. by rewrite lookup_insert_eq. }
  destruct (Hloop l2 _ Hr2) as (Hr3 & T3 & S3 & R3).
  split; [done |]. split; [auto |]. split; auto.
Qed.

Lemma knownMatchIds_are_stored ids s :
  keyedByMatchId s → id ∈ knownMatchIds ids s → is_Some (matches s !! id).
Proof.
  intros Hk Hin. unfold knownMatchIds in Hin.
  apply list_elem_of_fmap in Hin as (r & -> & Hr).
  apply list_elem_of_filter in Hr as [_ Hr].
  apply list_elem_of_fmap in Hr as ([k r'] & -> & Hr).
  apply elem_of_map_to_list in Hr. simpl. rewrite (Hk _ _ Hr). by exists r'.
Qed.

Lemma storeMatch_keepsRow m0 : respects (keepsRow u id) (storeMatch up now m0).
Proof. unfold storeMatch. respects_all; solve_keepsRow. Qed.

Lemma loop_body_keepsRow (known : list string) m0 :
  respects (keepsRow u id)
    (if bool_decide (m0 ∈ known) then mret tt
     else tryCatch (storeMatch up now m0) (λ e, log (WarnMatch m0 e))).
Proof. unfold storeMatch. respects_all; solve_keepsRow. Qed.

Lemma storeMatch_row (m : MatchDto) part w :
  matchDetail up id = Ok m → part ∈ participants m → part_puuid part = u →
  ready w → u ∈ trackedPuuids w →
  let w' := (tryCatch (storeMatch up now id) (λ e, log (WarnMatch id e)) w).2 in
  ready w' ∧ u ∈ trackedPuuids w' ∧ stored id w' ∧ hasRow u id w'.
Proof.
  intros Hm Hin Hu Hr Ht. cbv zeta. rewrite tryCatch_run.
  assert (ready (storeMatch up now id w).2
          ∧ u ∈ trackedPuuids (storeMatch up now id w).2
          ∧ stored id (storeMatch up now id w).2
          ∧ hasRow u id (storeMatch up now id w).2) as Hgoal.
  { unfold storeMatch. rewrite bind_run. simpl. rewrite Hm. simpl.
    rewrite bind_run. unfold dbWrite at 1, update at 1. simpl.
    destruct Hr as [Ho Hk]. rewrite Ho. simpl.
    set (w1 := setStore _ (addCall _ w)).
    assert (ready w1) as Hr1.
    { split; [done |]. unfold keyedByMatchId. simpl. intros k r.
      rewrite lookup_insert. case_decide; naive_solver. }
    assert (stored id w1) as Hs1.
    { unfold stored. simpl. by rewrite lookup_insert_eq. }
    rewrite bind_run.
    destruct (participants_row m (participants m) part w1 Hin Hu Hr1 Ht)
      as (Hr2 & S2 & T2 & R2).
    assert (total (forEach (participants m) (λ part0,
               w ← get;
               if bool_decide (part_puuid part0 ∈ trackedPuuids w)
               then dbWrite (upsertPlayerMatch (playerMatchRow id m part0))
               else mret tt))) as Htot.
    { apply total_forEach. intros x. apply participant_body_total. }
    destruct (Htot w1) as [[] ->]. simpl. auto. }
  destruct (storeMatch up now id w) as [[[] | e] w2]; simpl in *; [done |].
  destruct Hgoal as ((Ho & Hk) & T & S & R). done.
Qed.

(** X12.  The player whose turn it is gets its own row: if the entry
    resolves and shows new games, and its match list holds a match that is
    not stored and whose detail the upstream delivers with the player
    among the participants and a start time that is a valid date, then
    after the turn of the entry the match is stored and so is the row of
    the player for it. *)
Theorem own_row_stored prev p acc sum rd ids (m : MatchDto) part w :
  online w = true → keyedByMatchId (store w) →
  resolved up p = Ok (acc, sum, rd) → acc_puuid acc = u →
  0 < gamesPlayed (prev !! u) (rowFor up now acc sum rd) →
  matchIds up u = Ok ids → id ∈ ids →
  matches (store w) !! id = None →
  matchDetail up id = Ok m → validTime (gameStartTimestamp m) →
  part ∈ participants m → part_puuid part = u →
  let w' := (syncEntry up prev now p w).2 in
  is_Some (matches (store w') !! id)
  ∧ is_Some (player_matches (store w') !! (u, id)).
Proof.
  intros Ho Hk Hp Hacc Hgames Hids Hin Hnew Hm _ Hpart Hu w'. subst w'.
  cut (stored id (syncPlayer up prev now p w).2
       ∧ hasRow u id (syncPlayer up prev now p w).2).
  { unfold syncEntry. rewrite tryCatch_run.
    destruct (syncPlayer up prev now p w).1; [done |]. done. }
  rewrite syncPlayer_world, Hp. cbv zeta. rewrite Hacc.
  set (row := rowFor up now acc sum rd) in *.
  assert (puuid row = u) as Hrow by done.
  set (w1 := (resolvePlayer up p w).2).
  assert (online w1 = true ∧ matches (store w1) = matches (store w)
          ∧ u ∈ trackedPuuids w1) as (Ho1 & Hm1 & Ht1).
  { unfold w1. rewrite resolvePlayer_keeps_online.
    assert (store (resolvePlayer up p w).2 = store w) as ->
      by apply resolvePlayer_keeps_store.
    split; [done |]. split; [done |].
    unfold resolved in Hp. unfold resolvePlayer, mbind, M_bind, riotGet, riotGetOpt.
    simpl. destruct (account up (name p) (tag p)) as [acc' | e]; [| done]. simpl.
    destruct (summoner up (acc_puuid acc')) as [sum' | e]; [| done]. simpl.
    destruct (entries up (acc_puuid acc')) as [rd' | e]; [| done]. simpl.
    injection Hp as -> _ _. set_solver. }
  set (w2 := (reconcile (prev !! u) now row w1).2).
  assert (online w2 = true ∧ matches (store w2) = matches (store w)
          ∧ u ∈ trackedPuuids w2) as (Ho2 & Hm2 & Ht2).
  { unfold w2. rewrite reconcile_keeps_online.
    assert (respects (keeps (λ w, matches (store w))) (reconcile (prev !! u) now row))
      as -> by (unfold reconcile; respects_all; done).
    assert (respects (keeps trackedPuuids) (reconcile (prev !! u) now row))
      as -> by (unfold reconcile; respects_all; done).
    done. }
  unfold fetchNewMatches. cbv zeta. apply Z.ltb_lt in Hgames. rewrite Hgames.
  rewrite bind_run. simpl. rewrite Hacc, Hids. unfold storeNewMatches.
  rewrite bind_run. simpl. rewrite Ho2. simpl.
  set (known := knownMatchIds ids (store w2)).
  assert (id ∉ known) as Hknown.
  { intros Hin'. apply knownMatchIds_are_stored in Hin' as [r Hr].
    - rewrite Hm2, Hnew in Hr. discriminate.
    - unfold keyedByMatchId. by rewrite Hm2. }
  set (w3 := addCall (MatchIdsCall u) w2).
  assert (ready w3) as Hr3.
  { split; [done |]. unfold keyedByMatchId. simpl. by rewrite Hm2. }
  apply list_elem_of_split in Hin as (l1 & l2 & ->).
  rewrite forEach_app_run by (intros x; apply loop_body_total).
  set (body := λ matchId : string, _).
  assert (∀ l, respects (keepsRow u id) (forEach l body)) as Hloop.
  { intros l. apply respects_forEach; [apply _ | apply _ |].
    intros x. apply loop_body_keepsRow. }
  destruct (Hloop l1 w3 Hr3) as (Hr4 & T4 & _ & _).
  rewrite forEach_cons_run by apply loop_body_total.
  assert (ready (body id (forEach l1 body w3).2).2
          ∧ stored id (body id (forEach l1 body w3).2).2
          ∧ hasRow u id (body id (forEach l1 body w3).2).2) as (Hr5 & S5 & R5).
  { unfold body. rewrite bool_decide_eq_false_2 by done.
    destruct (storeMatch_row m part (forEach l1 body w3).2 Hm Hpart Hu Hr4)
      as (? & ? & ? & ?); [by apply T4 |]. done. }
  destruct (Hloop l2 _ Hr5) as (_ & _ & S6 & R6). auto.
Qed.

End OwnRow.

(** ** The milestone passes *)

Section TierMilestones.
Import Milestones.
Context (now : Z).

Lemma tier_bucket (t : string) (d : option string) (lp : Z) :
  validTier t → 0 ≤ lp < 7000 →
  rankScore (Some t) d lp / 10000 = tierIndex t
  ∧ 0 ≤ tierIndex t ≤ 9
  ∧ tierIndex t * 10000 ≤ rankScore (Some t) d lp.
Proof.
  intros Ht Hlp. destruct (rankScore_ranked t d lp Ht) as [-> Hr].
  pose proof (rankIndex_range d) as Hd.
  split; [| split; [done | lia]].
  symmetry. apply (Z.div_unique _ _ _ (rankIndex d * 1000 + lp)); lia.
Qed.

Lemma detectMilestones_same_bucket u (prev new : Z) row w :
  prev / 10000 = new / 10000 →
  detectMilestones now u (Some prev) new row w = (Ok tt, w).
Proof.
  intros E. unfold detectMilestones. simpl. rewrite E.
  rewrite (bool_decide_eq_false_2 (new / 10000 > new / 10000)) by lia.
  rewrite (bool_decide_eq_false_2 (new / 10000 < new / 10000)) by lia.
  simpl. by case_bool_decide.
Qed.

(** X13.  A change of division or of league points inside one tier is no
    milestone: between two scores of the same tier of [TIER_ORDER], each
    with fewer than 7000 points, [detectMilestones] writes nothing. *)
Theorem division_change_is_no_milestone u (t : string) d1 lp1 d2 lp2 row w :
  validTier t → 0 ≤ lp1 < 7000 → 0 ≤ lp2 < 7000 →
  detectMilestones now u (Some (rankScore (Some t) d1 lp1))
    (rankScore (Some t) d2 lp2) row w = (Ok tt, w).
Proof.
  intros Ht H1 H2.
  destruct (tier_bucket t d1 lp1 Ht H1) as (B1 & _ & _).
  destruct (tier_bucket t d2 lp2 Ht H2) as (B2 & _ & _).
  apply detectMilestones_same_bucket. by rewrite B1, B2.
Qed.


End TierMilestones.

Section SurpassedMilestones.
Import Milestones.
Context (now : Z).

Lemma elem_of_concat_fmap {A X} (G : A → list X) (l : list A) (x : X) :
  x ∈ concat (G <$> l) ↔ ∃ a, a ∈ l ∧ x ∈ G a.
Proof.
  induction l as [| a l IH]; simpl.
  - split; [by intros ?%elem_of_nil | by intros (a & ?%elem_of_nil & _)].
  - rewrite elem_of_app, IH. split.
    + intros [H | (b & Hb & H)]; [exists a | exists b]; split; try done;
        [by left | by right].
    + intros (b & Hb & H). apply elem_of_cons in Hb as [-> | Hb];
        [by left | right; by exists b].
Qed.

(** Every event of the cross-entity pass names a pair that passes its test. *)
Lemma surpassedEvents_elem ranked prevScores newScores puuids (m : MilestoneRow) :
  m ∈ surpassedEvents ranked now prevScores newScores puuids →
  ∃ a b, a ∈ puuids ∧ b ∈ puuids ∧ a ≠ b
    ∧ overtakes ranked prevScores newScores a b = true
    ∧ m = surpassedMilestone a b (default (-1) (newScores !! a))
            (default (-1) (newScores !! b)) now.
Proof.
  unfold surpassedEvents. intros H.
  apply elem_of_concat_fmap in H as (a & Ha & H).
  apply elem_of_concat_fmap in H as (b & Hb & H).
  case_bool_decide as Hab; [by apply elem_of_nil in H |].
  destruct (overtakes ranked prevScores newScores a b) eqn:Ho;
    [| by apply elem_of_nil in H].
  apply list_elem_of_singleton in H. by exists a, b.
Qed.

Lemma playerRows_elem s (u : string) :
  keyedByPuuid s →
  u ∈ puuid <$> playerRows s → ∃ r, players s !! u = Some r.
Proof.
  intros Hk Hin. rewrite playerRows_keys in Hin by done.
  apply list_elem_of_fmap in Hin as ([k r] & -> & Hin).
  apply elem_of_map_to_list in Hin. by exists r.
Qed.

(** X15.  Every [surpassed] milestone of a cycle is sound: it names two
    different players of the table, the actor's new score is positive and
    strictly above the target's, the actor was not ahead before, and the
    detail carries the two new scores.  In particular one cycle never
    records that two players overtook each other. *)
Theorem surpassed_milestones_sound prevScores w :
  online w = true → keyedByPuuid (store w) →
  ∃ appended,
    ms (detectSurpassedMilestones now prevScores w).2 = (ms w ++ appended)%list
    ∧ (∀ m : MilestoneRow, m ∈ appended →
         ∃ a b ra rb,
           players (store w) !! a = Some ra ∧ players (store w) !! b = Some rb
           ∧ a ≠ b
           ∧ default (-1) (prevScores !! a) ≤ default (-1) (prevScores !! b)
           ∧ scoreOfRow rb < scoreOfRow ra ∧ 0 < scoreOfRow ra
           ∧ m = mkMilestoneRow surpassed a (Some b)
                   (Scores (scoreOfRow ra) (scoreOfRow rb)) now)
    ∧ (∀ m1 m2 : MilestoneRow, m1 ∈ appended → m2 ∈ appended →
         ¬ (ms_target_puuid m1 = Some (ms_actor_puuid m2)
            ∧ ms_target_puuid m2 = Some (ms_actor_puuid m1))).
Proof.
  intros Hw Hk. eexists. split; [by apply detectSurpassed_events |].
  assert (∀ m : MilestoneRow,
            m ∈ surpassedEvents positive now prevScores
                  (scoresOf (playerRows (store w))) (puuid <$> playerRows (store w)) →
            ∃ a b ra rb,
              players (store w) !! a = Some ra ∧ players (store w) !! b = Some rb
              ∧ a ≠ b
              ∧ default (-1) (prevScores !! a) ≤ default (-1) (prevScores !! b)
              ∧ scoreOfRow rb < scoreOfRow ra ∧ 0 < scoreOfRow ra
              ∧ m = mkMilestoneRow surpassed a (Some b)
                      (Scores (scoreOfRow ra) (scoreOfRow rb)) now) as Hsound.
  { intros m Hm.
    apply surpassedEvents_elem in Hm as (a & b & Ha & Hb & Hab & Ho & ->).
    apply playerRows_elem in Ha as [ra Ha]; [| done].
    apply playerRows_elem in Hb as [rb Hb]; [| done].
    exists a, b, ra, rb. unfold overtakes, positive in Ho.
    rewrite !scoresOf_lookup, Ha, Hb in Ho by done. simpl in Ho.
    apply andb_prop in Ho as [Ho H3]. apply andb_prop in Ho as [H1 H2].
    apply bool_decide_eq_true in H1, H2, H3.
    unfold surpassedMilestone. rewrite !scoresOf_lookup, Ha, Hb by done.
    simpl. repeat split; first [done | lia]. }
  split; [exact Hsound |].
  intros m1 m2 H1 H2 [E1 E2].
  apply Hsound in H1 as (a & b & ra & rb & Ha & Hb & _ & _ & Hlt & _ & ->).
  apply Hsound in H2 as (a' & b' & ra' & rb' & Ha' & Hb' & _ & _ & Hlt' & _ & ->).
  simpl in E1, E2. injection E1 as ->. injection E2 as ->.
  rewrite Ha in Hb'. rewrite Hb in Ha'. injection Hb' as ->. injection Ha' as ->.
  lia.
Qed.

(** X16.  A cycle that leaves the order of the players as it was records
    no overtaking: if no player that was not ahead of another is scored
    above it now, [detectSurpassedMilestones] writes nothing. *)
Theorem same_order_no_surpassed prevScores w :
  keyedByPuuid (store w) →
  (∀ a b ra rb,
     players (store w) !! a = Some ra → players (store w) !! b = Some rb →
     default (-1) (prevScores !! a) ≤ default (-1) (prevScores !! b) →
     scoreOfRow ra ≤ scoreOfRow rb) →
  store (detectSurpassedMilestones now prevScores w).2 = store w.
Proof.
  intros Hk Hord. unfold detectSurpassedMilestones. rewrite bind_run. simpl.
  destruct (online w) eqn:Hw; simpl; [| done].
  set (rows := playerRows (store w)).
  assert (∀ (l1 l2 : list string) w',
            store w' = store w →
            (∀ u, u ∈ l1 → u ∈ puuid <$> rows) →
            (∀ u, u ∈ l2 → u ∈ puuid <$> rows) →
            store (forEach l1 (λ a, forEach l2 (λ b,
               if bool_decide (a = b) then mret tt
               else if surpasses prevScores (scoresOf rows) a b
               then dbWrite (insertMilestone
                      (surpassedMilestone a b
                         (default (-1) (scoresOf rows !! a))
                         (default (-1) (scoresOf rows !! b)) now))
               else mret tt)) w').2 = store w) as Hloop.
  { intros l1 l2. induction l1 as [| a l1 IH]; intros w' Hw' H1 H2; [done |].
    rewrite forEach_cons_run.
    2: { apply total_forEach. intros b.
         repeat case_match; first [apply total_ret | apply total_update]. }
    apply IH; [| intros u Hu; apply H1; by right | done].
    assert (a ∈ puuid <$> rows) as Ha by (apply H1; by left).
    apply playerRows_elem in Ha as [ra Ha]; [| done].
    clear IH H1. revert w' Hw'.
    induction l2 as [| b l2 IH2]; intros w' Hw'; [done |].
    rewrite forEach_cons_run.
    2: { repeat case_match; first [apply total_ret | apply total_update]. }
    apply IH2; [intros u Hu; apply H2; by right |].
    case_bool_decide; [done |].
    assert (b ∈ puuid <$> rows) as Hb by (apply H2; by left).
    apply playerRows_elem in Hb as [rb Hb]; [| done].
    unfold surpasses. unfold rows. rewrite !scoresOf_lookup, Ha, Hb by done.
    simpl.
    destruct (decide (default (-1) (prevScores !! a)
                      ≤ default (-1) (prevScores !! b))) as [Hle | Hgt].
    - pose proof (Hord a b ra rb Ha Hb Hle).
      rewrite (bool_decide_eq_false_2 (scoreOfRow ra > scoreOfRow rb)) by lia.
      by rewrite andb_false_r.
    - by rewrite (bool_decide_eq_false_2 _ Hgt). }
  by apply Hloop.
Qed.

End SurpassedMilestones.

(** ** The history of the milestone variant *)

Section MilestoneHistory.
Import Milestones Notions.
Context (up : Upstream) (now : Z).



Lemma detectMilestones_keeps_online u prevScore newScore row :
  respects (keeps online) (detectMilestones now u prevScore newScore row).
Proof. unfold detectMilestones. respects_all; done. Qed.



Lemma m_reconcile_keeps_online prevScores row :
  respects (keeps online) (reconcile prevScores now row).
Proof. unfold reconcile, detectMilestones. respects_all; done. Qed.



Lemma m_storeNewMatches_keeps_online ids :
  respects (keeps online) (storeNewMatches up now ids).
Proof. unfold storeNewMatches, storeMatch. respects_all; done. Qed.




End MilestoneHistory.

(** ** The recent matches of the response *)

Section RecentMatches.
Import Notions.





#[local] Instance playedNoEarlier_trans : Transitive playedNoEarlier.
Proof. unfold playedNoEarlier. intros a b c. lia. Qed.

#[local] Instance playedNoEarlier_total : Total playedNoEarlier.
Proof. unfold playedNoEarlier. intros a b. lia. Qed.

(** The rows of [player_matches], as the table holds them. *)
Lemma recentPlayerMatches_elem puuids s (r : PlayerMatchRow) :
  r ∈ recentPlayerMatches puuids s ↔
  pm_puuid r ∈ puuids ∧ ∃ k, player_matches s !! k = Some r.
Proof.
  unfold recentPlayerMatches. rewrite merge_sort_Permutation.
  rewrite list_elem_of_filter, list_elem_of_fmap.
  split.
  - intros [Hp ([k r'] & -> & Hin)]. apply elem_of_map_to_list in Hin.
    split; [done | by exists k].
  - intros [Hp [k Hk]]. split; [done |]. exists (k, r).
    split; [done | by apply elem_of_map_to_list].
Qed.


End RecentMatches.

(** ** The further properties, on the runs of [Demo] and [Cases] *)

Section MoreWitnesses.
Import Notions Demo Cases.

Lemma env_configured : configured env.
Proof. repeat split. Defined.

Lemma rankedWorld_keyedByPuuid : keyedByPuuid (store rankedWorld).
Proof.
  change (map_Forall (λ k r, puuid r = k) (players (store rankedWorld))).
  apply (bool_decide_unpack _). by vm_compute.
Defined.

Lemma rankedWorld_keyedByMatchId : keyedByMatchId (store rankedWorld).
Proof. intros k r H. simpl in H. by rewrite lookup_empty in H. Defined.

Lemma upstream_lists_nodup (u : string) (ids : list string) :
  matchIds upstream u = Ok ids → NoDup ids.
Proof. intros H. injection H as <-. apply NoDup_singleton. Defined.




Lemma quiet_roster (p : RosterEntry) :
  p ∈ [entryA; entryB] →
  quietEntry upstreamQuiet (prevOf <$> players (store rankedWorld)) now p.
Proof.
  intros Hp acc sum rd Hr.
  apply elem_of_cons in Hp as [-> | Hp%list_elem_of_singleton]; [| subst p];
    vm_compute in Hr; injection Hr as <- <- <-; by vm_compute.
Defined.

Lemma quiet_cycle_calls_witness :
  calls (buildSnapshot upstreamQuiet now [entryA; entryB] rankedWorld).2 =
  [AccountCall "a" "EUW"; SummonerCall puuidA; EntriesCall puuidA;
   ActiveGameCall puuidA;
   AccountCall "b" "EUW"; SummonerCall puuidB; EntriesCall puuidB;
   ActiveGameCall puuidB].
Proof.
  refine (proj1 (quiet_cycle_calls upstreamQuiet now [entryA; entryB]
                   rankedWorld _ _)).
  - reflexivity.
  - exact quiet_roster.
Defined.

Lemma nobody_is_puuidX : soleEntryFor upstream "puuid-X" ([] ++ entryA :: [entryB]).
Proof.
  intros q acc sum rd Hq Hr.
  apply elem_of_cons in Hq as [-> | Hq%list_elem_of_singleton]; [| subst q];
    vm_compute in Hr; injection Hr as <- _ _; discriminate.
Defined.

Lemma entryB_is_not_puuidA : soleEntryFor upstream puuidA ([] ++ [entryB]).
Proof.
  intros q acc sum rd Hq Hr. apply list_elem_of_singleton in Hq. subst q.
  vm_compute in Hr. injection Hr as <- _ _. discriminate.
Defined.

Lemma cycle_rows_witness :
  let s' := store (buildSnapshot upstream now ([] ++ entryA :: [entryB])
                     rankedWorld).2 in
  players s' !! puuidA
    = Some (rowFor upstream now accountA profile [solo "GOLD" "II" 40 11 10])
  ∧ players s' !! "puuid-X" = players (store rankedWorld) !! "puuid-X".
Proof.
  apply (cycle_rows upstream now [] [entryB] entryA accountA profile
           [solo "GOLD" "II" 40 11 10] "puuid-X" rankedWorld).
  - reflexivity.
  - reflexivity.
  - exact entryB_is_not_puuidA.
  - exact nobody_is_puuidX.
Defined.

Lemma refresh_without_store_witness :
  (handler upstream [entryA; entryB] env now (mkRequest "GET" true)
     offlineWorld).1
    = Ok (Json 200 (SnapshotBody [] now false false))
  ∧ store (handler upstream [entryA; entryB] env now (mkRequest "GET" true)
             offlineWorld).2 = store offlineWorld.
Proof.
  apply (refresh_without_store upstream now [entryA; entryB] env
           (mkRequest "GET" true) offlineWorld).
  - discriminate.
  - exact env_configured.
  - reflexivity.
  - reflexivity.
  - reflexivity.
Defined.

Lemma match_fetched_at_most_once_witness :
  ∃ issued,
    calls (buildSnapshot upstream now [entryA; entryB] rankedWorld).2
      = (calls rankedWorld ++ issued)%list
    ∧ (List.length (filter (λ c, c = MatchDetailCall "M1") issued) ≤ 1)%nat.
Proof.
  pose proof (match_fetched_at_most_once upstream now [entryA; entryB] "M1"
                sharedMatch rankedWorld) as H.
  cbv zeta in H. destruct H as (issued & E & L & _).
  - reflexivity.
  - exact upstream_lists_nodup.
  - reflexivity.
  - exact rankedWorld_keyedByMatchId.
  - exists issued. split; [exact E | exact L].
Defined.

Lemma own_row_stored_witness :
  is_Some (player_matches
             (store (syncEntry upstream (prevOf <$> players (store rankedWorld))
                       now entryA rankedWorld).2) !! (puuidA, "M1")).
Proof.
  pose proof (own_row_stored upstream now puuidA "M1"
                (prevOf <$> players (store rankedWorld)) entryA accountA profile
                [solo "GOLD" "II" 40 11 10] ["M1"] sharedMatch
                (mkParticipant puuidA true "Ahri" 1 2 3) rankedWorld) as H.
  cbv zeta in H. destruct H as [_ H].
  - reflexivity.
  - exact rankedWorld_keyedByMatchId.
  - reflexivity.
  - reflexivity.
  - by vm_compute.
  - reflexivity.
  - apply list_elem_of_singleton. reflexivity.
  - reflexivity.
  - reflexivity.
  - split; by vm_compute.
  - left.
  - reflexivity.
  - exact H.
Defined.

Lemma division_change_is_no_milestone_witness :
  Milestones.detectMilestones now puuidA
    (Some (rankScore (Some "GOLD") (Some "IV") 90))
    (rankScore (Some "GOLD") (Some "III") 10) (goldRow puuidA) rankedWorld
  = (Ok tt, rankedWorld).
Proof.
  apply (division_change_is_no_milestone now puuidA "GOLD" (Some "IV") 90
           (Some "III") 10 (goldRow puuidA) rankedWorld).
  - by exists 3.
  - lia.
  - lia.
Defined.


Lemma mixedWorld_keyedByPuuid : keyedByPuuid (store mixedWorld).
Proof.
  change (map_Forall (λ k r, puuid r = k) (players (store mixedWorld))).
  apply (bool_decide_unpack _). by vm_compute.
Defined.

(** Player A, behind B before, is Gold II now and B Iron IV: the cycle
    appends the one milestone for A over B, and it is sound. *)
Lemma surpassed_milestones_sound_witness :
  ∃ appended,
    ms (Milestones.detectSurpassedMilestones now earlierScores mixedWorld).2
      = (ms mixedWorld ++ appended)%list
    ∧ appended
      = [mkMilestoneRow surpassed puuidA (Some puuidB) (Scores 32020 0) now]
    ∧ (∀ m : MilestoneRow, m ∈ appended →
         ∃ a b ra rb,
           players (store mixedWorld) !! a = Some ra
           ∧ players (store mixedWorld) !! b = Some rb
           ∧ a ≠ b
           ∧ default (-1) (earlierScores !! a) ≤ default (-1) (earlierScores !! b)
           ∧ Milestones.scoreOfRow rb < Milestones.scoreOfRow ra
           ∧ 0 < Milestones.scoreOfRow ra
           ∧ m = mkMilestoneRow surpassed a (Some b)
                   (Scores (Milestones.scoreOfRow ra) (Milestones.scoreOfRow rb))
                   now).
Proof.
  destruct (surpassed_milestones_sound now earlierScores mixedWorld)
    as (appended & E & S & _).
  - reflexivity.
  - exact mixedWorld_keyedByPuuid.
  - exists appended. split; [exact E |]. split; [| exact S].
    vm_compute in E. symmetry. exact E.
Defined.

Lemma rankedWorld_scores :
  map_Forall (λ _ r, Milestones.scoreOfRow r = 32020) (players (store rankedWorld)).
Proof. apply (bool_decide_unpack _). by vm_compute. Defined.

Lemma same_order_no_surpassed_witness :
  store (Milestones.detectSurpassedMilestones now ∅ rankedWorld).2
  = store rankedWorld.
Proof.
  apply (same_order_no_surpassed now ∅ rankedWorld).
  - exact rankedWorld_keyedByPuuid.
  - intros a b ra rb Ha Hb _.
    rewrite (rankedWorld_scores a ra Ha), (rankedWorld_scores b rb Hb). lia.
Defined.



End MoreWitnesses.

(** ** Computations over other states *)

Section GenFacts.
Import Gen.
Context {S : Type}.

Lemma bindS_run {A B} (m : St S A) (f : A → St S B) s :
  (m ≫= f) s = match (m s).1 with
               | Ok a => f a (m s).2
               | Throw e => (Throw e, (m s).2)
               end.
Proof. unfold mbind, St_bind. by destruct (m s) as [[a | e] s']. Qed.

Lemma tryCatchS_run {A} (m : St S A) (h : string → St S A) s :
  tryCatchS m h s = match (m s).1 with
                    | Ok a => (Ok a, (m s).2)
                    | Throw e => h e (m s).2
                    end.
Proof. unfold tryCatchS. by destruct (m s) as [[a | e] s']. Qed.

Lemma forEachS_cons_run {A} (x : A) (xs : list A) (body : A → St S unit) s :
  totalS (body x) →
  forEachS (x :: xs) body s = forEachS xs body (body x s).2.
Proof.
  intros Hx. simpl. rewrite bindS_run. by destruct (Hx s) as [[] ->].
Qed.

Lemma totalS_forEachS {A} (xs : list A) (body : A → St S unit) :
  (∀ x, totalS (body x)) → totalS (forEachS xs body).
Proof.
  intros Hb. induction xs as [| x xs IH]; intros s.
  - by exists tt.
  - rewrite forEachS_cons_run by apply Hb. apply IH.
Qed.

Lemma forEachS_app_run {A} (l1 l2 : list A) (body : A → St S unit) s :
  (∀ x, totalS (body x)) →
  (forEachS (l1 ++ l2) body s).2 = (forEachS l2 body (forEachS l1 body s).2).2.
Proof.
  intros Ht. revert s. induction l1 as [| x l1 IH]; intros s; [done |].
  rewrite <- app_comm_cons, !forEachS_cons_run by apply Ht. apply IH.
Qed.

Section RespectsS.
Context (R : relation S) `{!Reflexive R, !Transitive R}.

Lemma respectsS_ret {A} (a : A) : respectsS R (mret a).
Proof. intros s. simpl. reflexivity. Qed.

Lemma respectsS_getS : respectsS R getS.
Proof. intros s. simpl. reflexivity. Qed.

Lemma respectsS_throwS {A} e : respectsS R (throwS (A := A) e).
Proof. intros s. simpl. reflexivity. Qed.

Lemma respectsS_bind {A B} (m : St S A) (f : A → St S B) :
  respectsS R m → (∀ a, respectsS R (f a)) → respectsS R (m ≫= f).
Proof.
  intros Hm Hf s. rewrite bindS_run. specialize (Hm s).
  destruct (m s) as [[a | e] s']; simpl in *; [| done].
  etrans; [exact Hm | apply Hf].
Qed.

Lemma respectsS_tryCatchS {A} (m : St S A) (h : string → St S A) :
  respectsS R m → (∀ e, respectsS R (h e)) → respectsS R (tryCatchS m h).
Proof.
  intros Hm Hh s. rewrite tryCatchS_run. specialize (Hm s).
  destruct (m s) as [[a | e] s']; simpl in *; [done |].
  etrans; [exact Hm | apply Hh].
Qed.

Lemma respectsS_tryFinallyS {A} (m : St S A) (fin : St S unit) :
  respectsS R m → respectsS R fin → respectsS R (tryFinallyS m fin).
Proof.
  intros Hm Hf s. unfold tryFinallyS. specialize (Hm s).
  destruct (m s) as [r s']. specialize (Hf s').
  destruct (fin s') as [[[] | e] s'']; simpl in *; by etrans.
Qed.

Lemma respectsS_forEachS {A} (xs : list A) (body : A → St S unit) :
  (∀ x, respectsS R (body x)) → respectsS R (forEachS xs body).
Proof.
  intros Hb. induction xs as [| x xs IH]; simpl.
  - apply respectsS_ret.
  - apply respectsS_bind; [apply Hb | intros _; apply IH].
Qed.

Lemma respectsS_updateS (f : S → S) :
  (∀ s, R s (f s)) → respectsS R (updateS f).
Proof. intros Hf s. apply Hf. Qed.

End RespectsS.

End GenFacts.

(** ** [api/matches.js] *)

Section MatchCache.
Import Gen MatchesApi.
Context (up : Upstream).

Lemma state_eta (s : State) :
  mkState (matchCache s) (requests s) (warnings s) = s.
Proof. by destruct s. Qed.

Lemma setResults_run id (parts : list Participant) obj s :
  matchCache s !! id = Some (Some obj) →
  forEachS parts (setResult id) s =
  (Ok tt,
   setCache <[id := Some (foldl (λ obj part,
                <[part_puuid part :=
                    mkPartStat (part_win part) (championName part) (kills part)
                      (deaths part) (assists part)]> obj) obj parts)]> s).
Proof.
  revert obj s. induction parts as [| part parts IH]; intros obj s Hs.
  - simpl. unfold setCache. rewrite insert_id by done. by rewrite state_eta.
  - assert (setResult id part s =
            (Ok tt, setCache <[id := Some (<[part_puuid part :=
                       mkPartStat (part_win part) (championName part)
                         (kills part) (deaths part) (assists part)]> obj)]> s))
      as Hstep.
    { unfold setResult. rewrite bindS_run. simpl. by rewrite Hs. }
    simpl. rewrite bindS_run, Hstep. simpl.
    erewrite IH; [| apply lookup_insert_eq].
    unfold setCache. simpl. by rewrite insert_insert_eq.
Qed.

Lemma download_run id s :
  (download up id s).1 = Ok tt
  ∧ matchCache (download up id s).2 = <[id := downloaded up id]> (matchCache s)
  ∧ requests (download up id s).2 = (requests s ++ [MatchDetailCall id])%list.
Proof.
  unfold download, downloaded. rewrite tryCatchS_run, bindS_run.
  unfold get at 1 2 3. simpl.
  destruct (matchDetail up id) as [m | e]; simpl; [| done].
  rewrite !bindS_run. simpl.
  rewrite (setResults_run id (participants m) ∅); [| by apply lookup_insert_eq].
  simpl. by rewrite insert_insert_eq.
Qed.

Lemma download_total id : totalS (download up id).
Proof. intros s. exists tt. apply download_run. Qed.

Lemma downloads_run (l : list string) s :
  (forEachS l (download up) s).1 = Ok tt
  ∧ requests (forEachS l (download up) s).2
    = (requests s ++ (MatchDetailCall <$> l))%list
  ∧ ∀ id, matchCache (forEachS l (download up) s).2 !! id =
          if bool_decide (id ∈ l) then Some (downloaded up id)
          else matchCache s !! id.
Proof.
  revert s. induction l as [| x l IH]; intros s.
  - simpl. rewrite app_nil_r. done.
  - rewrite forEachS_cons_run by apply download_total.
    destruct (download_run x s) as (_ & Hc & Hr).
    destruct (IH (download up x s).2) as (H1 & H2 & H3).
    split; [done |]. split.
    + rewrite H2, Hr, fmap_cons, <- app_assoc. done.
    + intros id. rewrite H3, Hc.
      destruct (decide (id ∈ l)) as [Hin | Hout].
      * rewrite !bool_decide_eq_true_2; [done | by right | done].
      * rewrite (bool_decide_eq_false_2 (id ∈ l)) by done.
        destruct (decide (id = x)) as [-> | Hne].
        -- rewrite lookup_insert_eq, bool_decide_eq_true_2; [done | by left].
        -- rewrite lookup_insert_ne by done.
           rewrite bool_decide_eq_false_2; [done |].
           intros [? | ?]%elem_of_cons; done.
Qed.


Lemma serve_run requested s :
  let missing := filter (λ id, truthyValue (matchCache s !! id) = false)
                   requested in
  let s' := (forEachS missing (download up) s).2 in
  serve up requested s =
  (Ok (Matches
         (foldl (λ (result : gmap string (option (gmap string PartStat))) id,
                   <[id := cachedOrNull s' id]> result) ∅ requested)
         (bool_decide (List.length missing = 0%nat)) (List.length missing)),
   s').
Proof.
  cbv zeta. unfold serve. rewrite bindS_run. simpl. rewrite bindS_run.
  destruct (downloads_run
              (filter (λ id, truthyValue (matchCache s !! id) = false) requested)
              s) as (-> & _ & _).
  rewrite bindS_run. done.
Qed.

(** X20.  What a request downloads, when none of the requested ids is a
    name that a plain object inherits (under such a name [matchCache]
    answers with a member of [Object.prototype]): the detail of exactly
    the requested ids that have no object in [matchCache], in the order
    of the request and once for each time the id is listed.  So a match
    cached as an object is never downloaded again, while one whose
    download failed (cached as [null]) is downloaded again by the next
    request that lists it; [fetched] counts the downloads and [cached]
    tells that there were none. *)
Theorem matches_downloads requested s :
  (∀ id : string, id ∈ requested → id ∉ inheritedNames) →
  let out := serve up requested s in
  ∃ issued result,
    requests out.2 = (requests s ++ issued)%list
    ∧ issued = MatchDetailCall <$>
                 filter (λ id, truthyValue (matchCache s !! id) = false) requested
    ∧ (∀ id, MatchDetailCall id ∈ issued ↔
             id ∈ requested ∧ ¬ ∃ obj, matchCache s !! id = Some (Some obj))
    ∧ out.1 = Ok (Matches result (bool_decide (issued = []))
                    (List.length issued)).
Proof.
  intros _. cbv zeta. rewrite serve_run. cbv zeta. cbn [fst snd].
  set (missing := filter _ requested).
  destruct (downloads_run missing s) as (_ & Hr & _).
  exists (MatchDetailCall <$> missing). eexists.
  split; [exact Hr |]. split; [done |]. split.
  - intros id. rewrite list_elem_of_fmap. split.
    + intros (id' & E & Hin). injection E as E. subst id'.
      apply list_elem_of_filter in Hin as [Hc Hin].
      split; [done |]. intros [obj Hobj].
      assert (truthyValue (Some (Some obj)) = false) as Hf; [| done].
      rewrite <- Hobj. exact Hc.
    + intros [Hin Hno]. exists id. split; [done |].
      apply list_elem_of_filter. split; [| done].
      destruct (matchCache s !! id) as [[obj |] |]; simpl; try done.
      exfalso. apply Hno. by exists obj.
  - rewrite length_fmap. do 2 f_equal.
    apply bool_decide_ext. destruct missing; simpl; split; done.
Qed.


End MatchCache.

(** ** [api/snapshot.js], cached in memory *)

Section CachedSnapshot.
Import Gen Cached Notions.
Context (up : Upstream).

Lemma fetch_entry_run p s :
  let body := tryCatchS (fetchPlayer up p)
                (λ err,
                   updateS (addWarning (WarnPlayer (name p) (tag p) err)) ;;
                   updateS (setResults
                     (λ rs, (rs ++ [Failed (name p) (tag p)])%list))) in
  (body s).1 = Ok tt
  ∧ results (body s).2 = (results s ++ [entryOf up p])%list
  ∧ requests (body s).2 = (requests s ++ resolveCalls up p)%list
  ∧ cache (body s).2 = cache s
  ∧ building (body s).2 = building s.
Proof.
  cbv zeta. unfold tryCatchS, fetchPlayer, entryOf, Snapshot.resolved,
    resolveCalls, mbind, St_bind, get, getOpt, updateS. simpl.
  destruct (account up (name p) (tag p)) as [acc | e]; simpl;
    [| by rewrite <- ?app_assoc].
  destruct (summoner up (acc_puuid acc)) as [sum | e]; simpl;
    [| by rewrite <- ?app_assoc].
  destruct (entries up (acc_puuid acc)) as [rd | e]; simpl;
    by rewrite <- ?app_assoc.
Qed.

Lemma fetch_entries_run roster s :
  let loop := forEachS roster (λ p,
                tryCatchS (fetchPlayer up p)
                  (λ err,
                     updateS (addWarning (WarnPlayer (name p) (tag p) err)) ;;
                     updateS (setResults
                       (λ rs, (rs ++ [Failed (name p) (tag p)])%list)))) in
  (loop s).1 = Ok tt
  ∧ results (loop s).2 = (results s ++ (entryOf up <$> roster))%list
  ∧ requests (loop s).2
    = (requests s ++ concat (resolveCalls up <$> roster))%list
  ∧ cache (loop s).2 = cache s
  ∧ building (loop s).2 = building s.
Proof.
  cbv zeta. revert s. induction roster as [| p roster IH]; intros s.
  - simpl. by rewrite !app_nil_r.
  - destruct (fetch_entry_run p s) as (E1 & E2 & E3 & E4 & E5).
    cbv zeta in E1, E2, E3, E4, E5.
    rewrite forEachS_cons_run by (intros s0; exists tt; apply fetch_entry_run).
    destruct (IH (tryCatchS (fetchPlayer up p)
                    (λ err,
                       updateS (addWarning (WarnPlayer (name p) (tag p) err)) ;;
                       updateS (setResults
                         (λ rs, (rs ++ [Failed (name p) (tag p)])%list))) s).2)
      as (I1 & I2 & I3 & I4 & I5).
    rewrite I1, I2, I3, I4, I5, E2, E3, E4, E5.
    simpl. by rewrite <- !app_assoc.
Qed.

Lemma buildSnapshot_entries roster s :
  (buildSnapshot up roster s).1 = Ok (entryOf up <$> roster).
Proof.
  unfold buildSnapshot. rewrite bindS_run. simpl. rewrite bindS_run.
  destruct (fetch_entries_run roster (setResults (λ _, []) s)) as (E1 & E2 & _).
  cbv zeta in E1, E2. rewrite E1. rewrite bindS_run. simpl. by rewrite E2.
Qed.

(** X22.  The cached variant never fails to build: whatever the upstream
    answers, [buildSnapshot] returns one element per roster entry, in
    roster order: what was fetched for the entry, or a placeholder with
    the name and tag of the roster when one of its required requests is
    rejected.  It requests steps 1 to 4 entry by entry and leaves the
    cache and the lock alone. *)
Theorem snapshot_has_one_entry_per_player roster s :
  let out := buildSnapshot up roster s in
  out.1 = Ok (entryOf up <$> roster)
  ∧ List.length (entryOf up <$> roster) = List.length roster
  ∧ requests out.2 = (requests s ++ concat (resolveCalls up <$> roster))%list
  ∧ cache out.2 = cache s
  ∧ building out.2 = building s.
Proof.
  cbv zeta. unfold buildSnapshot. rewrite bindS_run. simpl.
  rewrite bindS_run.
  destruct (fetch_entries_run roster (setResults (λ _, []) s))
    as (E1 & E2 & E3 & E4 & E5).
  cbv zeta in E1, E2, E3, E4, E5. rewrite E1. rewrite bindS_run. simpl.
  rewrite E2, E3, E4, E5. simpl. by rewrite length_fmap.
Qed.

(** X23.  A refresh fills the cache, and the cache then answers for an
    hour: a request that finds the lock free and is forced, or finds no
    snapshot younger than [CACHE_TTL], is answered 200 with the snapshot
    just built, never with an error or a stale copy, and frees the lock;
    every unforced request within the hour after it is answered with that
    same snapshot, marked cached, without a request to the upstream. *)
Theorem refresh_then_cached roster apiKey now req s :
  method req ≠ "OPTIONS" → truthy apiKey = true →
  building s = false →
  (force req = true
   ∨ ∀ c, cache s = Some c → CACHE_TTL ≤ now - updatedAt c) →
  let out := handler up roster apiKey now req s in
  let snapshot := mkSnapshot (entryOf up <$> roster) now in
  out.1 = Ok (Served snapshot false false)
  ∧ cache out.2 = Some snapshot
  ∧ building out.2 = false
  ∧ ∀ up' roster' later req',
      method req' ≠ "OPTIONS" → force req' = false →
      later - now < CACHE_TTL →
      handler up' roster' apiKey later req' out.2
      = (Ok (Served snapshot true false), out.2).
Proof.
  intros Hm Hk Hb Hgo. cbv zeta.
  assert (handler up roster apiKey now req s =
          (Ok (Served (mkSnapshot (entryOf up <$> roster) now) false false),
           setBuilding false
             (setCache (Some (mkSnapshot (entryOf up <$> roster) now))
                (buildSnapshot up roster (setBuilding true s)).2))) as Hrun.
  { unfold handler. rewrite bool_decide_eq_false_2 by done. rewrite Hk. simpl.
    rewrite bindS_run. simpl. rewrite bindS_run.
    assert ((match cache s with
             | Some c =>
                 if negb (force req) && (now - updatedAt c <? CACHE_TTL)
                 then mret (Some (Served c true false))
                 else mret None
             | None => mret None
             end : St State (option Response)) s = (Ok None, s)) as ->.
    { destruct (cache s) as [c |] eqn:Hc; [| done].
      destruct Hgo as [-> | Hold]; [done |].
      specialize (Hold c eq_refl). apply Z.ltb_ge in Hold. rewrite Hold.
      by rewrite andb_false_r. }
    simpl. rewrite Hb. rewrite bindS_run. simpl.
    unfold tryFinallyS. rewrite tryCatchS_run, bindS_run.
    rewrite (buildSnapshot_entries roster (setBuilding true s)). simpl.
    done. }
  rewrite Hrun. simpl.
  split; [done |]. split; [done |]. split; [done |].
  intros up' roster' later req' Hm' Hf' Hlt.
  unfold handler. rewrite bool_decide_eq_false_2 by done. rewrite Hk. simpl.
  rewrite bindS_run. simpl. rewrite bindS_run. simpl. rewrite Hf'. simpl.
  apply Z.ltb_lt in Hlt. rewrite Hlt. done.
Qed.

End CachedSnapshot.

(** ** [api/backfill.js] *)

Section SingleRow.

(** A query by primary key on a table that has its rows under their keys
    selects the row of the key, if there is one, and no other. *)
Lemma single_by_key `{Countable K} {A} (key : A → K) (P : A → Prop)
    `{!∀ r, Decision (P r)} (m : gmap K A) (i : K) :
  (∀ j r, m !! j = Some r → key r = j) →
  (∀ r, P r ↔ key r = i) →
  Backfill.single (filter P (map_to_list m).*2) = m !! i.
Proof.
  intros Hkey HP. destruct (m !! i) as [r |] eqn:Hi.
  - assert (filter P (map_to_list m).*2 = [r]) as ->; [| done].
    apply Permutation_singleton_r.
    rewrite <- (map_to_list_delete m i r Hi). rewrite fmap_cons. simpl.
    rewrite filter_cons_True by (apply HP; by apply Hkey).
    assert (filter P (map_to_list (delete i m)).*2 = []) as ->; [| done].
    apply filter_none, Forall_forall. intros r' Hr'.
    apply list_elem_of_fmap in Hr' as ([j r''] & -> & Hin).
    apply elem_of_map_to_list in Hin. simpl.
    apply lookup_delete_Some in Hin as [Hne Hj].
    rewrite HP. rewrite (Hkey _ _ Hj). done.
  - assert (filter P (map_to_list m).*2 = []) as ->; [| done].
    apply filter_none, Forall_forall. intros r' Hr'.
    apply list_elem_of_fmap in Hr' as ([j r''] & -> & Hin).
    apply elem_of_map_to_list in Hin. simpl.
    rewrite HP. intros E. rewrite (Hkey _ _ Hin) in E. congruence.
Qed.

End SingleRow.

Section BackfillSteps.
Import Gen Notions Backfill.
Context (up : Upstream) (now : Z).

Lemma matchById_lookup id (st : Store) :
  keyedByMatchId st → matchById id st = matches st !! id.
Proof.
  intros Hk. unfold matchById. by apply (single_by_key m_match_id).
Qed.

Lemma playerMatchOf_lookup u id (st : Store) :
  keyedByPair st → playerMatchOf u id st = player_matches st !! (u, id).
Proof.
  intros Hk. unfold playerMatchOf.
  apply (single_by_key (λ r, (pm_puuid r, pm_match_id r))); [done |].
  intros r. split; [by intros [-> ->] | by intros [= -> ->]].
Qed.

(** Preservation, step by step. *)

Section RespectsBackfill.
Context (R : relation State) `{!Reflexive R, !Transitive R}.

Lemma respectsS_riotGet {A} (c : Call) (r : Res A) :
  (∀ s, R s (addRequest c s)) → respectsS R (riotGet c r).
Proof. intros Hc s. apply Hc. Qed.

Lemma respectsS_dbRead {A} (q : Store → A) : respectsS R (dbRead q).
Proof. intros s. simpl. reflexivity. Qed.

Lemma respectsS_dbWrite (f : Store → Store) :
  (∀ s, online s = true → R s (setStore f s)) → respectsS R (dbWrite f).
Proof.
  intros Hf s. unfold dbWrite, updateS. simpl.
  destruct (online s) eqn:Ho; [by apply Hf | reflexivity].
Qed.

Lemma respectsS_push (l : Line) :
  (∀ s, R s (setLog (λ ls, (ls ++ [l])%list) s)) → respectsS R (push l).
Proof. intros Hl s. apply Hl. Qed.

End RespectsBackfill.

End BackfillSteps.

Ltac backfill_step :=
  lazymatch goal with
  | |- Gen.respectsS _ (mret _) => apply respectsS_ret; try apply _
  | |- Gen.respectsS _ Gen.getS => apply respectsS_getS; try apply _
  | |- Gen.respectsS _ (Backfill.dbRead _) => apply respectsS_dbRead; try apply _
  | |- Gen.respectsS _ (_ ≫= _) =>
      apply respectsS_bind; [try apply _ .. | | intros ?]
  | |- Gen.respectsS _ (Gen.tryCatchS _ _) =>
      apply respectsS_tryCatchS; [try apply _ .. | | intros ?]
  | |- Gen.respectsS _ (Gen.forEachS _ _) =>
      apply respectsS_forEachS; [try apply _ .. | intros ?]
  | |- Gen.respectsS _ (Gen.updateS _) => apply respectsS_updateS; intros ?
  | |- Gen.respectsS _ (Backfill.riotGet _ _) => apply respectsS_riotGet; intros ?
  | |- Gen.respectsS _ (Backfill.dbWrite _) =>
      apply respectsS_dbWrite; [try apply _ .. | intros ? ?]
  | |- Gen.respectsS _ (Backfill.push _) => apply respectsS_push; intros ?
  | |- Gen.respectsS _ (if ?b then _ else _) => destruct b
  | |- Gen.respectsS _ (match ?x with _ => _ end) => destruct x
  end.

Ltac backfill_all := cbv zeta; repeat (backfill_step; cbv zeta).

Section BackfillFrame.
Import Gen Notions Backfill.
Context (up : Upstream) (now : Z).

#[local] Instance keepsOthers_refl : Reflexive keepsOthers.
Proof. by intros s. Qed.

#[local] Instance keepsOthers_trans : Transitive keepsOthers.
Proof.
  intros s1 s2 s3 (A1 & B1 & C1 & D1 & E1) (A2 & B2 & C2 & D2 & E2).
  unfold keepsOthers. rewrite A2, B2, C2. repeat split; try done; set_solver.
Qed.

Lemma handler_keepsOthers targets env method :
  respectsS keepsOthers (handler up targets env now method).
Proof.
  unfold handler, backfillTarget, backfillMatch, repairRow, fetchMatch.
  backfill_all;
    try (unfold keepsOthers; simpl; rewrite ?dom_insert_L;
         repeat split; first [done | set_solver]).
Qed.

Lemma backfillMatch_total acc matchId : totalS (backfillMatch up now acc matchId).
Proof.
  intros s. unfold backfillMatch, repairRow, fetchMatch.
  rewrite bindS_run. simpl.
  destruct (mjoin (data _)) as [existing |].
  - rewrite bindS_run. simpl. rewrite bindS_run. simpl.
    destruct (mjoin (data _)) as [pm |]; [by eexists |].
    rewrite bindS_run. simpl.
    destruct (mjoin (data _) ≫= _) as [part |]; [| by eexists].
    rewrite bindS_run. simpl. by eexists.
  - rewrite tryCatchS_run, bindS_run. simpl.
    destruct (matchDetail up matchId) as [m | e]; simpl; [| by eexists].
    rewrite bindS_run. simpl.
    destruct (participantMap (participants m) !! acc_puuid acc) as [part |];
      [rewrite bindS_run |]; simpl; by eexists.
Qed.

Lemma backfillTarget_total p : totalS (backfillTarget up now p).
Proof.
  intros s. unfold backfillTarget. rewrite tryCatchS_run.
  destruct (_ s).1; simpl; by eexists.
Qed.

End BackfillFrame.

Section BackfillRepair.
Import Gen Notions Backfill.
Context (up : Upstream) (now : Z) (u id : string).

#[local] Instance keepsRepair_refl : Reflexive (keepsRepair u id).
Proof. by intros s Hs. Qed.

#[local] Instance keepsRepair_trans : Transitive (keepsRepair u id).
Proof.
  intros s1 s2 s3 H1 H2 Hs.
  destruct (H1 Hs) as (Hs2 & A1 & B1).
  destruct (H2 Hs2) as (Hs3 & A2 & B2). auto.
Qed.

(** A step that leaves the store alone. *)
Lemma same_store_keepsRepair s s' :
  store s' = store s → online s' = online s → keepsRepair u id s s'.
Proof.
  intros Hst Ho Hs. unfold sound, hasRow, listsPlayer in *.
  rewrite Hst, Ho. split; [exact Hs |]. split; intros H; exact H.
Qed.

(** Writing a row of [player_matches]. *)
Lemma upsertPlayerMatch_keepsRepair (row : PlayerMatchRow) s :
  online s = true →
  keepsRepair u id s (setStore (upsertPlayerMatch row) s).
Proof.
  intros _ (Ho & Hm & Hp). split; [| split].
  - split; [done |]. split; [done |]. intros k r. simpl.
    rewrite lookup_insert. case_decide; [| apply Hp]. by intros [= <-].
  - unfold hasRow. simpl. intros Hr. rewrite lookup_insert.
    case_decide; [by eexists | done].
  - unfold hasRow, listsPlayer. simpl. intros [Hl | Hr]; [by left | right].
    rewrite lookup_insert. case_decide; [by eexists | done].
Qed.

Lemma repairRow_keepsRepair acc matchId :
  respectsS (keepsRepair u id) (repairRow now acc matchId).
Proof.
  unfold repairRow. backfill_all;
    first [by apply upsertPlayerMatch_keepsRepair
          | by apply same_store_keepsRepair].
Qed.

Lemma fetchMatch_keepsRepair acc matchId s :
  matches (store s) !! matchId = None →
  keepsRepair u id s (fetchMatch up now acc matchId s).2.
Proof.
  intros Hnew. unfold fetchMatch. rewrite tryCatchS_run, bindS_run.
  unfold riotGet at 1 2 3. simpl.
  destruct (matchDetail up matchId) as [m | e]; simpl;
    [| by apply same_store_keepsRepair].
  set (s0 := addRequest (MatchDetailCall matchId) s).
  assert (keepsRepair u id s
            (setStore (upsertMatch
               (mkMatchRow matchId now (participantMap (participants m)))) s0))
    as Hstored.
  { intros (Ho & Hm & Hp). split; [| split].
    - split; [done |]. split; [| done]. intros k r. simpl.
      rewrite lookup_insert. case_decide; [| apply Hm]. by intros [= <-].
    - done.
    - unfold hasRow, listsPlayer. simpl. intros [(row & part & Hrow & Hpart) | Hr];
        [left | by right].
      exists row, part. split; [| done].
      rewrite lookup_insert_ne; [done |]. intros ->. congruence. }
  intros Hs. destruct (Hstored Hs) as (Hs1 & A1 & B1).
  assert (online s = true) as Ho by apply Hs.
  rewrite bindS_run. unfold dbWrite at 1 2 3, updateS at 1 2 3. simpl.
  rewrite Ho. simpl. fold s0.
  destruct (participantMap (participants m) !! acc_puuid acc) as [part |].
  - rewrite bindS_run. unfold dbWrite, updateS. simpl. rewrite Ho. simpl.
    fold s0.
    match goal with
    | |- context [setLog _ (setStore (upsertPlayerMatch ?row) ?s1)] =>
        destruct (upsertPlayerMatch_keepsRepair row s1 Ho Hs1) as (Hs2 & A2 & B2)
    end.
    split; [exact Hs2 |]. split; auto.
  - simpl. split; [exact Hs1 |]. split; auto.
Qed.

Lemma backfillMatch_keepsRepair acc matchId :
  respectsS (keepsRepair u id) (backfillMatch up now acc matchId).
Proof.
  intros s Hs. pose proof Hs as (Ho & Hm & Hp).
  unfold backfillMatch. rewrite bindS_run. simpl. rewrite Ho. simpl.
  rewrite matchById_lookup by done.
  destruct (matches (store s) !! matchId) as [existing |] eqn:Hstored.
  - assert (respectsS (keepsRepair u id)
              (push (Skip matchId) ;; repairRow now acc matchId)) as Hrun.
    { apply respectsS_bind; [apply _ | | intros _; apply repairRow_keepsRepair].
      apply respectsS_push. intros s0. by apply same_store_keepsRepair. }
    by apply Hrun.
  - by apply fetchMatch_keepsRepair.
Qed.

(** The turn of the match [id] in the list of the player [u]. *)
Lemma backfillMatch_repairs acc s :
  acc_puuid acc = u → sound s →
  listsPlayer u id s ∨ hasRow u id s →
  hasRow u id (backfillMatch up now acc id s).2.
Proof.
  intros Hu Hs Hg. pose proof Hs as (Ho & Hm & Hp).
  destruct (player_matches (store s) !! (u, id)) as [pm |] eqn:Hpm.
  { destruct (backfillMatch_keepsRepair acc id s Hs) as (_ & Hrow & _).
    apply Hrow. by exists pm. }
  destruct Hg as [(row & part & Hrow & Hpart) | [pm Hpm']]; [| congruence].
  unfold backfillMatch. rewrite bindS_run. simpl. rewrite Ho. simpl.
  rewrite matchById_lookup, Hrow by done. simpl.
  rewrite bindS_run. simpl. unfold repairRow.
  rewrite bindS_run. simpl. rewrite Ho. simpl.
  rewrite playerMatchOf_lookup, Hu, Hpm by done. simpl.
  rewrite bindS_run. simpl. rewrite Ho. simpl.
  rewrite matchById_lookup, Hrow by done. simpl. rewrite Hpart.
  rewrite bindS_run. unfold dbWrite, updateS. simpl. rewrite Ho. simpl.
  unfold hasRow. simpl. rewrite lookup_insert_eq. by eexists.
Qed.

Lemma backfillTarget_keepsRepair p :
  respectsS (keepsRepair u id) (backfillTarget up now p).
Proof.
  unfold backfillTarget. backfill_all;
    first [apply backfillMatch_keepsRepair | by apply same_store_keepsRepair].
Qed.

Lemma backfillTarget_repairs p acc ids s :
  account up (name p) (tag p) = Ok acc → acc_puuid acc = u →
  matchIds up u = Ok ids → id ∈ ids →
  sound s → listsPlayer u id s ∨ hasRow u id s →
  hasRow u id (backfillTarget up now p s).2.
Proof.
  intros Hacc Hu Hids Hin Hs Hg.
  unfold backfillTarget. rewrite tryCatchS_run.
  set (body := (push (Target (name p) (tag p)) ;; _) : St State unit).
  assert (hasRow u id (body s).2) as Hbody.
  { unfold body. rewrite bindS_run. simpl. rewrite bindS_run.
    unfold riotGet. simpl. rewrite Hacc. simpl.
    rewrite bindS_run. simpl. rewrite bindS_run.
    simpl. rewrite Hu, Hids. simpl.
    rewrite bindS_run. simpl.
    set (s0 := setLog _ (addRequest _ (setLog _ (addRequest _ (setLog _ s))))).
    assert (keepsRepair u id s s0) as H0 by (by apply same_store_keepsRepair).
    destruct (H0 Hs) as (Hs0 & _ & G0). specialize (G0 Hg).
    apply list_elem_of_split in Hin as (l1 & l2 & ->).
    assert (∀ l, respectsS (keepsRepair u id)
                   (forEachS l (backfillMatch up now acc))) as Hloop.
    { intros l. apply respectsS_forEachS; [apply _ | apply _ |].
      intros x. apply backfillMatch_keepsRepair. }
    rewrite bindS_run.
    destruct (totalS_forEachS (l1 ++ id :: l2) (backfillMatch up now acc)
                (backfillMatch_total up now acc) s0) as [[] ->].
    simpl.
    rewrite forEachS_app_run by apply backfillMatch_total.
    destruct (Hloop l1 s0 Hs0) as (Hs1 & _ & G1). specialize (G1 G0).
    rewrite forEachS_cons_run by apply backfillMatch_total.
    pose proof (backfillMatch_repairs acc _ Hu Hs1 G1) as Hrow.
    destruct (backfillMatch_keepsRepair acc id _ Hs1) as (Hs2 & _ & _).
    destruct (Hloop l2 _ Hs2) as (_ & R2 & _). by apply R2. }
  destruct (body s).1; [done |]. exact Hbody.
Qed.

End BackfillRepair.

Section BackfillTheorems.
Import Gen Notions Backfill.

(** X24.  The backfill repairs a missing row: over a store that answers
    and has its rows under their keys, if a target resolves, its match
    list holds a match that is stored, and the [data] of the match lists
    the player, then after the call the player has a row in
    [player_matches] for that match, whether or not it had one before;
    the call is answered with the log. *)
Theorem backfill_repairs_missing_row up now targets env method p acc ids id
    row part s :
  method ≠ "OPTIONS" → configured env →
  online s = true → keyedByMatchId (store s) → keyedByPair (store s) →
  p ∈ targets →
  account up (name p) (tag p) = Ok acc →
  matchIds up (acc_puuid acc) = Ok ids → id ∈ ids →
  matches (store s) !! id = Some row → m_data row !! acc_puuid acc = Some part →
  let out := handler up targets env now method s in
  (∃ lines, out.1 = Ok (Finished lines))
  ∧ is_Some (player_matches (store out.2) !! (acc_puuid acc, id)).
Proof.
  intros Hm (K1 & K2 & K3) Ho Hkm Hkp Hp Hacc Hids Hin Hrow Hpart. cbv zeta.
  set (u := acc_puuid acc).
  unfold handler. rewrite bool_decide_eq_false_2 by done.
  rewrite K1, K2, K3. simpl.
  rewrite bindS_run. simpl. rewrite bindS_run.
  set (s0 := setLog (λ _, []) s).
  destruct (totalS_forEachS targets (backfillTarget up now)
              (backfillTarget_total up now) s0) as [[] Hok].
  rewrite Hok. rewrite bindS_run. simpl.
  split; [by eexists |].
  assert (sound s0) as Hs0 by done.
  assert (listsPlayer u id s0 ∨ hasRow u id s0) as G0.
  { left. by exists row, part. }
  assert (∀ l, respectsS (keepsRepair u id)
                 (forEachS l (backfillTarget up now))) as Hloop.
  { intros l. apply respectsS_forEachS.
    - apply keepsRepair_refl.
    - apply keepsRepair_trans.
    - intros x. apply backfillTarget_keepsRepair. }
  apply list_elem_of_split in Hp as (t1 & t2 & ->).
  rewrite forEachS_app_run by apply backfillTarget_total.
  destruct (Hloop t1 s0 Hs0) as (Hs1 & _ & G1). specialize (G1 G0).
  rewrite forEachS_cons_run by apply backfillTarget_total.
  pose proof (backfillTarget_repairs up now u id p acc ids _ Hacc eq_refl
                Hids Hin Hs1 G1) as Hrow1.
  destruct (backfillTarget_keepsRepair up now u id p _ Hs1) as (Hs2 & _ & _).
  destruct (Hloop t2 _ Hs2) as (_ & R2 & _). by apply R2.
Qed.

(** X25.  The backfill only adds match results: whatever the request and
    the upstream answers, a call never throws, leaves [players],
    [rank_history] and [milestones] as they are, and removes no key from
    [matches] or [player_matches]. *)
Theorem backfill_only_adds_matches up now targets env method s :
  let out := handler up targets env now method s in
  (∃ response, out.1 = Ok response)
  ∧ players (store out.2) = players (store s)
  ∧ rank_history (store out.2) = rank_history (store s)
  ∧ milestones (store out.2) = milestones (store s)
  ∧ dom (matches (store s)) ⊆ dom (matches (store out.2))
  ∧ dom (player_matches (store s)) ⊆ dom (player_matches (store out.2)).
Proof.
  cbv zeta. split; [| apply (handler_keepsOthers up now targets env method s)].
  unfold handler. case_bool_decide; [by eexists |].
  destruct (_ || _); [by eexists |].
  rewrite bindS_run. simpl. rewrite bindS_run.
  destruct (totalS_forEachS targets (backfillTarget up now)
              (backfillTarget_total up now) (setLog (λ _, []) s)) as [[] ->].
  rewrite bindS_run. simpl. by eexists.
Qed.

End BackfillTheorems.

Section OtherWitnesses.
Import Notions Demo Cases.

Lemma match_ids_are_plain (id : string) :
  id ∈ ["M1"; "M2"; "M1"] → id ∉ inheritedNames.
Proof.
  intros Hid.
  repeat (apply elem_of_cons in Hid as [-> | Hid];
          [apply (bool_decide_unpack _); by vm_compute |]).
  by apply elem_of_nil in Hid.
Defined.

(** A first request for [M1], which the upstream knows, [M2], which it
    does not, and [M1] again downloads all three. *)
Lemma matches_downloads_witness :
  MatchesApi.requests
    (MatchesApi.serve upstream ["M1"; "M2"; "M1"] emptyCache).2
  = [MatchDetailCall "M1"; MatchDetailCall "M2"; MatchDetailCall "M1"].
Proof.
  pose proof (matches_downloads upstream ["M1"; "M2"; "M1"] emptyCache
                match_ids_are_plain) as H.
  cbv zeta in H. destruct H as (issued & result & E & -> & _).
  rewrite E. reflexivity.
Defined.


Lemma refresh_then_cached_witness :
  (Cached.handler upstream [entryA; entryGhost] (Some "key") now
     (Cached.mkRequest "GET" false) coldStart).1
  = Ok (Cached.Served
          (Cached.mkSnapshot
             [Cached.Fetched "a" "EUW" puuidA 1 30 [solo "GOLD" "II" 40 11 10]
                false;
              Cached.Failed "ghost" "EUW"] now) false false).
Proof.
  pose proof (refresh_then_cached upstream [entryA; entryGhost] (Some "key")
                now (Cached.mkRequest "GET" false) coldStart) as H.
  cbv zeta in H. destruct H as (H & _).
  - discriminate.
  - reflexivity.
  - reflexivity.
  - right. intros c Hc. discriminate Hc.
  - exact H.
Defined.

Lemma afterCycle_keyedByMatchId : keyedByMatchId afterCycle.
Proof.
  change (map_Forall (λ k r, m_match_id r = k) (matches afterCycle)).
  apply (bool_decide_unpack _). by vm_compute.
Defined.

Lemma afterCycle_keyedByPair : keyedByPair afterCycle.
Proof.
  change (map_Forall (λ k r, (pm_puuid r, pm_match_id r) = k)
            (player_matches afterCycle)).
  apply (bool_decide_unpack _). by vm_compute.
Defined.

Lemma backfill_repairs_missing_row_witness :
  player_matches afterCycle !! (puuidB, "M1") = None
  ∧ is_Some (player_matches
               (Backfill.store
                  (Backfill.handler upstream [entryA; entryB] env now "GET"
                     backfillStart).2) !! (puuidB, "M1")).
Proof.
  split; [by vm_compute |].
  refine (proj2 (backfill_repairs_missing_row upstream now [entryA; entryB] env
                   "GET" entryB accountB ["M1"] "M1"
                   (mkMatchRow "M1" now (participantMap (participants sharedMatch)))
                   (mkPartStat true "Zed" 4 5 6) backfillStart
                   _ _ _ _ _ _ _ _ _ _ _)).
  - discriminate.
  - exact env_configured.
  - reflexivity.
  - exact afterCycle_keyedByMatchId.
  - exact afterCycle_keyedByPair.
  - apply elem_of_cons. right. apply list_elem_of_singleton. reflexivity.
  - reflexivity.
  - reflexivity.
  - apply list_elem_of_singleton. reflexivity.
  - by vm_compute.
  - by vm_compute.
Defined.

End OtherWitnesses.
